(** * Gophor: file cache, freshness monitor, gophermap parser and policy files

    A shallow embedding of the Go sources

      - the file cache ([FileCache], [Fetch], [checkCacheFreshness]),
      - the gophermap parser and renderer ([readGophermap], [Render]),
      - the policy-file bootstrap ([cachePolicyFiles], [generateCapsTxt]),

    and the properties of them that the design document states.

    Go code that takes locks is embedded as a command tree ([Prog]): every
    statement that touches shared memory or a mutex is one atomic command
    ([Op]).  The same tree is run in two ways: [exec] runs one goroutine to
    completion, [sched] interleaves a pool of goroutines under an explicit
    schedule.  A lock that is not available blocks the goroutine, a nil
    dereference or an unlock of an unlocked mutex panics. *)

From Stdlib Require Import ZArith Ascii String.
From stdpp Require Import gmap strings list fin_maps.

Set Default Proof Using "Type".
Local Open Scope Z_scope.

(** ** The outside world *)

(** [*GophorError]: the error values the sources pass around. *)
Inductive GophorError : Type :=
| FileOpenErr
| FileReadErr
| FileStatErr
| DirListErr.

(** What the operating system answers during one call: the files that can
    be read (whole contents), [os.Stat(path).ModTime().UnixNano()] for the
    paths that can be stat'ed, the wall clock [time.Now().UnixNano()], and
    the directory lister [listDir] (a collaborator of the parser). *)
Record World : Type := {
  readFile : string → option string;
  statModTime : string → option Z;
  nowNano : Z;
  listDir : string → gmap string bool → string * option GophorError;
}.

(** ** Content strategies and cacheable files *)

(** The [FileContents] interface: what a cacheable file asks of its content
    strategy. *)
Class FileContents (C : Type) : Type := {
  Load : World → C → C * option GophorError;
  Render : World → C → string;
  Clear : C → C;
}.

(** [sync.RWMutex]: the number of readers inside and whether a writer is. *)
Record RWMutex : Type := { readers : nat; writer : bool }.

Definition rwFree : RWMutex := {| readers := 0; writer := false |}.

Definition rwRLock (m : RWMutex) : option RWMutex :=
  if writer m then None
  else Some {| readers := S (readers m); writer := false |}.

Definition rwRUnlock (m : RWMutex) : option RWMutex :=
  match readers m with
  | O => None
  | S n => Some {| readers := n; writer := writer m |}
  end.

Definition rwLock (m : RWMutex) : option RWMutex :=
  if writer m then None
  else match readers m with
       | O => Some {| readers := 0; writer := true |}
       | S _ => None
       end.

Definition rwUnlock (m : RWMutex) : option RWMutex :=
  if writer m then Some {| readers := readers m; writer := false |} else None.

(** Modelled from the spec: the cacheable file behind the [File] interface
    of the cache (its implementation is not part of the sources at hand).
    It wraps a content strategy with the fresh flag, the last-refresh
    timestamp in nanoseconds and the per-entry read/write lock. *)
Record File (C : Type) : Type := {
  contents : C;
  fresh : bool;
  lastRefresh : Z;
  fileMutex : RWMutex;
}.
Arguments contents {C} _.
Arguments fresh {C} _.
Arguments lastRefresh {C} _.
Arguments fileMutex {C} _.

(** Modelled from the spec: [NewFile(contents)] wraps a strategy into a
    file that is not fresh yet. *)
Definition NewFile {C} (c : C) : File C :=
  {| contents := c; fresh := false; lastRefresh := 0; fileMutex := rwFree |}.

(** Modelled from the spec: load-contents calls the strategy's load and, on
    success, sets fresh and last-refresh = now. *)
Definition LoadContents `{FileContents C} (w : World) (f : File C)
  : File C * option GophorError :=
  match Load w (contents f) with
  | (c, Some e) =>
      ({| contents := c; fresh := fresh f; lastRefresh := lastRefresh f;
          fileMutex := fileMutex f |}, Some e)
  | (c, None) =>
      ({| contents := c; fresh := true; lastRefresh := nowNano w;
          fileMutex := fileMutex f |}, None)
  end.

(** Modelled from the spec: set-unfresh clears the flag and touches nothing
    else. *)
Definition SetUnfresh {C} (f : File C) : File C :=
  {| contents := contents f; fresh := false; lastRefresh := lastRefresh f;
     fileMutex := fileMutex f |}.

Definition setFileMutex {C} (m : RWMutex) (f : File C) : File C :=
  {| contents := contents f; fresh := fresh f; lastRefresh := lastRefresh f;
     fileMutex := m |}.

(** ** The file cache *)

(** A [*list.Element] of [container/list]: its identity and its value. *)
Record Element : Type := { elemId : nat; Value : string }.

(** [FileElement]: a pointer to the file (an index into the heap of files)
    and the handle of the path's element in the list. *)
Record FileElement : Type := { FilePtr : nat; ElementPtr : nat }.

Record FileCache (C : Type) : Type := {
  CacheMap : gmap string FileElement;
  CacheMutex : RWMutex;
  FileList : list Element;
  ListMutex : bool;
  Size : Z;
  NewFileFunc : string → C;
}.
Arguments CacheMap {C} _.
Arguments CacheMutex {C} _.
Arguments FileList {C} _.
Arguments ListMutex {C} _.
Arguments Size {C} _.
Arguments NewFileFunc {C} _.

(** Shared memory: the cache, the heap of file objects (a pointer is an
    index; objects are never freed), the source of fresh element
    identities, and a log of the strategy loads performed so far (the file
    pointers, most recent first).  The log is an observer: nothing reads
    it. *)
Record State (C : Type) : Type := {
  fc : FileCache C;
  heap : list (File C);
  nextElem : nat;
  loadLog : list nat;
}.
Arguments fc {C} _.
Arguments heap {C} _.
Arguments nextElem {C} _.
Arguments loadLog {C} _.

(** [fc.Init(size, newFileFunc)] *)
Definition Init {C} (size : Z) (newFileFunc : string → C) : FileCache C :=
  {| CacheMap := ∅; CacheMutex := rwFree; FileList := []; ListMutex := false;
     Size := size; NewFileFunc := newFileFunc |}.

Definition initState {C} (size : Z) (newFileFunc : string → C) : State C :=
  {| fc := Init size newFileFunc; heap := []; nextElem := 0; loadLog := [] |}.

Section Updates.
Context {C : Type}.

Definition setCacheMap (m : gmap string FileElement) (s : State C) : State C :=
  {| fc := {| CacheMap := m; CacheMutex := CacheMutex (fc s);
              FileList := FileList (fc s); ListMutex := ListMutex (fc s);
              Size := Size (fc s); NewFileFunc := NewFileFunc (fc s) |};
     heap := heap s; nextElem := nextElem s; loadLog := loadLog s |}.

Definition setCacheMutex (m : RWMutex) (s : State C) : State C :=
  {| fc := {| CacheMap := CacheMap (fc s); CacheMutex := m;
              FileList := FileList (fc s); ListMutex := ListMutex (fc s);
              Size := Size (fc s); NewFileFunc := NewFileFunc (fc s) |};
     heap := heap s; nextElem := nextElem s; loadLog := loadLog s |}.

Definition setFileList (l : list Element) (s : State C) : State C :=
  {| fc := {| CacheMap := CacheMap (fc s); CacheMutex := CacheMutex (fc s);
              FileList := l; ListMutex := ListMutex (fc s);
              Size := Size (fc s); NewFileFunc := NewFileFunc (fc s) |};
     heap := heap s; nextElem := nextElem s; loadLog := loadLog s |}.

Definition setListMutex (b : bool) (s : State C) : State C :=
  {| fc := {| CacheMap := CacheMap (fc s); CacheMutex := CacheMutex (fc s);
              FileList := FileList (fc s); ListMutex := b;
              Size := Size (fc s); NewFileFunc := NewFileFunc (fc s) |};
     heap := heap s; nextElem := nextElem s; loadLog := loadLog s |}.

Definition setHeap (h : list (File C)) (s : State C) : State C :=
  {| fc := fc s; heap := h; nextElem := nextElem s; loadLog := loadLog s |}.

Definition setNextElem (n : nat) (s : State C) : State C :=
  {| fc := fc s; heap := heap s; nextElem := n; loadLog := loadLog s |}.

Definition setLoadLog (l : list nat) (s : State C) : State C :=
  {| fc := fc s; heap := heap s; nextElem := nextElem s; loadLog := l |}.
End Updates.

(** ** [container/list] on a list of elements, front first *)

(** [l.Remove(e)]: nothing happens when [e] is not an element of [l]. *)
Definition listRemove (e : nat) (l : list Element) : list Element :=
  filter (λ x, elemId x ≠ e) l.

(** [l.MoveToFront(e)]: nothing happens when [e] is not an element of [l]
    (a removed element has [e.list == nil]) or is the front already. *)
Definition listMoveToFront (e : nat) (l : list Element) : list Element :=
  match filter (λ x, elemId x = e) l with
  | [] => l
  | x :: _ => x :: listRemove e l
  end.

(** [l.Back()]: nil on the empty list. *)
Definition listBack (l : list Element) : option Element := last l.

(** ** Commands and command trees *)

Inductive Outcome (A : Type) : Type :=
| Done (a : A)
| Blocked
| Panicked.
Arguments Done {A} _.
Arguments Blocked {A}.
Arguments Panicked {A}.

(** One atomic command of a goroutine and the type of what it returns. *)
Inductive Op : Type → Type :=
| CacheRLock : Op unit
| CacheRUnlock : Op unit
| CacheLock : Op unit
| CacheUnlock : Op unit
| ListLock : Op unit
| ListUnlock : Op unit
| FileRLock (f : nat) : Op unit
| FileRUnlock (f : nat) : Op unit
| FileLock (f : nat) : Op unit
| FileUnlock (f : nat) : Op unit
| MapGet (path : string) : Op (option FileElement)
| MapSet (path : string) (fe : FileElement) : Op unit
| MapDelete (path : string) : Op unit
| MapKeys : Op (list string)
| CallNewFile (path : string) : Op nat
| CallLoadContents (f : nat) : Op (option GophorError)
| CallIsFresh (f : nat) : Op bool
| CallSetUnfresh (f : nat) : Op unit
| CallLastRefresh (f : nat) : Op Z
| CallContents (f : nat) : Op string
| ListPushFront (v : string) : Op nat
| ListLen : Op Z
| ListBack : Op (option Element)
| ListRemove (e : nat) : Op unit
| ListMoveToFront (e : nat) : Op unit
| GetSize : Op Z
| OsStat (path : string) : Op (option Z).

Inductive Prog (A : Type) : Type :=
| Ret (a : A)
| Panic
| Vis {R : Type} (o : Op R) (k : R → Prog A).
Arguments Ret {A} _.
Arguments Panic {A}.
Arguments Vis {A R} _ _.

Declare Scope prog_scope.
Delimit Scope prog_scope with prog.
Bind Scope prog_scope with Prog.
Notation "x <- o ;; k" := (Vis o (fun x => k))
  (at level 20, o at level 99, k at level 200, only parsing) : prog_scope.
Notation "o ;; k" := (Vis o (fun _ => k))
  (at level 100, k at level 200, only parsing, right associativity) : prog_scope.

Fixpoint bind {A B} (p : Prog A) (f : A → Prog B) : Prog B :=
  match p with
  | Ret a => f a
  | Panic => Panic
  | Vis o k => Vis o (fun r => bind (k r) f)
  end.

Section Semantics.
Context `{FileContents C}.

Definition withFile {R} (f : nat) (s : State C)
    (g : File C → Outcome (R * File C)) : Outcome (R * State C) :=
  match heap s !! f with
  | None => Panicked
  | Some x =>
      match g x with
      | Done (r, x') => Done (r, setHeap (<[f := x']> (heap s)) s)
      | Blocked => Blocked
      | Panicked => Panicked
      end
  end.

(** Taking a lock that is not available blocks; releasing a lock that is
    not held is a fatal error of the runtime. *)
Definition acquire {X} (o : option X) : Outcome (unit * X) :=
  match o with Some x => Done (tt, x) | None => Blocked end.

Definition release {X} (o : option X) : Outcome (unit * X) :=
  match o with Some x => Done (tt, x) | None => Panicked end.

Definition onFileMutex (f : nat) (s : State C)
    (g : RWMutex → Outcome (unit * RWMutex)) : Outcome (unit * State C) :=
  withFile f s (λ x,
    match g (fileMutex x) with
    | Done (r, m) => Done (r, setFileMutex m x)
    | Blocked => Blocked
    | Panicked => Panicked
    end).

Definition onCacheMutex (s : State C)
    (g : RWMutex → Outcome (unit * RWMutex)) : Outcome (unit * State C) :=
  match g (CacheMutex (fc s)) with
  | Done (r, m) => Done (r, setCacheMutex m s)
  | Blocked => Blocked
  | Panicked => Panicked
  end.

Definition handle {R} (w : World) (o : Op R) (s : State C)
  : Outcome (R * State C) :=
  match o in Op R return Outcome (R * State C) with
  | CacheRLock => onCacheMutex s (λ m, acquire (rwRLock m))
  | CacheRUnlock => onCacheMutex s (λ m, release (rwRUnlock m))
  | CacheLock => onCacheMutex s (λ m, acquire (rwLock m))
  | CacheUnlock => onCacheMutex s (λ m, release (rwUnlock m))
  | ListLock =>
      if ListMutex (fc s) then Blocked else Done (tt, setListMutex true s)
  | ListUnlock =>
      if ListMutex (fc s) then Done (tt, setListMutex false s) else Panicked
  | FileRLock f => onFileMutex f s (λ m, acquire (rwRLock m))
  | FileRUnlock f => onFileMutex f s (λ m, release (rwRUnlock m))
  | FileLock f => onFileMutex f s (λ m, acquire (rwLock m))
  | FileUnlock f => onFileMutex f s (λ m, release (rwUnlock m))
  | MapGet path => Done (CacheMap (fc s) !! path, s)
  | MapSet path fe => Done (tt, setCacheMap (<[path := fe]> (CacheMap (fc s))) s)
  | MapDelete path => Done (tt, setCacheMap (delete path (CacheMap (fc s))) s)
  | MapKeys => Done ((map_to_list (CacheMap (fc s))).*1, s)
  | CallNewFile path =>
      Done (length (heap s),
            setHeap (heap s ++ [NewFile (NewFileFunc (fc s) path)]) s)
  | CallLoadContents f =>
      match withFile f s (λ x, let (x', e) := LoadContents w x in Done (e, x')) with
      | Done (e, s') => Done (e, setLoadLog (f :: loadLog s') s')
      | Blocked => Blocked
      | Panicked => Panicked
      end
  | CallIsFresh f => withFile f s (λ x, Done (fresh x, x))
  | CallSetUnfresh f => withFile f s (λ x, Done (tt, SetUnfresh x))
  | CallLastRefresh f => withFile f s (λ x, Done (lastRefresh x, x))
  | CallContents f => withFile f s (λ x, Done (Render w (contents x), x))
  | ListPushFront v =>
      Done (nextElem s,
            setNextElem (S (nextElem s))
              (setFileList ({| elemId := nextElem s; Value := v |}
                              :: FileList (fc s)) s))
  | ListLen => Done (Z.of_nat (length (FileList (fc s))), s)
  | ListBack => Done (listBack (FileList (fc s)), s)
  | ListRemove e => Done (tt, setFileList (listRemove e (FileList (fc s))) s)
  | ListMoveToFront e =>
      Done (tt, setFileList (listMoveToFront e (FileList (fc s))) s)
  | GetSize => Done (Size (fc s), s)
  | OsStat path => Done (statModTime w path, s)
  end.

(** One goroutine run alone until it returns. *)
Fixpoint exec {A} (w : World) (p : Prog A) (s : State C)
  : Outcome (A * State C) :=
  match p with
  | Ret a => Done (a, s)
  | Panic => Panicked
  | Vis o k =>
      match handle w o s with
      | Done (r, s') => exec w (k r) s'
      | Blocked => Blocked
      | Panicked => Panicked
      end
  end.

(** A pool of goroutines.  [poolStep i] lets goroutine [i] perform its
    next command; there is no step when [i] has returned, is blocked, or
    does not exist.  A panic of any goroutine ends the process. *)
Inductive PoolOutcome (A : Type) : Type :=
| Running (pool : list (Prog A)) (s : State C)
| Crashed
| NoStep.
Arguments Running {A} _ _.
Arguments Crashed {A}.
Arguments NoStep {A}.

Definition poolStep {A} (w : World) (i : nat) (pool : list (Prog A))
    (s : State C) : PoolOutcome A :=
  match pool !! i with
  | None => NoStep
  | Some (Ret _) => NoStep
  | Some Panic => Crashed
  | Some (Vis o k) =>
      match handle w o s with
      | Done (r, s') => Running (<[i := k r]> pool) s'
      | Blocked => NoStep
      | Panicked => Crashed
      end
  end.

(** Run a schedule: the list of the goroutines that step, in order. *)
Fixpoint sched {A} (w : World) (schedule : list nat) (pool : list (Prog A))
    (s : State C) : PoolOutcome A :=
  match schedule with
  | [] => Running pool s
  | i :: rest =>
      match poolStep w i pool s with
      | Running pool' s' => sched w rest pool' s'
      | Crashed => Crashed
      | NoStep => NoStep
      end
  end.
End Semantics.
Arguments Running {C A} _ _.
Arguments Crashed {C A}.
Arguments NoStep {C A}.

(** ** [Fetch] and [checkCacheFreshness] *)

Local Open Scope prog_scope.

(** The common end of [Fetch]: read the contents under the file read lock,
    move the path's element to the front under the list lock, release the
    cache read lock. *)
Definition fetchServe (fileElement : FileElement)
  : Prog (string * option GophorError) :=
  b <- CallContents (FilePtr fileElement) ;;
  FileRUnlock (FilePtr fileElement) ;;
  ListLock ;;
  ListMoveToFront (ElementPtr fileElement) ;;
  ListUnlock ;;
  CacheRUnlock ;;
  Ret (b, None).

(** "If we're at capacity, remove last item in list from map+list".
    [fc.CacheMap[removePath]] is nil when the path is not in the map, and
    [removeElement] is nil on an empty list: the dereference panics.  The
    type assertion [removeElement.Value.(string)] cannot fail here, the
    list holds strings only. *)
Definition fetchEvict {A} (k : Prog A) : Prog A :=
  removeElement <- ListBack ;;
  match removeElement with
  | None => Panic
  | Some re =>
      let removePath := Value re in
      fe1 <- MapGet removePath ;;
      match fe1 with
      | None => Panic
      | Some x =>
          FileLock (FilePtr x) ;;
          fe2 <- MapGet removePath ;;
          match fe2 with
          | None => Panic
          | Some y =>
              FileUnlock (FilePtr y) ;;
              MapDelete removePath ;;
              ListRemove (elemId re) ;;
              k
          end
      end
  end.

(** "File not fresh! Swap read for write-lock": the branch of [Fetch] for
    an entry whose flag was read as not fresh under the read lock. *)
Definition fetchReload (fileElement : FileElement)
  : Prog (string * option GophorError) :=
  let file := FilePtr fileElement in
  FileRUnlock file ;;
  FileLock file ;;
  gophorErr <- CallLoadContents file ;;
  match gophorErr with
  | Some e =>
      FileUnlock file ;;
      CacheRUnlock ;;
      Ret (EmptyString, Some e)
  | None =>
      FileUnlock file ;;
      FileRLock file ;;
      fetchServe fileElement
  end.

Definition Fetch (path : string) : Prog (string * option GophorError) :=
  CacheRLock ;;
  lookup <- MapGet path ;;
  match lookup with
  | Some fileElement =>
      let file := FilePtr fileElement in
      FileRLock file ;;
      isFresh <- CallIsFresh file ;;
      if negb isFresh then fetchReload fileElement
      else fetchServe fileElement
  | None =>
      CacheRUnlock ;;
      CacheLock ;;
      file <- CallNewFile path ;;
      gophorErr <- CallLoadContents file ;;
      match gophorErr with
      | Some e =>
          CacheUnlock ;;
          Ret (EmptyString, Some e)
      | None =>
          element <- ListPushFront path ;;
          let fileElement := {| FilePtr := file; ElementPtr := element |} in
          MapSet path fileElement ;;
          len <- ListLen ;;
          size <- GetSize ;;
          let rest :=
            CacheUnlock ;;
            CacheRLock ;;
            FileRLock file ;;
            fetchServe fileElement in
          if bool_decide (len = size) then fetchEvict rest else rest
      end
  end.

Fixpoint forEach (l : list string) (body : string → Prog unit) : Prog unit :=
  match l with
  | [] => Ret tt
  | x :: rest => bind (body x) (fun _ => forEach rest body)
  end.

(** The body of the loop of [checkCacheFreshness]. *)
Definition checkEntry (path : string) : Prog unit :=
  stat <- OsStat path ;;
  match stat with
  | None => Ret tt
  | Some timeModified =>
      lookup <- MapGet path ;;
      match lookup with
      | None => Panic
      | Some fileElement =>
          let file := FilePtr fileElement in
          FileLock file ;;
          isFresh <- CallIsFresh file ;;
          if isFresh then
            last <- CallLastRefresh file ;;
            if bool_decide (last < timeModified)%Z then
              CallSetUnfresh file ;;
              FileUnlock file ;;
              Ret tt
            else
              FileUnlock file ;;
              Ret tt
          else
            FileUnlock file ;;
            Ret tt
      end
  end.

Definition checkCacheFreshness : Prog unit :=
  CacheRLock ;;
  paths <- MapKeys ;;
  bind (forEach paths checkEntry) (fun _ =>
  CacheRUnlock ;;
  Ret tt).

Local Close Scope prog_scope.

(** A sequence of [Fetch] calls, one after the other, each with the answers
    the operating system gives during that call.  The result is the list of
    what the calls returned, in order, and the memory after the last. *)
Fixpoint fetchAll `{FileContents C} (reqs : list (World * string))
    (s : State C) : Outcome (list (string * option GophorError) * State C) :=
  match reqs with
  | [] => Done ([], s)
  | (w, path) :: rest =>
      match exec w (Fetch path) s with
      | Done (r, s') =>
          match fetchAll rest s' with
          | Done (rs, s'') => Done (r :: rs, s'')
          | Blocked => Blocked
          | Panicked => Panicked
          end
      | Blocked => Blocked
      | Panicked => Panicked
      end
  end.

(** ** The strategies of the regular cache *)

(** Modelled from the spec: the RegularBytes strategy (load reads the whole
    file, render returns the buffer, clear drops it) and the GeneratedBytes
    strategy (a pre-computed buffer; load and clear do nothing).  Their Go
    implementations are not part of the sources at hand. *)
Inductive RegularCacheContents : Type :=
| RegularFileContents (path : string) (buf : string)
| GeneratedFileContents (buf : string).

Global Instance RegularCacheContents_FileContents
  : FileContents RegularCacheContents := {
  Load w c :=
    match c with
    | RegularFileContents path buf =>
        match readFile w path with
        | Some b => (RegularFileContents path b, None)
        | None => (RegularFileContents path buf, Some FileReadErr)
        end
    | GeneratedFileContents buf => (GeneratedFileContents buf, None)
    end;
  Render _ c :=
    match c with
    | RegularFileContents _ buf => buf
    | GeneratedFileContents buf => buf
    end;
  Clear c :=
    match c with
    | RegularFileContents path _ => RegularFileContents path EmptyString
    | GeneratedFileContents buf => GeneratedFileContents buf
    end;
}.

(** [NewRegularFile(path)] as the factory of the regular cache. *)
Definition NewRegularFile (path : string) : RegularCacheContents :=
  RegularFileContents path EmptyString.

(** A world for examples: every path in [files] can be read and stat'ed. *)
Definition worldOf (files : list (string * (string * Z))) (clock : Z) : World :=
  {| readFile p := fst <$> (list_to_map files : gmap string (string * Z)) !! p;
     statModTime p := snd <$> (list_to_map files : gmap string (string * Z)) !! p;
     nowNano := clock;
     listDir _ _ := (EmptyString, Some DirListErr) |}.

Definition cachedPaths {C} (s : State C) : list string :=
  (map_to_list (CacheMap (fc s))).*1.

Definition listedPaths {C} (s : State C) : list string :=
  Value <$> FileList (fc s).

Definition abcWorld : World :=
  worldOf [("/A", ("a", 1%Z)); ("/B", ("b", 1%Z)); ("/C", ("c", 1%Z))] 5.

(** The file [/A] rewritten at time 9, read at time 10. *)
Definition staleWorld : World :=
  worldOf [("/A", ("a2", 9%Z))] 10.

(** Two goroutines in [Fetch] of a stale entry: both read the flag under
    the read lock and release the read lock (5 commands each), then each
    runs to its end (10 commands each). *)
Definition twoReloadsSchedule : list nat :=
  repeat 0%nat 5 ++ repeat 1%nat 5 ++ repeat 0%nat 10 ++ repeat 1%nat 10.

(** Two goroutines in [Fetch] of a path that is not in the map: both look
    the path up and release the read lock of the map (3 commands each),
    then each runs to its end (16 commands each). *)
Definition twoMissesSchedule : list nat :=
  repeat 0%nat 3 ++ repeat 1%nat 3 ++ repeat 0%nat 16 ++ repeat 1%nat 16.

(** ** Go strings *)

Definition CrLf : string := String "013"%char (String "010"%char EmptyString).
Definition DOSLineEnd : string := CrLf.
Definition Lf : string := String "010"%char EmptyString.
Definition Tab : string := String "009"%char EmptyString.
Definition Backslash : string := String "092"%char EmptyString.

(** [s[n:]] and [s[:n]] for [n] within bounds. *)
Fixpoint strDrop (n : nat) (s : string) : string :=
  match n, s with
  | O, _ => s
  | S n', String _ t => strDrop n' t
  | S _, EmptyString => EmptyString
  end.

Fixpoint strTake (n : nat) (s : string) : string :=
  match n, s with
  | O, _ => EmptyString
  | S n', String c t => String c (strTake n' t)
  | S _, EmptyString => EmptyString
  end.

(** [line[1:]]: a slice bound out of range panics on the empty string. *)
Definition sliceFrom1 (line : string) : option string :=
  match line with
  | EmptyString => None
  | String _ t => Some t
  end.

(** [bytes.Index(data, sep)]: the first index of [sep] in [data]. *)
Fixpoint bytesIndex (sep data : string) : option nat :=
  if String.prefix sep data then Some O
  else match data with
       | EmptyString => None
       | String _ t => S <$> bytesIndex sep t
       end.

(** [strings.HasSuffix], [strings.TrimSuffix] *)
Definition HasSuffix (s suffix : string) : bool :=
  (String.length suffix <=? String.length s)%nat
  && String.eqb (strDrop (String.length s - String.length suffix) s) suffix.

Definition TrimSuffix (s suffix : string) : string :=
  if HasSuffix s suffix
  then strTake (String.length s - String.length suffix) s
  else s.

(** [strings.Replace(s, old, new, -1)] for a non-empty [old]: all
    non-overlapping occurrences, from the left. *)
Fixpoint replaceFrom (fuel : nat) (old new s : string) : string :=
  match fuel with
  | O => s
  | S n =>
      if String.prefix old s
      then new +:+ replaceFrom n old new (strDrop (String.length old) s)
      else match s with
           | EmptyString => EmptyString
           | String c t => String c (replaceFrom n old new t)
           end
  end.

Definition Replace (s old new : string) : string :=
  replaceFrom (String.length s) old new s.

(** ** Configuration *)

(** The flags and [Config] fields the sources read, and the package
    constants whose declarations are not part of the sources at hand. *)
Record ServerConfig : Type := {
  GophermapFileStr : string;
  ReplaceStrHostname : string;
  GophermapRenderErrorStr : string;
  GophorVersion : string;
  ServerHostname : string;
  ServerPort : string;
  PageWidth : Z;
  Description : string;
  Geolocation : string;
  AdminEmail : string;
}.

(** Modelled from the spec: the constants as the design document and the
    README give them. *)
Definition exampleConfig : ServerConfig :=
  {| GophermapFileStr := "gophermap";
     ReplaceStrHostname := "$hostname";
     GophermapRenderErrorStr := "error rendering";
     GophorVersion := "0.5";
     ServerHostname := "example.org";
     ServerPort := "70";
     PageWidth := 80;
     Description := "a gopher server";
     Geolocation := EmptyString;
     AdminEmail := "admin@example.org" |}.

(** Modelled from the spec: [buildInfoLine] is declared outside the sources
    at hand.  An info line has type byte [i], the text, selector [-] and
    the server's host and port, tab-separated and CR-LF terminated. *)
Definition buildInfoLine (cfg : ServerConfig) (content : string) : string :=
  "i" +:+ content +:+ Tab +:+ "-" +:+ Tab +:+ ServerHostname cfg +:+ Tab
      +:+ ServerPort cfg +:+ CrLf.

(** ** Gophermap sections and rendering *)

Inductive GophermapSection : Type :=
| GophermapText (contents : string)
| GophermapDirListing (path : string) (Hidden : gmap string bool).

Definition NewGophermapText (contents : string) : GophermapSection :=
  GophermapText contents.

Definition NewGophermapDirListing (path : string) : GophermapSection :=
  GophermapDirListing path ∅.

(** [GophermapText.Render], [GophermapDirListing.Render] *)
Definition GophermapSection_Render (w : World) (s : GophermapSection)
  : string * option GophorError :=
  match s with
  | GophermapText contents => (contents, None)
  | GophermapDirListing path Hidden => listDir w path Hidden
  end.

Record GophermapContents : Type := {
  gcPath : string;
  gcSections : list GophermapSection;
}.

(** [GophermapContents.Render]: the loop appends to [returnContents]. *)
Definition GophermapContents_Render (cfg : ServerConfig) (w : World)
    (gc : GophermapContents) : string :=
  fold_left
    (λ returnContents line,
       let (content, gophorErr) := GophermapSection_Render w line in
       let content :=
         match gophorErr with
         | Some _ => buildInfoLine cfg (GophermapRenderErrorStr cfg)
         | None => content
         end in
       returnContents +:+ content)
    (gcSections gc) EmptyString.

Definition GophermapContents_Clear (gc : GophermapContents) : GophermapContents :=
  {| gcPath := gcPath gc; gcSections := [] |}.

(** ** The scanner *)

(** What running Go code that may recurse without bound gives: a result,
    no result within the recursion depth allowed, or a runtime panic. *)
Inductive Res (A : Type) : Type :=
| Ok (a : A)
| OutOfFuel
| GoPanic.
Arguments Ok {A} _.
Arguments OutOfFuel {A}.
Arguments GoPanic {A}.

(** A [bufio.SplitFunc] whose error is always nil: from the data not yet
    consumed and [atEOF] to the number of bytes to advance and the token. *)
Definition SplitFunc : Type := string → bool → nat * option string.

(** [for scanner.Scan() { if !iterator(scanner) { break } }] over the whole
    contents of the file.  The splitters of this package return the same
    token for every buffer that holds the first delimiter and ask for more
    data otherwise, so the scanner is run on all the data left with
    [atEOF]; when the splitter gives no token there, [Scan] returns
    false.  Every token of these splitters advances, so [fuel] larger than
    the length of the data does not run out. *)
Fixpoint scanLoop {St : Type} (fuel : nat) (split : SplitFunc)
    (iterator : string → St → Res (St * bool)) (data : string) (st : St)
  : Res St :=
  match fuel with
  | O => GoPanic
  | S n =>
      match split data true with
      | (_, None) => Ok st
      | (advance, Some token) =>
          match iterator token st with
          | Ok (st', true) => scanLoop n split iterator (strDrop advance data) st'
          | Ok (st', false) => Ok st'
          | OutOfFuel => OutOfFuel
          | GoPanic => GoPanic
          end
      end
  end.

(** Modelled from the spec: [bufferedScan] is declared outside the sources
    at hand.  It opens the file, scans it with the splitter and calls the
    iterator on every token until the iterator answers false; a file that
    cannot be opened is the error.  Read errors in the middle of a file and
    the limit on the size of a token are not modelled. *)
Definition bufferedScan {St : Type} (w : World) (path : string)
    (split : SplitFunc) (iterator : string → St → Res (St * bool)) (st : St)
  : Res (St * option GophorError) :=
  match readFile w path with
  | None => Ok (st, Some FileOpenErr)
  | Some data =>
      match scanLoop (S (String.length data)) split iterator data st with
      | Ok st' => Ok (st', None)
      | OutOfFuel => OutOfFuel
      | GoPanic => GoPanic
      end
  end.

(** The splitter of [readGophermap]: lines end in CR-LF. *)
Definition splitCrLf : SplitFunc := λ data atEOF,
  if atEOF && (String.length data =? 0)%nat then (O, None)
  else match bytesIndex CrLf data with
       | Some i => ((i + 2)%nat, Some (strTake i data))
       | None => (O, None)
       end.

(** The splitter of [readIntoGophermap]: lines end in LF, which stays in
    the token. *)
Definition splitLf : SplitFunc := λ data atEOF,
  if atEOF && (String.length data =? 0)%nat then (O, None)
  else match bytesIndex Lf data with
       | Some i => ((i + 1)%nat, Some (strTake (i + 1) data))
       | None => (O, None)
       end.

(** ** [readIntoGophermap] *)

Definition minWidth (cfg : ServerConfig) (w : Z) : Z :=
  if bool_decide (w ≤ PageWidth cfg)%Z then w else PageWidth cfg.

(** [for len(line) > 0 { ... }]: a negative slice bound panics, a page
    width of zero never ends. *)
Fixpoint reflow (fuel : nat) (cfg : ServerConfig) (line fileContents : string)
  : Res string :=
  if (String.length line =? 0)%nat then Ok fileContents
  else match fuel with
       | O => OutOfFuel
       | S n =>
           let length := minWidth cfg (Z.of_nat (String.length line)) in
           if bool_decide (length < 0)%Z then GoPanic
           else reflow n cfg (strDrop (Z.to_nat length) line)
                  (fileContents +:+ buildInfoLine cfg (strTake (Z.to_nat length) line))
       end.

Definition readIntoGophermap (cfg : ServerConfig) (w : World) (path : string)
  : Res (string * option GophorError) :=
  match
    bufferedScan w path splitLf
      (λ line fileContents,
         if String.eqb line Lf
         then Ok (fileContents +:+ buildInfoLine cfg EmptyString, true)
         else
           let line := Replace line Lf EmptyString in
           match reflow (String.length line) cfg line fileContents with
           | Ok fileContents' => Ok (fileContents', true)
           | OutOfFuel => OutOfFuel
           | GoPanic => GoPanic
           end)
      EmptyString
  with
  | Ok (_, Some gophorErr) => Ok (EmptyString, Some gophorErr)
  | Ok (fileContents, None) =>
      if negb (HasSuffix fileContents CrLf)
      then Ok (fileContents +:+ CrLf, None)
      else Ok (fileContents, None)
  | OutOfFuel => OutOfFuel
  | GoPanic => GoPanic
  end.

(** ** [readGophermap] *)

(** The item types [readGophermap] tells apart; every other type byte is a
    normal menu line. *)
Inductive ItemType : Type :=
| TypeInfoNotStated
| TypeComment
| TypeHiddenFile
| TypeSubGophermap
| TypeExec
| TypeEnd
| TypeEndBeginList
| TypeOther.

(** The variables the iterator of [readGophermap] closes over. *)
Record ScanVars : Type := {
  sections : list GophermapSection;
  hidden : gmap string bool;
  dirListing : option string;
}.

(** [sections := make([]GophermapSection, 0)], [hidden := make(...)],
    [var dirListing *GophermapDirListing] *)
Definition emptyVars : ScanVars :=
  {| sections := []; hidden := ∅; dirListing := None |}.

Definition appendSections (l : list GophermapSection) (v : ScanVars) : ScanVars :=
  {| sections := sections v ++ l; hidden := hidden v;
     dirListing := dirListing v |}.

Section Parser.
(** [parseLineType] is declared outside the sources at hand: the parser
    is embedded for any classifier of lines. *)
Variable parseLineType : string → ItemType.
Variable cfg : ServerConfig.
Variable w : World.

(** The iterator of [readGophermap] on one line; [recurse] is
    [readGophermap] itself, one level deeper. *)
Definition gophermapLine
    (recurse : string → Res (list GophermapSection * option GophorError))
    (path line : string) (v : ScanVars) : Res (ScanVars * bool) :=
  match parseLineType line with
  | TypeInfoNotStated =>
      Ok (appendSections [NewGophermapText (buildInfoLine cfg line)] v, true)
  | TypeComment => Ok (v, true)
  | TypeHiddenFile =>
      match sliceFrom1 line with
      | None => GoPanic
      | Some name =>
          Ok ({| sections := sections v; hidden := <[name := true]> (hidden v);
                 dirListing := dirListing v |}, true)
      end
  | TypeSubGophermap =>
      match sliceFrom1 line with
      | None => GoPanic
      | Some target =>
          if HasSuffix target (GophermapFileStr cfg) then
            if String.eqb target path then Ok (v, true)
            else
              match recurse target with
              | Ok (_, Some _) =>
                  Ok (appendSections
                        [NewGophermapText
                           (buildInfoLine cfg ("Error reading subgophermap: " +:+ target))]
                        v, true)
              | Ok (submapSections, None) =>
                  Ok (appendSections submapSections v, true)
              | OutOfFuel => OutOfFuel
              | GoPanic => GoPanic
              end
          else
            match readIntoGophermap cfg w target with
            | Ok (_, Some _) =>
                Ok (appendSections
                      [NewGophermapText
                         (buildInfoLine cfg ("Error reading subgophermap: " +:+ target))]
                      v, true)
            | Ok (fileContents, None) =>
                Ok (appendSections [NewGophermapText fileContents] v, true)
            | OutOfFuel => OutOfFuel
            | GoPanic => GoPanic
            end
      end
  | TypeExec =>
      Ok (appendSections
            [NewGophermapText
               (buildInfoLine cfg "Error: inline shell commands not yet supported")]
            v, true)
  | TypeEnd => Ok (v, false)
  | TypeEndBeginList =>
      Ok ({| sections := sections v; hidden := hidden v;
             dirListing := Some (TrimSuffix path (GophermapFileStr cfg)) |}, false)
  | TypeOther =>
      let line := Replace line (ReplaceStrHostname cfg) (ServerHostname cfg) in
      Ok (appendSections [NewGophermapText (line +:+ CrLf)] v, true)
  end.

(** [fuel] bounds the depth of the recursion through include directives:
    the Go function has no such bound. *)
Fixpoint readGophermap (fuel : nat) (path : string)
  : Res (list GophermapSection * option GophorError) :=
  match fuel with
  | O => OutOfFuel
  | S n =>
      match
        bufferedScan w path splitCrLf (gophermapLine (readGophermap n) path)
          emptyVars
      with
      | Ok (_, Some gophorErr) => Ok ([], Some gophorErr)
      | Ok (v, None) =>
          match dirListing v with
          | Some dir =>
              Ok (sections v ++ [GophermapDirListing dir (hidden v)], None)
          | None => Ok (sections v, None)
          end
      | OutOfFuel => OutOfFuel
      | GoPanic => GoPanic
      end
  end.

(** [GophermapContents.Load] *)
Definition GophermapContents_Load (fuel : nat) (gc : GophermapContents)
  : Res (GophermapContents * option GophorError) :=
  match readGophermap fuel (gcPath gc) with
  | Ok (secs, gophorErr) => Ok ({| gcPath := gcPath gc; gcSections := secs |}, gophorErr)
  | OutOfFuel => OutOfFuel
  | GoPanic => GoPanic
  end.

(** The lines of a list handled one after the other, whatever the
    iterator answers about going on. *)
Fixpoint handleLines
    (recurse : string → Res (list GophermapSection * option GophorError))
    (path : string) (lines : list string) (v : ScanVars) : Res ScanVars :=
  match lines with
  | [] => Ok v
  | line :: rest =>
      match gophermapLine recurse path line v with
      | Ok (v', _) => handleLines recurse path rest v'
      | OutOfFuel => OutOfFuel
      | GoPanic => GoPanic
      end
  end.
End Parser.

(** Modelled from the spec: a classifier of lines by their first byte, as
    the table of the parser gives it ([.] and [*] count alone on their
    line only; a line without a tab is plain text). *)
Definition parseLineTypeByFirstByte (line : string) : ItemType :=
  match line with
  | EmptyString => TypeInfoNotStated
  | String "#" _ => TypeComment
  | String "-" _ => TypeHiddenFile
  | String "=" _ => TypeSubGophermap
  | String "$" _ => TypeExec
  | String "." EmptyString => TypeEnd
  | String "*" EmptyString => TypeEndBeginList
  | _ => match bytesIndex Tab line with
         | Some _ => TypeOther
         | None => TypeInfoNotStated
         end
  end.

(** An iterator called on the lines of a list, in order, until it answers
    false. *)
Fixpoint runLines {St : Type} (iterator : string → St → Res (St * bool))
    (lines : list string) (st : St) : Res St :=
  match lines with
  | [] => Ok st
  | line :: rest =>
      match iterator line st with
      | Ok (st', true) => runLines iterator rest st'
      | Ok (st', false) => Ok st'
      | OutOfFuel => OutOfFuel
      | GoPanic => GoPanic
      end
  end.

(** What a section gives to the page: its rendered bytes, or the error
    info line in their place when its render returns an error. *)
Definition sectionBytes (cfg : ServerConfig) (w : World) (s : GophermapSection)
  : string :=
  match GophermapSection_Render w s with
  | (_, Some _) => buildInfoLine cfg (GophermapRenderErrorStr cfg)
  | (content, None) => content
  end.

(** The lines of a source as a reader counts them: the pieces between
    CR-LF delimiters, the piece after the last delimiter included when it
    is not empty. *)
Fixpoint sourceLinesFrom (fuel : nat) (data : string) : list string :=
  match fuel with
  | O => []
  | S n =>
      match bytesIndex CrLf data with
      | Some i => strTake i data :: sourceLinesFrom n (strDrop (i + 2) data)
      | None => if (String.length data =? 0)%nat then [] else [data]
      end
  end.

Definition sourceLines (data : string) : list string :=
  sourceLinesFrom (S (String.length data)) data.

(** All lines of a list, each followed by CR-LF. *)
Definition joinCrLf (lines : list string) : string :=
  fold_right (λ line rest, line +:+ CrLf +:+ rest) EmptyString lines.

(** All lines of a list, each followed by LF. *)
Definition joinLf (lines : list string) : string :=
  fold_right (λ line rest, line +:+ Lf +:+ rest) EmptyString lines.

(** ** Policy files *)

Definition generateCapsTxt (cfg : ServerConfig) : string :=
  let text := "CAPS" +:+ DOSLineEnd in
  let text := text +:+ DOSLineEnd in
  let text := text +:+ "# This is an automatically generated" +:+ DOSLineEnd in
  let text := text +:+ "# server policy file: caps.txt" +:+ DOSLineEnd in
  let text := text +:+ DOSLineEnd in
  let text := text +:+ "CapsVersion=1" +:+ DOSLineEnd in
  let text := text +:+ "ExpireCapsAfter=1800" +:+ DOSLineEnd in
  let text := text +:+ DOSLineEnd in
  let text := text +:+ "PathDelimeter=/" +:+ DOSLineEnd in
  let text := text +:+ "PathIdentity=." +:+ DOSLineEnd in
  let text := text +:+ "PathParent=.." +:+ DOSLineEnd in
  let text := text +:+ "PathParentDouble=FALSE" +:+ DOSLineEnd in
  let text := text +:+ ("PathEscapeCharacter=" +:+ Backslash) +:+ DOSLineEnd in
  let text := text +:+ "PathKeepPreDelimeter=FALSE" +:+ DOSLineEnd in
  let text := text +:+ DOSLineEnd in
  let text := text +:+ "ServerSoftware=Gophor" +:+ DOSLineEnd in
  let text := text +:+ ("ServerSoftwareVersion=" +:+ GophorVersion cfg) +:+ DOSLineEnd in
  let text := text +:+ ("ServerDescription=" +:+ Description cfg) +:+ DOSLineEnd in
  let text := text +:+ ("ServerGeolocationString=" +:+ Geolocation cfg) +:+ DOSLineEnd in
  let text := text +:+ "ServerDefaultEncoding=ascii" +:+ DOSLineEnd in
  let text := text +:+ DOSLineEnd in
  let text := text +:+ ("ServerAdmin=" +:+ AdminEmail cfg) +:+ DOSLineEnd in
  text.

Definition generateRobotsTxt : string :=
  let text := "Usage-agent: *" +:+ DOSLineEnd in
  let text := text +:+ "Disallow: *" +:+ DOSLineEnd in
  let text := text +:+ DOSLineEnd in
  let text := text +:+ "Crawl-delay: 99999" +:+ DOSLineEnd in
  let text := text +:+ DOSLineEnd in
  let text := text +:+ "# This server does not support scraping" +:+ DOSLineEnd in
  text.

(** Modelled from the spec: [CacheMap.Put(path, file)] is declared outside
    the sources at hand.  It places the file in the cache at its path: the
    file object is allocated, the path goes to the front of the list and
    the map entry points at both. *)
Definition cachePut {C} (path : string) (file : File C) (s : State C) : State C :=
  let fileElement := {| FilePtr := length (heap s); ElementPtr := nextElem s |} in
  setCacheMap (<[path := fileElement]> (CacheMap (fc s)))
    (setFileList ({| elemId := nextElem s; Value := path |} :: FileList (fc s))
       (setNextElem (S (nextElem s))
          (setHeap (heap s ++ [file]) s))).

(** One policy file of [cachePolicyFiles]: generated and put into the cache
    when the file cannot be stat'ed.  [file.LoadContents()] is called "just
    to set it as fresh". *)
Definition cachePolicyFile (w : World) (path content : string)
    (s : State RegularCacheContents) : State RegularCacheContents :=
  match statModTime w path with
  | Some _ => s
  | None =>
      let fileContents := GeneratedFileContents content in
      let file := NewFile fileContents in
      let file := fst (LoadContents w file) in
      cachePut path file s
  end.

Definition cachePolicyFiles (cfg : ServerConfig) (w : World)
    (s : State RegularCacheContents) : State RegularCacheContents :=
  let s := cachePolicyFile w "/caps.txt" (generateCapsTxt cfg) s in
  cachePolicyFile w "/robots.txt" generateRobotsTxt s.


(** ** The state of the cache between calls *)

(** No lock of the cache is held. *)
Definition quiescent {C} (s : State C) : Prop :=
  CacheMutex (fc s) = rwFree ∧ ListMutex (fc s) = false
  ∧ ∀ i f, heap s !! i = Some f → fileMutex f = rwFree.

(** The paths of the map are the paths of the list, and every path is in
    the list once. *)
Definition mapListAgree {C} (s : State C) : Prop :=
  dom (CacheMap (fc s)) = list_to_set (Value <$> FileList (fc s))
  ∧ NoDup (Value <$> FileList (fc s)).

(** Distinct paths of the map have distinct files. *)
Definition filesDistinct {C} (s : State C) : Prop :=
  ∀ p1 p2 fe1 fe2,
    CacheMap (fc s) !! p1 = Some fe1 → CacheMap (fc s) !! p2 = Some fe2 →
    FilePtr fe1 = FilePtr fe2 → p1 = p2.

(** Every entry of the map points at a file of the heap and at the element
    of the list that holds its path; the elements of the list are distinct
    and older than the next one; no file is shared between entries. *)
Definition wellLinked {C} (s : State C) : Prop :=
  (∀ path fe, CacheMap (fc s) !! path = Some fe →
      {| elemId := ElementPtr fe; Value := path |} ∈ FileList (fc s)
      ∧ (FilePtr fe < length (heap s))%nat)
  ∧ NoDup (elemId <$> FileList (fc s))
  ∧ (∀ e, e ∈ FileList (fc s) → (elemId e < nextElem s)%nat)
  ∧ filesDistinct s.

Definition cacheInv {C} (s : State C) : Prop :=
  quiescent s ∧ mapListAgree s ∧ wellLinked s.

(** A memory between calls, written out. *)
Definition mkState {C} (m : gmap string FileElement) (l : list Element)
    (size : Z) (nf : string → C) (h : list (File C)) (ne : nat)
    (log : list nat) : State C :=
  {| fc := {| CacheMap := m; CacheMutex := rwFree; FileList := l;
              ListMutex := false; Size := size; NewFileFunc := nf |};
     heap := h; nextElem := ne; loadLog := log |}.

Definition mkFile {C} (c : C) (b : bool) (t : Z) : File C :=
  {| contents := c; fresh := b; lastRefresh := t; fileMutex := rwFree |}.


(** ** Counting the loads of a goroutine *)

Definition isLoad {R} (o : Op R) : bool :=
  match o with
  | CallLoadContents _ => true
  | _ => false
  end.

(** On every path through the command tree there are at most [n] calls of
    load-contents. *)
Fixpoint loadsAtMost {A} (n : nat) (p : Prog A) : Prop :=
  match p with
  | Ret _ => True
  | Panic => True
  | Vis o k =>
      if isLoad o
      then match n with
           | O => False
           | S n' => ∀ r, loadsAtMost n' (k r)
           end
      else ∀ r, loadsAtMost n (k r)
  end.

(** ** The locks of the cache along the paths of a goroutine *)

(** The locks of the cache a goroutine holds: read locks of the map, the
    write lock of the map, the lock of the list. *)
Record HeldLocks : Type := {
  heldRead : nat;
  heldWrite : bool;
  heldList : bool;
}.

Definition noLocks : HeldLocks :=
  {| heldRead := 0; heldWrite := false; heldList := false |}.

(** What a command leaves held, and [None] when the goroutine releases a
    lock it does not hold, takes a lock of the map, read or write, while
    it holds one of them already, or the list lock while it holds it
    (which blocks it for ever, for the read lock taken twice as soon as a
    writer waits in between), or touches the map or
    the list without the lock that guards it: a lock of the map to read
    the map, its write lock to write the map and to read, push on or
    remove from the list, the list lock and a lock of the map to move an
    element. *)
Definition lockStep {R} (o : Op R) (h : HeldLocks) : option HeldLocks :=
  match o with
  | CacheRLock =>
      if heldWrite h then None
      else match heldRead h with
           | O => Some {| heldRead := 1; heldWrite := false;
                          heldList := heldList h |}
           | S _ => None
           end
  | CacheRUnlock =>
      match heldRead h with
      | O => None
      | S n => Some {| heldRead := n; heldWrite := heldWrite h;
                       heldList := heldList h |}
      end
  | CacheLock =>
      if heldWrite h then None
      else match heldRead h with
           | O => Some {| heldRead := 0; heldWrite := true;
                          heldList := heldList h |}
           | S _ => None
           end
  | CacheUnlock =>
      if heldWrite h
      then Some {| heldRead := heldRead h; heldWrite := false;
                   heldList := heldList h |}
      else None
  | ListLock =>
      if heldList h then None
      else Some {| heldRead := heldRead h; heldWrite := heldWrite h;
                   heldList := true |}
  | ListUnlock =>
      if heldList h
      then Some {| heldRead := heldRead h; heldWrite := heldWrite h;
                   heldList := false |}
      else None
  | MapGet _ | MapKeys =>
      if heldWrite h || negb (heldRead h =? 0)%nat then Some h else None
  | MapSet _ _ | MapDelete _ | ListPushFront _ | ListRemove _ | ListBack
  | ListLen =>
      if heldWrite h then Some h else None
  | ListMoveToFront _ =>
      if heldList h && (heldWrite h || negb (heldRead h =? 0)%nat)
      then Some h else None
  | _ => Some h
  end.

(** On every path through the command tree, whatever the commands
    return, every command has the locks it needs, and the goroutine holds
    the locks [final] when it returns. *)
Fixpoint lockDiscipline {A} (h final : HeldLocks) (p : Prog A) : Prop :=
  match p with
  | Ret _ => h = final
  | Panic => True
  | Vis o k =>
      match lockStep o h with
      | Some h' => ∀ r, lockDiscipline h' final (k r)
      | None => False
      end
  end.

(** What a command does to the map and to the list. *)
Definition readsMap {R} (o : Op R) : bool :=
  match o with
  | MapGet _ | MapKeys => true
  | _ => false
  end.

Definition writesMap {R} (o : Op R) : bool :=
  match o with
  | MapSet _ _ | MapDelete _ => true
  | _ => false
  end.

Definition readsList {R} (o : Op R) : bool :=
  match o with
  | ListBack | ListLen => true
  | _ => false
  end.

Definition writesList {R} (o : Op R) : bool :=
  match o with
  | ListPushFront _ | ListRemove _ | ListMoveToFront _ => true
  | _ => false
  end.

(** Two commands race when they touch the same structure and the first
    writes it. *)
Definition races {R1 R2} (o1 : Op R1) (o2 : Op R2) : bool :=
  writesMap o1 && (readsMap o2 || writesMap o2)
  || writesList o1 && (readsList o2 || writesList o2).

(** The goroutines that use one cache: a worker calls [Fetch] for the path
    of its request; the monitor of [startFileMonitor] calls
    [checkCacheFreshness] on the cache round after round, without end.
    [rounds] is the number of rounds looked at; the sleep between rounds
    is no command. *)
Inductive Goroutine : Type :=
| Worker (path : string)
| Monitor (rounds : nat).

Fixpoint monitorRounds (rounds : nat) : Prog unit :=
  match rounds with
  | O => Ret tt
  | S n => bind checkCacheFreshness (fun _ => monitorRounds n)
  end.

Definition goroutine (g : Goroutine) : Prog unit :=
  match g with
  | Worker path => bind (Fetch path) (fun _ => Ret tt)
  | Monitor rounds => monitorRounds rounds
  end.

Definition boolToNat (b : bool) : nat := if b then 1 else 0.

(** The locks of the map and of the list are held as the goroutines hold
    them. *)
Definition locksAgree {C} (hs : list HeldLocks) (s : State C) : Prop :=
  readers (CacheMutex (fc s)) = sum_list (heldRead <$> hs)
  ∧ boolToNat (writer (CacheMutex (fc s)))
    = sum_list ((λ h, boolToNat (heldWrite h)) <$> hs)
  ∧ boolToNat (ListMutex (fc s))
    = sum_list ((λ h, boolToNat (heldList h)) <$> hs)
  ∧ (writer (CacheMutex (fc s)) = true → readers (CacheMutex (fc s)) = 0%nat).

(** ** The freshness monitor, entry by entry *)

(** The file at [path] can be stat'ed, the entry is fresh, and the file on
    disk was modified after the last refresh of the entry. *)
Definition staleOnDisk {C} (w : World) (path : string) (f : File C) : bool :=
  match statModTime w path with
  | Some timeModified => fresh f && bool_decide (lastRefresh f < timeModified)%Z
  | None => false
  end.

(** The heap after the monitor has gone through a list of paths. *)
Definition sweepFiles {C} (w : World) (m : gmap string FileElement)
    (paths : list string) (h : list (File C)) : list (File C) :=
  foldl (λ h path,
           match m !! path with
           | Some fe =>
               match h !! FilePtr fe with
               | Some f =>
                   <[FilePtr fe := if staleOnDisk w path f then SetUnfresh f else f]> h
               | None => h
               end
           | None => h
           end) h paths.

(** The memory while the monitor holds the read lock of the map. *)
Definition monitoring {C} (m : gmap string FileElement) (l : list Element)
    (size : Z) (nf : string → C) (h : list (File C)) (ne : nat)
    (log : list nat) : State C :=
  setCacheMutex {| readers := 1; writer := false |}
    (mkState m l size nf h ne log).

(** ** Examples *)

(** A cache that holds the path [/A], loaded at time 5. *)
Definition oneEntryState : State RegularCacheContents :=
  mkState (<["/A" := {| FilePtr := 0; ElementPtr := 0 |}]> ∅)
    [{| elemId := 0; Value := "/A" |}] 3 NewRegularFile
    ([] ++ [mkFile (RegularFileContents "/A" "a") true 5]) 1 [0%nat].

(** A server root with a [caps.txt] of its own. *)
Definition capsOnDiskWorld : World :=
  worldOf [("/caps.txt", ("my own caps", 1%Z))] 5.

(** A server root without policy files. *)
Definition emptyWorld : World := worldOf [] 5.

(** A gophermap that includes itself, at a path with the gophermap suffix
    and at a path without. *)
Definition selfIncludeWorld : World :=
  worldOf [("/dir/gophermap", ("=/dir/gophermap" +:+ CrLf, 1%Z));
           ("/menu", ("=/menu" +:+ CrLf, 1%Z))] 5.

(** The example configuration with another page width. *)
Definition configWithPageWidth (width : Z) : ServerConfig :=
  {| GophermapFileStr := GophermapFileStr exampleConfig;
     ReplaceStrHostname := ReplaceStrHostname exampleConfig;
     GophermapRenderErrorStr := GophermapRenderErrorStr exampleConfig;
     GophorVersion := GophorVersion exampleConfig;
     ServerHostname := ServerHostname exampleConfig;
     ServerPort := ServerPort exampleConfig;
     PageWidth := width;
     Description := Description exampleConfig;
     Geolocation := Geolocation exampleConfig;
     AdminEmail := AdminEmail exampleConfig |}.

(** A text file whose last line has no LF, and the same file without that
    line. *)
Definition textFilesWorld : World :=
  worldOf [("/a.txt", ("one" +:+ Lf +:+ "two", 1%Z));
           ("/b.txt", ("one" +:+ Lf, 1%Z))] 5.

(** Gophermaps with a last-line directive in the middle, with an include
    of another gophermap, and two that include each other. *)
Definition menusWorld : World :=
  worldOf [("/end/gophermap",
            ("iOne" +:+ CrLf +:+ "." +:+ CrLf +:+ "iTwo" +:+ CrLf, 1%Z));
           ("/list/gophermap",
            ("-secret" +:+ CrLf +:+ "iOne" +:+ CrLf +:+ "*" +:+ CrLf
               +:+ "-late" +:+ CrLf, 1%Z));
           ("/plain/gophermap",
            ("1Docs" +:+ Tab +:+ "/docs" +:+ Tab +:+ "example.org" +:+ Tab
               +:+ "70" +:+ CrLf, 1%Z));
           ("/top/gophermap",
            ("iHead" +:+ CrLf +:+ "=/sub/gophermap" +:+ CrLf +:+ "iTail"
               +:+ CrLf, 1%Z));
           ("/sub/gophermap", ("iSub" +:+ CrLf, 1%Z));
           ("/x/gophermap", ("=/y/gophermap" +:+ CrLf, 1%Z));
           ("/y/gophermap", ("=/x/gophermap" +:+ CrLf, 1%Z))] 5.

(** A gophermap that includes a gophermap and a text file and ends in a
    line without CR-LF. *)
Definition includesWorld : World :=
  worldOf [("/gophermap",
            ("iHead" +:+ CrLf +:+ "=/sub/gophermap" +:+ CrLf +:+ "=/notes.txt"
               +:+ CrLf +:+ "iLast", 1%Z));
           ("/sub/gophermap", ("iSub" +:+ CrLf, 1%Z));
           ("/notes.txt", ("one" +:+ Lf, 1%Z))] 5.

(** A gophermap whose last line has no CR-LF. *)
Definition unterminatedWorld : World :=
  worldOf [("/gophermap", ("iHello" +:+ CrLf +:+ "iWorld", 1%Z))] 5.

(** * The definitions on examples *)

Example bytesIndex_first : bytesIndex CrLf ("ab" +:+ CrLf +:+ "c" +:+ CrLf) = Some 2%nat.
Proof. reflexivity. Qed.

Example bytesIndex_absent : bytesIndex CrLf ("ab" +:+ Lf +:+ "c") = None.
Proof. reflexivity. Qed.

Example splitCrLf_token :
  splitCrLf ("ab" +:+ CrLf +:+ "cd") true = (4%nat, Some "ab").
Proof. reflexivity. Qed.

Example splitCrLf_empty_line :
  splitCrLf (CrLf +:+ "cd") true = (2%nat, Some EmptyString).
Proof. reflexivity. Qed.

Example splitCrLf_at_end : splitCrLf "cd" true = (0%nat, None).
Proof. reflexivity. Qed.

Example splitLf_token :
  splitLf ("ab" +:+ Lf +:+ "cd") true = (3%nat, Some ("ab" +:+ Lf)).
Proof. reflexivity. Qed.

Example HasSuffix_gophermap :
  HasSuffix "/dir/gophermap" "gophermap" = true
  ∧ HasSuffix "/menu" "gophermap" = false
  ∧ TrimSuffix "/dir/gophermap" "gophermap" = "/dir/".
Proof. by repeat split. Qed.

Example Replace_hostname :
  Replace "1$hostname home at $hostname" "$hostname" "example.org"
  = "1example.org home at example.org".
Proof. reflexivity. Qed.

Example listMoveToFront_moves :
  listMoveToFront 0 [{| elemId := 1; Value := "/B" |}; {| elemId := 0; Value := "/A" |}]
  = [{| elemId := 0; Value := "/A" |}; {| elemId := 1; Value := "/B" |}].
Proof. reflexivity. Qed.

Example listMoveToFront_removed_element :
  listMoveToFront 7 [{| elemId := 1; Value := "/B" |}; {| elemId := 0; Value := "/A" |}]
  = [{| elemId := 1; Value := "/B" |}; {| elemId := 0; Value := "/A" |}].
Proof. reflexivity. Qed.

(** A hit moves the path to the front: A, B, A with room for both. *)
Example Fetch_hit_moves_to_front :
  ∃ rs s',
    fetchAll [(abcWorld, "/A"); (abcWorld, "/B"); (abcWorld, "/A")]
      (initState 3 NewRegularFile) = Done (rs, s')
    ∧ listedPaths s' = ["/A"; "/B"]
    ∧ loadLog s' = [1%nat; 0%nat].
Proof.
  eexists _, _. split; [vm_compute; reflexivity|].
  split; vm_compute; reflexivity.
Qed.

(** The monitor on a cache that holds [/A], loaded at time 5 and rewritten
    at time 9. *)
Example checkCacheFreshness_flips :
  exec staleWorld checkCacheFreshness oneEntryState
  = Done (tt, mkState (<["/A" := {| FilePtr := 0; ElementPtr := 0 |}]> ∅)
                [{| elemId := 0; Value := "/A" |}] 3 NewRegularFile
                [mkFile (RegularFileContents "/A" "a") false 5] 1 [0%nat]).
Proof. reflexivity. Qed.

(** A gophermap with a plain line, a menu line and the last line: two
    sections, and the page has the info line and the menu line as it is. *)
Example readGophermap_three_lines :
  let menu := "0file.txt" +:+ Tab +:+ "/file.txt" +:+ Tab +:+ "example.org"
              +:+ Tab +:+ "70" in
  let w := worldOf [("/gophermap",
                     ("iHello" +:+ CrLf +:+ menu +:+ CrLf +:+ "." +:+ CrLf,
                      1%Z))] 5 in
  readGophermap parseLineTypeByFirstByte exampleConfig w 1 "/gophermap"
  = Ok ([GophermapText (buildInfoLine exampleConfig "iHello");
         GophermapText (menu +:+ CrLf)], None)
  ∧ GophermapContents_Render exampleConfig w
      {| gcPath := "/gophermap";
         gcSections := [GophermapText (buildInfoLine exampleConfig "iHello");
                        GophermapText (menu +:+ CrLf)] |}
    = buildInfoLine exampleConfig "iHello" +:+ menu +:+ CrLf.
Proof. split; by vm_compute. Qed.

(** A [*] line ends the scan and asks for the listing of the directory of
    the gophermap, without the hidden names. *)
Example readGophermap_listing :
  let w := worldOf [("/dir/gophermap",
                     ("-secret" +:+ CrLf +:+ "*" +:+ CrLf +:+ "ignored" +:+ CrLf,
                      1%Z))] 5 in
  readGophermap parseLineTypeByFirstByte exampleConfig w 1 "/dir/gophermap"
  = Ok ([GophermapDirListing "/dir/" (<["secret" := true]> ∅)], None).
Proof. by vm_compute. Qed.

(** A text file included into a gophermap is reflowed to the page width. *)
Example readIntoGophermap_reflow :
  let cfg := {| GophermapFileStr := "gophermap"; ReplaceStrHostname := "$hostname";
                GophermapRenderErrorStr := "error rendering"; GophorVersion := "0.5";
                ServerHostname := "h"; ServerPort := "70"; PageWidth := 3;
                Description := EmptyString; Geolocation := EmptyString;
                AdminEmail := EmptyString |} in
  let w := worldOf [("/t", ("abcde" +:+ Lf +:+ Lf, 1%Z))] 5 in
  readIntoGophermap cfg w "/t"
  = Ok (buildInfoLine cfg "abc" +:+ buildInfoLine cfg "de"
        +:+ buildInfoLine cfg EmptyString, None).
Proof. by vm_compute. Qed.

Example generateRobotsTxt_lines :
  generateRobotsTxt
  = "Usage-agent: *" +:+ CrLf +:+ "Disallow: *" +:+ CrLf +:+ CrLf
    +:+ "Crawl-delay: 99999" +:+ CrLf +:+ CrLf
    +:+ "# This server does not support scraping" +:+ CrLf.
Proof. reflexivity. Qed.

(** * [Fetch] run alone, case by case *)

Local Arguments listBack : simpl never.
Local Arguments listMoveToFront : simpl never.
Local Arguments listRemove : simpl never.
Local Arguments Z.of_nat : simpl never.

Lemma heap_new_lookup {A} (h : list A) (x : A) : (h ++ [x]) !! length h = Some x.
Proof. by rewrite list_lookup_middle. Qed.

Lemma heap_new_insert {A} (h : list A) (x y : A) :
  <[length h := y]> (h ++ [x]) = h ++ [y].
Proof.
  rewrite insert_app_r_alt by lia. by rewrite Nat.sub_diag.
Qed.

Ltac heap_norm :=
  repeat first
    [ rewrite list_insert_insert_eq
    | rewrite heap_new_insert
    | rewrite heap_new_lookup
    | rewrite list_lookup_insert_eq by (rewrite ?length_insert, ?length_app; simpl; lia) ].

Ltac run_step :=
  first
    [ progress simpl
    | progress unfold onFileMutex, withFile, onCacheMutex, acquire, release,
        setHeap, setCacheMutex, setFileList, setListMutex, setCacheMap,
        setNextElem, setLoadLog, setFileMutex, mkFile, mkState, rwFree,
        LoadContents, NewFile in *
    | progress heap_norm ].

Ltac run := repeat run_step.

Section CacheFacts.
Context `{FileContents C}.
Implicit Types (m : gmap string FileElement) (l : list Element)
  (h : list (File C)) (w : World).

Lemma Fetch_hit_fresh w m l size nf h ne log path fe c t :
  m !! path = Some fe →
  h !! FilePtr fe = Some (mkFile c true t) →
  exec w (Fetch path) (mkState m l size nf h ne log)
  = Done ((Render w c, None),
          mkState m (listMoveToFront (ElementPtr fe) l) size nf h ne log).
Proof.
  intros Hm Hh. pose proof (lookup_lt_Some _ _ _ Hh) as Hlt.
  unfold Fetch. run. rewrite Hm. run. rewrite Hh. run.
  rewrite list_insert_id by done. reflexivity.
Qed.

Lemma Fetch_hit_stale_ok w m l size nf h ne log path fe c t c' :
  m !! path = Some fe →
  h !! FilePtr fe = Some (mkFile c false t) →
  Load w c = (c', None) →
  exec w (Fetch path) (mkState m l size nf h ne log)
  = Done ((Render w c', None),
          mkState m (listMoveToFront (ElementPtr fe) l) size nf
            (<[FilePtr fe := mkFile c' true (nowNano w)]> h) ne
            (FilePtr fe :: log)).
Proof.
  intros Hm Hh HL. pose proof (lookup_lt_Some _ _ _ Hh) as Hlt.
  unfold Fetch. run. rewrite Hm. run. rewrite Hh. run. rewrite HL. run.
  reflexivity.
Qed.

Lemma Fetch_hit_stale_err w m l size nf h ne log path fe c t c' e :
  m !! path = Some fe →
  h !! FilePtr fe = Some (mkFile c false t) →
  Load w c = (c', Some e) →
  exec w (Fetch path) (mkState m l size nf h ne log)
  = Done ((EmptyString, Some e),
          mkState m l size nf (<[FilePtr fe := mkFile c' false t]> h) ne
            (FilePtr fe :: log)).
Proof.
  intros Hm Hh HL. pose proof (lookup_lt_Some _ _ _ Hh) as Hlt.
  unfold Fetch. run. rewrite Hm. run. rewrite Hh. run. rewrite HL. run.
  reflexivity.
Qed.

Lemma Fetch_miss_err w m l size nf h ne log path c' e :
  m !! path = None →
  Load w (nf path) = (c', Some e) →
  exec w (Fetch path) (mkState m l size nf h ne log)
  = Done ((EmptyString, Some e),
          mkState m l size nf (h ++ [mkFile c' false 0]) ne
            (length h :: log)).
Proof.
  intros Hm HL.
  unfold Fetch. run. rewrite Hm. run. rewrite HL. run.
  reflexivity.
Qed.

Lemma Fetch_miss_insert w m l size nf h ne log path c' :
  m !! path = None →
  Load w (nf path) = (c', None) →
  Z.of_nat (length ({| elemId := ne; Value := path |} :: l)) ≠ size →
  exec w (Fetch path) (mkState m l size nf h ne log)
  = Done ((Render w c', None),
          mkState (<[path := {| FilePtr := length h; ElementPtr := ne |}]> m)
            (listMoveToFront ne ({| elemId := ne; Value := path |} :: l))
            size nf (h ++ [mkFile c' true (nowNano w)]) (S ne)
            (length h :: log)).
Proof.
  intros Hm HL Hlen.
  unfold Fetch. run. rewrite Hm. run. rewrite HL. run.
  rewrite bool_decide_eq_false_2 by done. run.
  reflexivity.
Qed.

Lemma Fetch_miss_evict w m l size nf h ne log path c' re x cx bx tx :
  m !! path = None →
  Load w (nf path) = (c', None) →
  Z.of_nat (length ({| elemId := ne; Value := path |} :: l)) = size →
  listBack ({| elemId := ne; Value := path |} :: l) = Some re →
  <[path := {| FilePtr := length h; ElementPtr := ne |}]> m !! Value re = Some x →
  (h ++ [mkFile c' true (nowNano w)]) !! FilePtr x = Some (mkFile cx bx tx) →
  exec w (Fetch path) (mkState m l size nf h ne log)
  = Done ((Render w c', None),
          mkState
            (delete (Value re)
               (<[path := {| FilePtr := length h; ElementPtr := ne |}]> m))
            (listMoveToFront ne
               (listRemove (elemId re) ({| elemId := ne; Value := path |} :: l)))
            size nf (h ++ [mkFile c' true (nowNano w)]) (S ne)
            (length h :: log)).
Proof.
  intros Hm HL Hlen Hback Hx Hfx.
  pose proof (lookup_lt_Some _ _ _ Hfx) as Hlt.
  rewrite length_app in Hlt; simpl in Hlt.
  unfold Fetch. run. rewrite Hm. run. rewrite HL. run.
  rewrite bool_decide_eq_true_2 by done. unfold fetchEvict. run.
  rewrite Hback. run. rewrite Hx. run. rewrite Hfx. run.
  rewrite Hx. run. 
  rewrite list_insert_id by done. run.
  reflexivity.
Qed.
End CacheFacts.

(** * Facts on the list of elements *)

Lemma filter_elemId_none (id : nat) (l : list Element) :
  (∀ x, x ∈ l → elemId x ≠ id) → filter (λ x, elemId x = id) l = [].
Proof.
  induction l as [|a l IH]; intros Hall; [done|].
  rewrite filter_cons_False.
  - apply IH. intros x Hx. apply Hall. by right.
  - apply Hall. by left.
Qed.

Lemma filter_elemId_all (id : nat) (l : list Element) :
  (∀ x, x ∈ l → elemId x ≠ id) → filter (λ x, elemId x ≠ id) l = l.
Proof.
  induction l as [|a l IH]; intros Hall; [done|].
  rewrite filter_cons_True.
  - f_equal. apply IH. intros x Hx. apply Hall. by right.
  - apply Hall. by left.
Qed.

Lemma filter_elemId_singleton (e : Element) (l : list Element) :
  NoDup (elemId <$> l) → e ∈ l →
  filter (λ x, elemId x = elemId e) l = [e].
Proof.
  induction l as [|a l IH]; intros Hnd He.
  - by apply elem_of_nil in He.
  - rewrite fmap_cons in Hnd. apply NoDup_cons in Hnd as [Ha Hnd].
    apply elem_of_cons in He as [->|He].
    + rewrite filter_cons_True by done. f_equal.
      apply filter_elemId_none. intros x Hx Heq. apply Ha.
      rewrite <- Heq. apply list_elem_of_fmap. by exists x.
    + rewrite filter_cons_False; [by apply IH|].
      intros Heq. apply Ha. rewrite Heq. apply list_elem_of_fmap. by exists e.
Qed.

Lemma listRemove_elem_of (id : nat) (l : list Element) (x : Element) :
  x ∈ listRemove id l ↔ x ∈ l ∧ elemId x ≠ id.
Proof. unfold listRemove. rewrite list_elem_of_filter. tauto. Qed.

Lemma listRemove_absent (id : nat) (l : list Element) :
  (∀ x, x ∈ l → elemId x ≠ id) → listRemove id l = l.
Proof. apply filter_elemId_all. Qed.

Lemma listRemove_perm (e : Element) (l : list Element) :
  NoDup (elemId <$> l) → e ∈ l → e :: listRemove (elemId e) l ≡ₚ l.
Proof.
  intros Hnd He.
  rewrite <- (filter_app_complement (λ x, elemId x = elemId e) l) at 2.
  by rewrite filter_elemId_singleton.
Qed.

Lemma listMoveToFront_present (e : Element) (l : list Element) :
  NoDup (elemId <$> l) → e ∈ l →
  listMoveToFront (elemId e) l = e :: listRemove (elemId e) l.
Proof.
  intros Hnd He. unfold listMoveToFront.
  by rewrite filter_elemId_singleton.
Qed.

Lemma listMoveToFront_absent (id : nat) (l : list Element) :
  (∀ x, x ∈ l → elemId x ≠ id) → listMoveToFront id l = l.
Proof.
  intros Hall. unfold listMoveToFront. by rewrite filter_elemId_none.
Qed.

Lemma listMoveToFront_perm (id : nat) (l : list Element) :
  NoDup (elemId <$> l) → listMoveToFront id l ≡ₚ l.
Proof.
  intros Hnd.
  destruct (decide (id ∈ elemId <$> l)) as [Hin|Hout].
  - apply list_elem_of_fmap in Hin as (e & -> & He).
    rewrite listMoveToFront_present by done. by apply listRemove_perm.
  - rewrite listMoveToFront_absent; [done|].
    intros x Hx Heq. apply Hout. rewrite <- Heq.
    apply list_elem_of_fmap. by exists x.
Qed.

Lemma listMoveToFront_head (id : nat) (v : string) (l : list Element) :
  (∀ x, x ∈ l → elemId x ≠ id) →
  listMoveToFront id ({| elemId := id; Value := v |} :: l)
  = {| elemId := id; Value := v |} :: l.
Proof.
  intros Hall. unfold listMoveToFront, listRemove.
  rewrite filter_cons_True by done.
  rewrite filter_cons_False by (simpl; intros Hne; by apply Hne).
  by rewrite filter_elemId_all.
Qed.

(** Two elements of a list whose values are distinct are the same when
    their values are. *)
Lemma NoDup_fmap_eq {A B} (f : A → B) (l : list A) (x y : A) :
  NoDup (f <$> l) → x ∈ l → y ∈ l → f x = f y → x = y.
Proof.
  induction l as [|a l IH]; intros Hnd Hx Hy Heq.
  - by apply elem_of_nil in Hx.
  - rewrite fmap_cons in Hnd. apply NoDup_cons in Hnd as [Ha Hnd].
    apply elem_of_cons in Hx as [->|Hx]; apply elem_of_cons in Hy as [->|Hy].
    + done.
    + exfalso. apply Ha. rewrite Heq. apply list_elem_of_fmap. by exists y.
    + exfalso. apply Ha. rewrite <- Heq. apply list_elem_of_fmap. by exists x.
    + by apply IH.
Qed.

(** * The invariant of the cache between calls *)

Section Invariant.
Context {C : Type}.
Implicit Types (m : gmap string FileElement) (l : list Element)
  (h : list (File C)).

Lemma quiescent_mkState (s : State C) :
  quiescent s →
  s = mkState (CacheMap (fc s)) (FileList (fc s)) (Size (fc s))
        (NewFileFunc (fc s)) (heap s) (nextElem s) (loadLog s).
Proof.
  intros (Hc & Hl & _). destruct s as [[m cm l lm size nf] h ne log].
  simpl in *. by subst.
Qed.

Lemma cacheInv_mkState (s : State C) :
  cacheInv s →
  s = mkState (CacheMap (fc s)) (FileList (fc s)) (Size (fc s))
        (NewFileFunc (fc s)) (heap s) (nextElem s) (loadLog s).
Proof. intros [Hq _]. by apply quiescent_mkState. Qed.

Lemma cacheInv_init (size : Z) (nf : string → C) : cacheInv (initState size nf).
Proof.
  split; [|split].
  - split; [done|split; [done|]]. simpl. intros i f Hi.
    by rewrite lookup_nil in Hi.
  - split; simpl; [by rewrite dom_empty_L|constructor].
  - split; [|split; [|split]]; simpl.
    + intros path fe Hfe. by rewrite lookup_empty in Hfe.
    + constructor.
    + intros e He. by apply elem_of_nil in He.
    + intros p1 p2 fe1 fe2 Hfe. simpl in Hfe. by rewrite lookup_empty in Hfe.
Qed.

Lemma mapListAgree_lookup (s : State C) (path : string) :
  mapListAgree s →
  is_Some (CacheMap (fc s) !! path) ↔ path ∈ Value <$> FileList (fc s).
Proof.
  intros [Hdom _]. rewrite <- elem_of_dom, Hdom. apply elem_of_list_to_set.
Qed.

Lemma cacheInv_size (s : State C) :
  cacheInv s → size (CacheMap (fc s)) = length (FileList (fc s)).
Proof.
  intros (_ & [Hdom Hnd] & _).
  rewrite <- size_dom, Hdom, size_list_to_set by done.
  apply length_fmap.
Qed.

(** The log and the size are no part of the invariant. *)
Lemma cacheInv_perm m l l' size nf h ne log log' :
  l' ≡ₚ l →
  cacheInv (mkState m l size nf h ne log) →
  cacheInv (mkState m l' size nf h ne log').
Proof.
  intros Hp (Hq & [Hdom Hnd] & Hw1 & Hw2 & Hw3 & Hw4).
  split; [|split]; simpl in *.
  - exact Hq.
  - split; simpl; by rewrite Hp.
  - split; [|split; [|split]]; simpl.
    + intros path fe Hfe. rewrite Hp. by apply Hw1.
    + by rewrite Hp.
    + intros e He. rewrite Hp in He. by apply Hw3.
    + exact Hw4.
Qed.

Lemma cacheInv_heap_update m l size nf h ne log log' i c b t :
  cacheInv (mkState m l size nf h ne log) →
  cacheInv (mkState m l size nf (<[i := mkFile c b t]> h) ne log').
Proof.
  intros ((Hc & Hl & Hq) & Ha & Hw1 & Hw2 & Hw3 & Hw4).
  split; [|split]; simpl in *.
  - split; [done|split; [done|]]. simpl. intros j f Hj.
    destruct (decide (i = j)) as [->|Hne].
    + destruct (decide (j < length h)%nat).
      * rewrite list_lookup_insert_eq in Hj by done. by inversion Hj.
      * rewrite list_insert_ge in Hj by lia. by eapply Hq.
    + rewrite list_lookup_insert_ne in Hj by done. by eapply Hq.
  - exact Ha.
  - split; [|by repeat split]. simpl. intros path fe Hfe.
    rewrite length_insert. by apply Hw1.
Qed.

Lemma cacheInv_heap_app m l size nf h ne log log' c b t :
  cacheInv (mkState m l size nf h ne log) →
  cacheInv (mkState m l size nf (h ++ [mkFile c b t]) ne log').
Proof.
  intros ((Hc & Hl & Hq) & Ha & Hw1 & Hw2 & Hw3 & Hw4).
  split; [|split]; simpl in *.
  - split; [done|split; [done|]]. simpl. intros j f Hj.
    apply lookup_app_Some in Hj as [Hj|[_ Hj]]; [by eapply Hq|].
    apply list_lookup_singleton_Some in Hj as [_ <-]. done.
  - exact Ha.
  - split; [|by repeat split]. simpl. intros path fe Hfe.
    rewrite length_app. destruct (Hw1 path fe Hfe). split; [done|lia].
Qed.

Lemma cacheInv_insert m l size nf h ne log log' path c b t :
  m !! path = None →
  cacheInv (mkState m l size nf h ne log) →
  cacheInv (mkState (<[path := {| FilePtr := length h; ElementPtr := ne |}]> m)
              ({| elemId := ne; Value := path |} :: l) size nf
              (h ++ [mkFile c b t]) (S ne) log').
Proof.
  intros Hm Hinv.
  pose proof (cacheInv_heap_app m l size nf h ne log log' c b t Hinv)
    as ((Hc & Hl & Hq) & [Hdom Hnd] & Hw1 & Hw2 & Hw3 & Hw4).
  destruct Hinv as (_ & _ & Hw0 & _).
  simpl in *.
  assert (path ∉ Value <$> l) as Hpath.
  { rewrite <- (elem_of_list_to_set (C:=gset string)), <- Hdom.
    by apply not_elem_of_dom. }
  split; [|split]; simpl.
  - done.
  - split; simpl.
    + by rewrite dom_insert_L, Hdom.
    + by apply NoDup_cons.
  - split; [|split; [|split]]; simpl.
    + intros p fe Hfe. destruct (decide (path = p)) as [->|Hne].
      * rewrite lookup_insert_eq in Hfe. inversion Hfe; subst; simpl.
        split; [by left|]. rewrite length_app. simpl. lia.
      * rewrite lookup_insert_ne in Hfe by done.
        destruct (Hw1 p fe Hfe). split; [by right|done].
    + apply NoDup_cons. split; [|done].
      intros Hin. apply list_elem_of_fmap in Hin as (e & He1 & He2).
      apply Hw3 in He2. lia.
    + intros e He. apply elem_of_cons in He as [->|He]; simpl; [lia|].
      apply Hw3 in He. lia.
    + intros p1 p2 fe1 fe2 H1 H2 Heq. simpl in H1, H2.
      apply lookup_insert_Some in H1 as [[<- <-]|[Hne1 H1]];
        apply lookup_insert_Some in H2 as [[<- <-]|[Hne2 H2]].
      * done.
      * apply Hw0 in H2 as [_ Hlt]. simpl in Heq. lia.
      * apply Hw0 in H1 as [_ Hlt]. simpl in Heq. lia.
      * by apply (Hw4 p1 p2 fe1 fe2).
Qed.

Lemma cacheInv_remove m l size nf h ne log log' re :
  re ∈ l →
  cacheInv (mkState m l size nf h ne log) →
  cacheInv (mkState (delete (Value re) m) (listRemove (elemId re) l)
              size nf h ne log').
Proof.
  intros Hre (Hq & [Hdom Hnd] & Hw1 & Hw2 & Hw3 & Hw4). simpl in *.
  assert (∀ x, x ∈ l → (elemId x = elemId re ↔ x = re)) as Hid.
  { intros x Hx. split; [|by intros ->].
    by apply (NoDup_fmap_eq elemId l). }
  assert (∀ x, x ∈ l → (Value x = Value re ↔ x = re)) as Hval.
  { intros x Hx. split; [|by intros ->].
    by apply (NoDup_fmap_eq Value l). }
  split; [|split]; simpl.
  - done.
  - split; simpl.
    + rewrite dom_delete_L, Hdom. apply set_eq. intros p.
      rewrite elem_of_difference, !elem_of_list_to_set, !list_elem_of_fmap.
      rewrite not_elem_of_singleton. split.
      * intros [(x & -> & Hx) Hne]. exists x. split; [done|].
        apply listRemove_elem_of. split; [done|].
        intros Heq. apply Hne. apply Hid in Heq; [by subst|done].
      * intros (x & -> & Hx). apply listRemove_elem_of in Hx as [Hx Hne].
        split; [by exists x|].
        intros Heq. apply Hne. apply Hval in Heq; [by subst|done].
    + apply (sublist_NoDup _ (Value <$> l)); [done|].
      apply fmap_sublist, sublist_filter.
  - split; [|split; [|split]]; simpl.
    + intros p fe Hfe. apply lookup_delete_Some in Hfe as [Hne Hfe].
      destruct (Hw1 p fe Hfe) as [Hin Hlt]. split; [|done].
      apply listRemove_elem_of. split; [done|]. simpl.
      intros Heq. apply Hne.
      apply (Hid _ Hin) in Heq. by rewrite <- Heq.
    + apply (sublist_NoDup _ (elemId <$> l)); [done|].
      apply fmap_sublist, sublist_filter.
    + intros e He. apply listRemove_elem_of in He as [He _]. by apply Hw3.
    + intros p1 p2 fe1 fe2 H1 H2. simpl in H1, H2.
      apply lookup_delete_Some in H1 as [_ H1].
      apply lookup_delete_Some in H2 as [_ H2].
      by apply (Hw4 p1 p2 fe1 fe2).
Qed.
End Invariant.

(** * A call of [Fetch] between calls *)

Section FetchSequential.
Context `{FileContents C}.

Lemma heap_file_free (h : list (File C)) (i : nat) (f : File C) :
  (∀ i f, h !! i = Some f → fileMutex f = rwFree) →
  h !! i = Some f → f = mkFile (contents f) (fresh f) (lastRefresh f).
Proof.
  intros Hq Hi. apply Hq in Hi. destruct f; simpl in *. by subst.
Qed.

Lemma Fetch_sequential (w : World) (path : string) (s : State C) :
  cacheInv s →
  ∃ r s', exec w (Fetch path) s = Done (r, s')
    ∧ cacheInv s'
    ∧ Size (fc s') = Size (fc s)
    ∧ NewFileFunc (fc s') = NewFileFunc (fc s)
    ∧ (Z.of_nat (length (FileList (fc s))) < Size (fc s) →
       Z.of_nat (length (FileList (fc s'))) < Size (fc s'))
    ∧ (CacheMap (fc s) !! path = None →
       loadLog s' = length (heap s) :: loadLog s).
Proof.
  intros Hinv. destruct s as [[m cm l lm size nf] h ne log].
  assert (cm = rwFree ∧ lm = false) as [-> ->].
  { destruct Hinv as ((? & ? & _) & _). by simpl in *. }
  change (cacheInv (mkState m l size nf h ne log)) in Hinv.
  change (Build_State C _ h ne log) with (mkState m l size nf h ne log).
  pose proof Hinv as ((_ & _ & Hq) & [Hdom Hnd] & Hw1 & Hw2 & Hw3 & _).
  simpl in Hq, Hdom, Hnd, Hw1, Hw2, Hw3.
  destruct (m !! path) as [fe|] eqn:Hm.
  - (* the path is in the map *)
    destruct (Hw1 path fe Hm) as [Hin Hlt].
    destruct (lookup_lt_is_Some_2 h (FilePtr fe) Hlt) as [f Hf].
    pose proof (heap_file_free h _ f Hq Hf) as Hfile.
    assert (listMoveToFront (ElementPtr fe) l ≡ₚ l) as Hperm
      by by apply listMoveToFront_perm.
    destruct (fresh f) eqn:Hfresh.
    + rewrite Hfile in Hf.
      eexists _, _. split; [by eapply Fetch_hit_fresh|]. simpl.
      split; [by eapply cacheInv_perm|].
      rewrite (Permutation_length Hperm). repeat split; (done || congruence).
    + rewrite Hfile in Hf.
      destruct (Load w (contents f)) as [c' [e|]] eqn:HL.
      * eexists _, _. split; [by eapply Fetch_hit_stale_err|]. simpl.
        split; [by eapply cacheInv_heap_update|].
        repeat split; (done || congruence).
      * eexists _, _. split; [by eapply Fetch_hit_stale_ok|]. simpl.
        split; [eapply cacheInv_perm; [done|];
                by eapply (cacheInv_heap_update _ _ _ _ _ _ log log)|].
        rewrite (Permutation_length Hperm). repeat split; (done || congruence).
  - (* the path is not in the map *)
    destruct (Load w (nf path)) as [c' [e|]] eqn:HL.
    + eexists _, _. split; [by eapply Fetch_miss_err|]. simpl.
      split; [by eapply cacheInv_heap_app|]. done.
    + pose proof (cacheInv_insert m l size nf h ne log (length h :: log)
                    path c' true (nowNano w) Hm Hinv) as Hinv1.
      assert (∀ x, x ∈ l → elemId x ≠ ne) as Hne.
      { intros x Hx. apply Hw3 in Hx. lia. }
      destruct (decide (Z.of_nat (length ({| elemId := ne; Value := path |} :: l)) = size))
        as [Hlen|Hlen].
      * (* at capacity: the last element goes *)
        destruct (listBack ({| elemId := ne; Value := path |} :: l)) as [re|] eqn:Hback.
        2:{ unfold listBack in Hback. apply last_None in Hback. done. }
        assert (re ∈ {| elemId := ne; Value := path |} :: l) as Hre.
        { unfold listBack in Hback. by apply last_Some_elem_of. }
        pose proof Hinv1 as (_ & Ha1 & Hw1' & Hw2' & _).
        simpl in Hw1'.
        assert (is_Some (<[path:={| FilePtr := length h; ElementPtr := ne |}]> m !! Value re))
          as [x Hx].
        { apply (mapListAgree_lookup _ _ Ha1).
          by apply (list_elem_of_fmap_2 Value) in Hre. }
        destruct (Hw1' _ _ Hx) as [_ Hxlt].
        destruct (lookup_lt_is_Some_2 _ _ Hxlt) as [fx Hfx].
        pose proof Hinv1 as ((_ & _ & Hq1) & _). simpl in Hq1.
        pose proof (heap_file_free _ _ fx Hq1 Hfx) as Hfile.
        rewrite Hfile in Hfx.
        eexists _, _. split; [by eapply Fetch_miss_evict|]. simpl.
        pose proof (cacheInv_remove _ _ size nf _ _ (length h :: log)
                      (length h :: log) re Hre Hinv1) as Hinv2.
        pose proof Hinv2 as (_ & _ & _ & Hw2'' & _). simpl in Hw2''.
        assert (listMoveToFront ne (listRemove (elemId re)
                  ({| elemId := ne; Value := path |} :: l))
                ≡ₚ listRemove (elemId re) ({| elemId := ne; Value := path |} :: l))
          as Hperm by by apply listMoveToFront_perm.
        split; [by eapply cacheInv_perm|].
        split; [done|]. split; [done|]. split; [|done].
        intros _. rewrite (Permutation_length Hperm).
        pose proof (listRemove_perm re ({| elemId := ne; Value := path |} :: l)
                      Hw2' Hre) as Hp.
        apply Permutation_length in Hp. simpl in Hp. simpl in Hlen. lia.
      * eexists _, _. split; [by eapply Fetch_miss_insert|]. simpl.
        rewrite listMoveToFront_head by done.
        split; [done|]. split; [done|]. split; [done|]. split; [|done].
        simpl in Hlen |- *. lia.
Qed.
End FetchSequential.

(** * Sequences of calls *)

Section Sequences.
Context `{FileContents C}.

Lemma cacheInv_empty (s : State C) :
  cacheInv s → FileList (fc s) = [] → CacheMap (fc s) = ∅.
Proof.
  intros (_ & [Hdom _] & _) Hl. rewrite Hl in Hdom.
  by apply dom_empty_inv_L.
Qed.

Lemma fetchAll_cons (w : World) (path : string)
    (rest : list (World * string)) (s : State C) :
  fetchAll ((w, path) :: rest) s
  = match exec w (Fetch path) s with
    | Done (r, s') =>
        match fetchAll rest s' with
        | Done (rs, s'') => Done (r :: rs, s'')
        | Blocked => Blocked
        | Panicked => Panicked
        end
    | Blocked => Blocked
    | Panicked => Panicked
    end.
Proof. reflexivity. Qed.

Lemma fetchAll_sequential (reqs : list (World * string)) (s : State C) :
  cacheInv s →
  ∃ rs s', fetchAll reqs s = Done (rs, s')
    ∧ cacheInv s'
    ∧ Size (fc s') = Size (fc s)
    ∧ length rs = length reqs
    ∧ (Z.of_nat (length (FileList (fc s))) < Size (fc s) →
       Z.of_nat (length (FileList (fc s'))) < Size (fc s')).
Proof.
  revert s. induction reqs as [|[w path] reqs IH]; intros s Hinv.
  - exists [], s. simpl. split; [done|]. split; [done|]. split; [done|].
    split; done.
  - destruct (Fetch_sequential w path s Hinv)
      as (r & s1 & Hex & Hinv1 & Hsz1 & _ & Hlen1 & _).
    destruct (IH s1 Hinv1) as (rs & s2 & Hall & Hinv2 & Hsz2 & Hrs & Hlen2).
    exists (r :: rs), s2. rewrite fetchAll_cons, Hex, Hall.
    split; [done|]. split; [done|]. split; [congruence|].
    split; [simpl; by rewrite Hrs|]. intros Hlt. apply Hlen2. by apply Hlen1.
Qed.

(** With room for one path only, nothing stays in the cache and every
    call goes to the strategy. *)
Lemma fetchAll_capacity_one (reqs : list (World * string)) (s : State C) :
  cacheInv s → Size (fc s) = 1 → FileList (fc s) = [] →
  ∃ rs s', fetchAll reqs s = Done (rs, s')
    ∧ FileList (fc s') = []
    ∧ CacheMap (fc s') = ∅
    ∧ length (loadLog s') = (length (loadLog s) + length reqs)%nat.
Proof.
  revert s. induction reqs as [|[w path] reqs IH]; intros s Hinv Hsz Hl.
  - exists [], s. simpl. split; [done|]. split; [done|].
    split; [by apply cacheInv_empty|lia].
  - pose proof (cacheInv_empty s Hinv Hl) as Hm.
    destruct (Fetch_sequential w path s Hinv)
      as (r & s1 & Hex & Hinv1 & Hsz1 & _ & Hlen1 & Hlog1).
    rewrite Hm, lookup_empty in Hlog1. specialize (Hlog1 eq_refl).
    rewrite Hl, Hsz in Hlen1. specialize (Hlen1 ltac:(simpl; lia)).
    rewrite Hsz1, Hsz in Hlen1.
    assert (FileList (fc s1) = []) as Hl1.
    { destruct (FileList (fc s1)); [done|]. simpl in Hlen1. lia. }
    destruct (IH s1 Hinv1 ltac:(congruence) Hl1)
      as (rs & s2 & Hall & Hl2 & Hm2 & Hlog2).
    exists (r :: rs), s2. rewrite fetchAll_cons, Hex, Hall.
    split; [done|]. split; [done|]. split; [done|].
    rewrite Hlog2, Hlog1. simpl. lia.
Qed.
End Sequences.

(** C10 (as amended): with a capacity of at least one, every call of a
    sequence of [Fetch] calls on a cache that starts empty returns, and the
    map holds at most capacity − 1 entries afterwards, because the last
    element is evicted as soon as the list is as long as the capacity.
    With capacity one the element that goes is the one that just came: the
    map is empty after every call, and every call goes to the strategy's
    load, none is served from the cache. *)
Theorem Fetch_keeps_below_capacity `{FileContents C} (size : Z)
    (nf : string → C) (reqs : list (World * string)) :
  1 ≤ size →
  ∃ rs s', fetchAll reqs (initState size nf) = Done (rs, s')
    ∧ length rs = length reqs
    ∧ Z.of_nat (base.size (CacheMap (fc s'))) ≤ size - 1
    ∧ (size = 1 →
       CacheMap (fc s') = ∅ ∧ length (loadLog s') = length reqs).
Proof.
  intros Hsize.
  destruct (fetchAll_sequential reqs (initState size nf) (cacheInv_init size nf))
    as (rs & s' & Hall & Hinv & Hsz & Hrs & Hlen).
  exists rs, s'. split; [done|]. split; [done|]. split.
  - rewrite (cacheInv_size s' Hinv). simpl in Hsz, Hlen. rewrite Hsz in Hlen.
    specialize (Hlen ltac:(lia)). lia.
  - intros ->.
    destruct (fetchAll_capacity_one reqs (initState 1 nf) (cacheInv_init 1 nf)
                eq_refl eq_refl) as (rs' & s'' & Hall' & _ & Hm & Hlog).
    rewrite Hall in Hall'. inversion Hall'; subst. split; [done|].
    by rewrite Hlog.
Qed.

Lemma Fetch_keeps_below_capacity_witness :
  1 ≤ 2 ∧
  ∃ rs s', fetchAll [(abcWorld, "/A"); (abcWorld, "/B")]
             (initState 2 NewRegularFile) = Done (rs, s')
    ∧ length rs = 2%nat
    ∧ Z.of_nat (base.size (CacheMap (fc s'))) ≤ 2 - 1
    ∧ (2 = 1 → CacheMap (fc s') = ∅ ∧ length (loadLog s') = 2%nat).
Proof.
  split; [lia|].
  apply (Fetch_keeps_below_capacity 2 NewRegularFile
           [(abcWorld, "/A"); (abcWorld, "/B")]). lia.
Defined.

(** C10, as stated, fails for capacity zero: the list is never as long as
    the capacity after an insertion, nothing is evicted, and one call
    leaves one entry where the claim allows at most −1. *)
Lemma Fetch_capacity_zero_keeps_entry :
  ∃ s', exec abcWorld (Fetch "/A") (initState 0 NewRegularFile)
        = Done (("a", None), s')
    ∧ is_Some (CacheMap (fc s') !! "/A")
    ∧ ¬ (Z.of_nat (base.size (CacheMap (fc s'))) ≤ 0 - 1).
Proof.
  eexists. split; [vm_compute; reflexivity|].
  split; [vm_compute; by eexists|]. vm_compute. by intros Hle.
Qed.

(** * Loads under a schedule *)

Section Loads.
Context `{FileContents C}.

Lemma handle_loadLog {R} (w : World) (o : Op R) (s s' : State C) (r : R) :
  handle w o s = Done (r, s') →
  length (loadLog s') = ((if isLoad o then 1 else 0) + length (loadLog s))%nat.
Proof.
  destruct o; simpl;
    unfold onCacheMutex, onFileMutex, withFile, acquire, release;
    intros Hh; repeat case_match; simplify_eq; done.
Qed.

Lemma sum_list_insert (l : list nat) (i x y : nat) :
  l !! i = Some x → (sum_list (<[i := y]> l) + x = sum_list l + y)%nat.
Proof.
  revert i. induction l as [|a l IH]; intros [|i] Hi; simpl in *;
    simplify_eq; [lia|].
  specialize (IH i Hi). lia.
Qed.

Lemma poolStep_loads {A} (w : World) (i : nat) (pool pool' : list (Prog A))
    (s s' : State C) (bs : list nat) :
  poolStep w i pool s = Running pool' s' →
  Forall2 loadsAtMost bs pool →
  ∃ bs', Forall2 loadsAtMost bs' pool'
    ∧ (length (loadLog s') + sum_list bs' ≤ length (loadLog s) + sum_list bs)%nat.
Proof.
  unfold poolStep. intros Hstep Hall.
  destruct (pool !! i) as [[a| |R o k]|] eqn:Hi; try done.
  destruct (handle w o s) as [[r s1]| |] eqn:Hh; try done.
  simplify_eq.
  destruct (Forall2_lookup_r _ _ _ _ _ Hall Hi) as (b & Hb & Hload).
  pose proof (handle_loadLog w o s s' r Hh) as Hlog.
  simpl in Hload. destruct (isLoad o).
  - destruct b as [|n]; [done|].
    exists (<[i := n]> bs). split.
    + by apply Forall2_insert.
    + pose proof (sum_list_insert bs i (S n) n Hb). lia.
  - exists bs. split; [|lia].
    rewrite <- (list_insert_id bs i b Hb). by apply Forall2_insert.
Qed.

Lemma sched_loads {A} (w : World) (schedule : list nat)
    (pool pool' : list (Prog A)) (s s' : State C) (bs : list nat) :
  sched w schedule pool s = Running pool' s' →
  Forall2 loadsAtMost bs pool →
  (length (loadLog s') ≤ length (loadLog s) + sum_list bs)%nat.
Proof.
  revert pool s bs. induction schedule as [|i rest IH]; intros pool s bs.
  - simpl. intros ? _. simplify_eq. lia.
  - simpl. destruct (poolStep w i pool s) as [pool1 s1| |] eqn:Hstep; try done.
    intros Hrest Hall.
    destruct (poolStep_loads w i pool pool1 s s1 bs Hstep Hall)
      as (bs1 & Hall1 & Hle).
    specialize (IH pool1 s1 bs1 Hrest Hall1). lia.
Qed.

Lemma Fetch_loadsAtMost (path : string) : loadsAtMost 1 (Fetch path).
Proof.
  unfold Fetch, fetchReload, fetchServe, fetchEvict. simpl.
  repeat (intros; simpl; try case_match); done.
Qed.

Lemma Fetch_pool_budget (paths : list string) :
  Forall2 loadsAtMost ((λ _, 1%nat) <$> paths) (Fetch <$> paths)
  ∧ sum_list ((λ _, 1%nat) <$> paths) = length paths.
Proof.
  induction paths as [|p paths [IH1 IH2]]; [by split|].
  rewrite !fmap_cons. split.
  - constructor; [apply Fetch_loadsAtMost|done].
  - simpl. by rewrite IH2.
Qed.
End Loads.

(** * The cache under concurrent and repeated calls *)

(** C1 (as amended): concurrent [Fetch] calls invoke the strategy's load
    at most once per call, so N calls load at most N times in aggregate,
    under every schedule; and a [Fetch] that found the entry stale under
    the read lock swaps to the write lock and calls load-contents whatever
    the fresh flag says by then: the flag is not read again. *)
Theorem Fetch_loads_once_per_call `{FileContents C} (w : World) :
  (∀ (schedule : list nat) (paths : list string) (s s' : State C)
     (pool' : list (Prog (string * option GophorError))),
     sched w schedule (Fetch <$> paths) s = Running pool' s' →
     (length (loadLog s') ≤ length (loadLog s) + length paths)%nat)
  ∧ (∀ (fe : FileElement) (f : File C) (s : State C) (i : nat)
       (pool : list (Prog (string * option GophorError))),
       pool !! i = Some (fetchReload fe) →
       heap s !! FilePtr fe = Some f →
       fileMutex f = {| readers := 1; writer := false |} →
       ∃ pool' s', sched w [i; i; i] pool s = Running pool' s'
         ∧ loadLog s' = FilePtr fe :: loadLog s).
Proof.
  split.
  - intros schedule paths s s' pool' Hrun.
    destruct (Fetch_pool_budget paths) as [Hall Hsum].
    pose proof (sched_loads w schedule _ pool' s s' _ Hrun Hall). lia.
  - intros fe f s i pool Hi Hf Hmu.
    pose proof (lookup_lt_Some _ _ _ Hi) as Hlti.
    pose proof (lookup_lt_Some _ _ _ Hf) as Hltf.
    destruct f as [c b t mu]. simpl in Hmu. subst mu.
    unfold sched, poolStep. rewrite Hi. unfold fetchReload.
    simpl. unfold onFileMutex, withFile. rewrite Hf. simpl.
    rewrite list_lookup_insert_eq by done. simpl.
    unfold onFileMutex, withFile. simpl.
    rewrite list_lookup_insert_eq by done. simpl.
    rewrite list_insert_insert_eq.
    rewrite list_lookup_insert_eq by done. simpl.
    unfold withFile. simpl.
    rewrite list_lookup_insert_eq by (by rewrite length_insert).
    unfold LoadContents. simpl.
    destruct (Load w c) as [c' [e|]]; simpl; by eexists _, _.
Qed.

Lemma Fetch_loads_once_per_call_witness :
  ∃ s0 s1 s2,
    exec abcWorld (Fetch "/A") (initState 3 NewRegularFile)
    = Done (("a", None), s0)
    ∧ exec staleWorld checkCacheFreshness s0 = Done (tt, s1)
    ∧ sched staleWorld twoReloadsSchedule (Fetch <$> ["/A"; "/A"]) s1
      = Running [Ret ("a2", None); Ret ("a2", None)] s2
    ∧ (length (loadLog s2) ≤ length (loadLog s1) + 2)%nat
    ∧ ∃ pool' s3,
        sched staleWorld [0; 0; 0]%nat [fetchReload {| FilePtr := 0; ElementPtr := 0 |}]
          (setHeap [{| contents := RegularFileContents "/A" "a"; fresh := true;
                       lastRefresh := 5;
                       fileMutex := {| readers := 1; writer := false |} |}] s1)
        = Running pool' s3
        ∧ loadLog s3 = 0%nat :: loadLog s1.
Proof.
  eexists _, _, _. split; [vm_compute; reflexivity|].
  split; [vm_compute; reflexivity|].
  split; [vm_compute; reflexivity|].
  split.
  - eapply (proj1 (Fetch_loads_once_per_call staleWorld) twoReloadsSchedule
              ["/A"; "/A"]).
    vm_compute. reflexivity.
  - refine (proj2 (Fetch_loads_once_per_call staleWorld)
              {| FilePtr := 0; ElementPtr := 0 |}
              {| contents := RegularFileContents "/A" "a"; fresh := true;
                 lastRefresh := 5;
                 fileMutex := {| readers := 1; writer := false |} |}
              (setHeap _ _) 0%nat
              [fetchReload {| FilePtr := 0; ElementPtr := 0 |}] _ _ _);
      reflexivity.
Defined.

(** C1, as stated, fails: the entry of [/A] is in the cache and stale, two
    goroutines fetch it, both read the flag before either reloads, and the
    strategy's load runs twice. *)
Lemma Fetch_stale_loaded_twice :
  ∃ s0 s1 s2,
    exec abcWorld (Fetch "/A") (initState 3 NewRegularFile)
    = Done (("a", None), s0)
    ∧ exec staleWorld checkCacheFreshness s0 = Done (tt, s1)
    ∧ CacheMap (fc s1) !! "/A" = Some {| FilePtr := 0; ElementPtr := 0 |}
    ∧ fresh <$> heap s1 !! 0%nat = Some false
    ∧ sched staleWorld twoReloadsSchedule [Fetch "/A"; Fetch "/A"] s1
      = Running [Ret ("a2", None); Ret ("a2", None)] s2
    ∧ loadLog s2 = 0%nat :: 0%nat :: loadLog s1
    ∧ ¬ (length (loadLog s2) ≤ length (loadLog s1) + 1)%nat.
Proof.
  eexists _, _, _. split; [vm_compute; reflexivity|].
  split; [vm_compute; reflexivity|].
  split; [vm_compute; reflexivity|].
  split; [vm_compute; reflexivity|].
  split; [vm_compute; reflexivity|].
  split; [vm_compute; reflexivity|].
  vm_compute. lia.
Qed.

(** With a capacity of at least one the map never holds more entries than
    the capacity, whatever the calls. *)
Lemma fetchAll_within_capacity `{FileContents C} (size : Z) (nf : string → C)
    (reqs : list (World * string))
    (rs : list (string * option GophorError)) (s' : State C) :
  1 ≤ size →
  fetchAll reqs (initState size nf) = Done (rs, s') →
  Z.of_nat (base.size (CacheMap (fc s'))) ≤ size.
Proof.
  intros Hsize Hall.
  destruct (fetchAll_sequential reqs (initState size nf) (cacheInv_init size nf))
    as (rs1 & s1 & Hall1 & Hinv & Hsz & _ & Hlen).
  rewrite Hall in Hall1. simplify_eq.
  rewrite (cacheInv_size s1 Hinv). simpl in Hsz, Hlen. rewrite Hsz in Hlen.
  specialize (Hlen ltac:(lia)). lia.
Qed.

(** C2: with capacity zero the list is never as long as the capacity after
    an insertion, nothing is ever evicted, and the map grows with every new
    path: three entries after three calls. *)
Theorem Fetch_capacity_zero_unbounded :
  ∃ rs s',
    fetchAll [(abcWorld, "/A"); (abcWorld, "/B"); (abcWorld, "/C")]
      (initState 0 NewRegularFile) = Done (rs, s')
    ∧ size (CacheMap (fc s')) = 3%nat
    ∧ listedPaths s' = ["/C"; "/B"; "/A"]
    ∧ ¬ (Z.of_nat (size (CacheMap (fc s'))) ≤ 0).
Proof.
  eexists _, _. split; [vm_compute; reflexivity|].
  split; [vm_compute; reflexivity|].
  split; [vm_compute; reflexivity|].
  vm_compute. by intros Hle.
Qed.

(** C4: two goroutines fetch the path [/A], which is not in the map.  Both
    look it up before either inserts it; the map is not looked at again
    under the write lock, so the path is pushed on the list twice.  After
    both have returned and all locks are free, the list holds [/A] twice
    and the map once.  The next eviction removes [/A] from the map while
    one element of the list still names it, and the eviction after that
    dereferences the nil entry of that path: the process panics. *)
Theorem Fetch_concurrent_misses_break_list :
  ∃ s1 s2,
    sched abcWorld twoMissesSchedule [Fetch "/A"; Fetch "/A"]
      (initState 3 NewRegularFile)
    = Running [Ret ("a", None); Ret ("a", None)] s1
    ∧ CacheMutex (fc s1) = rwFree ∧ ListMutex (fc s1) = false
    ∧ fileMutex <$> heap s1 = [rwFree; rwFree]
    ∧ cachedPaths s1 = ["/A"]
    ∧ listedPaths s1 = ["/A"; "/A"]
    ∧ ¬ mapListAgree s1
    ∧ exec abcWorld (Fetch "/B") s1 = Done (("b", None), s2)
    ∧ cachedPaths s2 = ["/B"]
    ∧ listedPaths s2 = ["/B"; "/A"]
    ∧ exec abcWorld (Fetch "/C") s2 = Panicked.
Proof.
  eexists _, _. split; [vm_compute; reflexivity|].
  split; [vm_compute; reflexivity|].
  split; [vm_compute; reflexivity|].
  split; [vm_compute; reflexivity|].
  split; [vm_compute; reflexivity|].
  split; [vm_compute; reflexivity|].
  split.
  { intros [_ Hnd]. vm_compute in Hnd.
    apply NoDup_cons in Hnd as [Hnd _]. apply Hnd. by left. }
  split; [vm_compute; reflexivity|].
  split; [vm_compute; reflexivity|].
  split; [vm_compute; reflexivity|].
  vm_compute. reflexivity.
Qed.

(** * The scenario A, B, A, C *)

Section Scenario.
Context `{FileContents C}.
Implicit Types (h : list (File C)) (w : World).

(** The first successful call on an empty cache of capacity two. *)
Lemma Fetch_capacity_two_first w nf path r s' :
  exec w (Fetch path) (initState 2 nf) = Done (r, s') → r.2 = None →
  ∃ c', s' = mkState {[path := {| FilePtr := 0; ElementPtr := 0 |}]}
               [{| elemId := 0; Value := path |}] 2 nf
               ([] ++ [mkFile c' true (nowNano w)]) 1 [0%nat].
Proof.
  change (initState 2 nf) with (mkState ∅ [] 2 nf [] 0 []).
  intros Hex Hr. destruct (Load w (nf path)) as [c' [e|]] eqn:HL.
  - rewrite (Fetch_miss_err w ∅ [] 2 nf [] 0 [] path c' e) in Hex by done.
    by simplify_eq.
  - rewrite (Fetch_miss_insert w ∅ [] 2 nf [] 0 [] path c') in Hex by done.
    simplify_eq. exists c'. rewrite listMoveToFront_head; [done|].
    intros x Hx. by apply elem_of_nil in Hx.
Qed.

(** A successful call for another path on a cache of capacity two that
    holds one path: the new path takes the place of the old. *)
Lemma Fetch_capacity_two_next w nf h ne log p0 f0 e0 c0 b0 t0 path r s' :
  h !! f0 = Some (mkFile c0 b0 t0) → (e0 < ne)%nat → path ≠ p0 →
  exec w (Fetch path)
    (mkState {[p0 := {| FilePtr := f0; ElementPtr := e0 |}]}
       [{| elemId := e0; Value := p0 |}] 2 nf h ne log) = Done (r, s') →
  r.2 = None →
  ∃ c', s' = mkState {[path := {| FilePtr := length h; ElementPtr := ne |}]}
               [{| elemId := ne; Value := path |}] 2 nf
               (h ++ [mkFile c' true (nowNano w)]) (S ne) (length h :: log).
Proof.
  intros Hf He Hne Hex Hr.
  assert (({[p0 := {| FilePtr := f0; ElementPtr := e0 |}]}
             : gmap string FileElement) !! path = None) as Hm
    by by apply lookup_singleton_ne.
  destruct (Load w (nf path)) as [c' [e|]] eqn:HL.
  - rewrite (Fetch_miss_err w _ _ 2 nf h ne log path c' e Hm HL) in Hex.
    by simplify_eq.
  - rewrite (Fetch_miss_evict w _ _ 2 nf h ne log path c'
               {| elemId := e0; Value := p0 |}
               {| FilePtr := f0; ElementPtr := e0 |} c0 b0 t0 Hm HL) in Hex.
    + simplify_eq. exists c'. f_equal.
      * simpl. rewrite delete_insert_ne by done.
        by rewrite delete_singleton_eq.
      * simpl. unfold listRemove.
        rewrite filter_cons_True by (simpl; lia).
        rewrite filter_cons_False by (simpl; intros Hx; by apply Hx).
        rewrite filter_nil. apply listMoveToFront_head.
        intros x Hx. by apply elem_of_nil in Hx.
    + reflexivity.
    + reflexivity.
    + simpl. rewrite lookup_insert_ne by done. apply lookup_singleton_eq.
    + simpl. rewrite lookup_app_l; [done|by eapply lookup_lt_Some].
Qed.
End Scenario.

(** C3 (as amended): on a cache of capacity two that starts empty, after
    the four calls for A, B, A, C have returned without error, the path C,
    the one fetched last, is in the map and at the front of the list, and
    B is not in the map any more. *)
Theorem Fetch_ABAC_capacity_two `{FileContents C} (nf : string → C)
    (w1 w2 w3 w4 : World) (a b c : string)
    (rs : list (string * option GophorError)) (s' : State C) :
  a ≠ b → a ≠ c → b ≠ c →
  fetchAll [(w1, a); (w2, b); (w3, a); (w4, c)] (initState 2 nf)
  = Done (rs, s') →
  Forall (λ r, r.2 = None) rs →
  is_Some (CacheMap (fc s') !! c)
  ∧ head (listedPaths s') = Some c
  ∧ CacheMap (fc s') !! b = None.
Proof.
  intros Hab Hac Hbc Hall Hok.
  rewrite fetchAll_cons in Hall.
  destruct (exec w1 (Fetch a) (initState 2 nf)) as [[r1 s1]| |] eqn:H1;
    [|done..].
  rewrite fetchAll_cons in Hall.
  destruct (exec w2 (Fetch b) s1) as [[r2 s2]| |] eqn:H2; [|done..].
  rewrite fetchAll_cons in Hall.
  destruct (exec w3 (Fetch a) s2) as [[r3 s3]| |] eqn:H3; [|done..].
  rewrite fetchAll_cons in Hall.
  destruct (exec w4 (Fetch c) s3) as [[r4 s4]| |] eqn:H4; [|done..].
  simpl in Hall. simplify_eq.
  apply Forall_cons in Hok as [Hr1 Hok].
  apply Forall_cons in Hok as [Hr2 Hok].
  apply Forall_cons in Hok as [Hr3 Hok].
  apply Forall_cons in Hok as [Hr4 _].
  destruct (Fetch_capacity_two_first w1 nf a r1 s1 H1 Hr1) as [c1 ->].
  eapply Fetch_capacity_two_next in H2 as [c2 ->];
    [|apply (heap_new_lookup [])|lia|done|done].
  eapply Fetch_capacity_two_next in H3 as [c3 ->];
    [|apply heap_new_lookup|lia|done|done].
  eapply Fetch_capacity_two_next in H4 as [c4 ->];
    [|apply heap_new_lookup|lia|done|done].
  simpl. split; [|split].
  - rewrite lookup_singleton_eq. by eexists.
  - done.
  - by apply lookup_singleton_ne.
Qed.

Lemma Fetch_ABAC_capacity_two_witness :
  "/A" ≠ "/B" ∧ "/A" ≠ "/C" ∧ "/B" ≠ "/C"
  ∧ ∃ rs s',
      fetchAll [(abcWorld, "/A"); (abcWorld, "/B"); (abcWorld, "/A");
                (abcWorld, "/C")] (initState 2 NewRegularFile) = Done (rs, s')
      ∧ Forall (λ r, r.2 = None) rs
      ∧ is_Some (CacheMap (fc s') !! "/C")
      ∧ head (listedPaths s') = Some "/C"
      ∧ CacheMap (fc s') !! "/B" = None.
Proof.
  split; [done|]. split; [done|]. split; [done|].
  eexists _, _. split; [vm_compute; reflexivity|].
  split; [repeat constructor|].
  eapply (Fetch_ABAC_capacity_two NewRegularFile abcWorld abcWorld abcWorld
            abcWorld "/A" "/B" "/C"); [done..| |].
  - vm_compute. reflexivity.
  - repeat constructor.
Defined.

(** C3, as stated, fails: after the calls for A, B, A, C the map holds C
    alone and C is the front of the list; A is neither in the map nor at
    the front. *)
Lemma Fetch_ABAC_leaves_C_alone :
  ∃ rs s',
    fetchAll [(abcWorld, "/A"); (abcWorld, "/B"); (abcWorld, "/A");
              (abcWorld, "/C")]
      (initState 2 NewRegularFile) = Done (rs, s')
    ∧ rs = [("a", None); ("b", None); ("a", None); ("c", None)]
    ∧ cachedPaths s' = ["/C"]
    ∧ listedPaths s' = ["/C"]
    ∧ CacheMap (fc s') !! "/A" = None
    ∧ head (listedPaths s') ≠ Some "/A".
Proof.
  eexists _, _. split; [vm_compute; reflexivity|].
  repeat split; by vm_compute.
Qed.

(** * The freshness monitor *)

Section Monitor.
Context `{FileContents C}.
Implicit Types (m : gmap string FileElement) (l : list Element)
  (h : list (File C)) (w : World).

Lemma exec_bind {A B} w (p : Prog A) (k : A → Prog B) (s : State C) :
  exec w (bind p k) s
  = match exec w p s with
    | Done (a, s') => exec w (k a) s'
    | Blocked => Blocked
    | Panicked => Panicked
    end.
Proof.
  revert s. induction p as [a| |R o k' IH]; intros s; simpl; [done..|].
  destruct (handle w o s) as [[r s']| |]; [|done..]. apply IH.
Qed.

Lemma forEach_cons (x : string) (rest : list string)
    (body : string → Prog unit) :
  forEach (x :: rest) body = bind (body x) (λ _, forEach rest body).
Proof. reflexivity. Qed.

Lemma exec_CacheRLock {A} w (k : unit → Prog A) m l size nf h ne log :
  exec w (Vis CacheRLock k) (mkState m l size nf h ne log)
  = exec w (k tt) (monitoring m l size nf h ne log).
Proof. reflexivity. Qed.

Lemma exec_MapKeys {A} w (k : list string → Prog A) m l size nf h ne log :
  exec w (Vis MapKeys k) (monitoring m l size nf h ne log)
  = exec w (k (map_to_list m).*1) (monitoring m l size nf h ne log).
Proof. reflexivity. Qed.

Lemma checkEntry_exec w m l size nf h ne log path fe f :
  m !! path = Some fe →
  h !! FilePtr fe = Some f →
  fileMutex f = rwFree →
  exec w (checkEntry path) (monitoring m l size nf h ne log)
  = Done (tt, monitoring m l size nf
                (<[FilePtr fe := if staleOnDisk w path f then SetUnfresh f else f]> h)
                ne log).
Proof.
  intros Hm Hf Hmu. pose proof (lookup_lt_Some _ _ _ Hf) as Hlt.
  destruct f as [c b t mu]. simpl in Hmu. subst mu.
  unfold checkEntry, staleOnDisk, monitoring. run.
  destruct (statModTime w path) as [tm|]; run.
  - rewrite Hm. run. rewrite Hf. run.
    destruct b; run.
    + case_bool_decide; run; reflexivity.
    + reflexivity.
  - by rewrite list_insert_id.
Qed.

Lemma sweepFiles_length w m paths h :
  length (sweepFiles w m paths h) = length h.
Proof.
  revert h. induction paths as [|p paths IH]; intros h; [done|].
  simpl. rewrite IH. repeat case_match; by rewrite ?length_insert.
Qed.

Lemma sweepFiles_free w m paths h :
  (∀ i f, h !! i = Some f → fileMutex f = rwFree) →
  ∀ i f, sweepFiles w m paths h !! i = Some f → fileMutex f = rwFree.
Proof.
  revert h. induction paths as [|p paths IH]; intros h Hq; [done|].
  simpl. apply IH. destruct (m !! p) as [fe|]; [|done].
  destruct (h !! FilePtr fe) as [f|] eqn:Hf; [|done].
  intros i g Hg. destruct (decide (FilePtr fe = i)) as [<-|Hne].
  - rewrite list_lookup_insert_eq in Hg by by eapply lookup_lt_Some.
    simplify_eq. pose proof (Hq _ _ Hf). by destruct (staleOnDisk w p f).
  - rewrite list_lookup_insert_ne in Hg by done. by eapply Hq.
Qed.

Lemma sweepFiles_other w m paths h i :
  (∀ p fe, p ∈ paths → m !! p = Some fe → FilePtr fe ≠ i) →
  sweepFiles w m paths h !! i = h !! i.
Proof.
  revert h. induction paths as [|p paths IH]; intros h Hne; [done|].
  simpl. rewrite IH.
  - destruct (m !! p) as [fe|] eqn:Hm; [|done].
    destruct (h !! FilePtr fe); [|done].
    rewrite list_lookup_insert_ne; [done|]. eapply Hne; [by left|done].
  - intros q fe Hq. apply Hne. by right.
Qed.

Lemma sweepFiles_entry w m paths h path fe f :
  NoDup paths →
  (∀ p1 p2 fe1 fe2, m !! p1 = Some fe1 → m !! p2 = Some fe2 →
     FilePtr fe1 = FilePtr fe2 → p1 = p2) →
  path ∈ paths → m !! path = Some fe → h !! FilePtr fe = Some f →
  sweepFiles w m paths h !! FilePtr fe
  = Some (if staleOnDisk w path f then SetUnfresh f else f).
Proof.
  intros Hnd Hdist. revert h.
  induction paths as [|p paths IH]; intros h Hin Hm Hf.
  - by apply elem_of_nil in Hin.
  - apply NoDup_cons in Hnd as [Hp Hnd].
    apply elem_of_cons in Hin as [<-|Hin].
    + simpl. rewrite Hm, Hf. rewrite sweepFiles_other.
      * rewrite list_lookup_insert_eq; [done|by eapply lookup_lt_Some].
      * intros q fe' Hq Hm' Heq. apply Hp.
        by rewrite (Hdist _ _ _ _ Hm Hm' (eq_sym Heq)).
    + simpl. apply IH; [done..|].
      destruct (m !! p) as [fe'|] eqn:Hm'; [|done].
      destruct (h !! FilePtr fe') as [f'|]; [|done].
      rewrite list_lookup_insert_ne; [done|].
      intros Heq. apply Hp. by rewrite (Hdist _ _ _ _ Hm' Hm Heq).
Qed.

Lemma forEach_checkEntry_exec w m l size nf ne log paths h :
  (∀ p, p ∈ paths → ∃ fe, m !! p = Some fe ∧ (FilePtr fe < length h)%nat) →
  (∀ i f, h !! i = Some f → fileMutex f = rwFree) →
  exec w (forEach paths checkEntry) (monitoring m l size nf h ne log)
  = Done (tt, monitoring m l size nf (sweepFiles w m paths h) ne log).
Proof.
  revert h. induction paths as [|p paths IH]; intros h Hin Hq; [done|].
  destruct (Hin p ltac:(by left)) as (fe & Hm & Hlt).
  destruct (lookup_lt_is_Some_2 h _ Hlt) as [f Hf].
  rewrite forEach_cons, exec_bind.
  rewrite (checkEntry_exec w m l size nf h ne log p fe f Hm Hf (Hq _ _ Hf)).
  rewrite IH.
  - simpl. by rewrite Hm, Hf.
  - intros q Hqin. destruct (Hin q ltac:(by right)) as (fe' & Hm' & Hlt').
    exists fe'. split; [done|]. by rewrite length_insert.
  - intros i g Hg. destruct (decide (FilePtr fe = i)) as [<-|Hne].
    + rewrite list_lookup_insert_eq in Hg by done. simplify_eq.
      pose proof (Hq _ _ Hf). by destruct (staleOnDisk w p f).
    + rewrite list_lookup_insert_ne in Hg by done. by eapply Hq.
Qed.

Lemma checkCacheFreshness_exec w m l size nf h ne log :
  (∀ p fe, m !! p = Some fe → (FilePtr fe < length h)%nat) →
  (∀ i f, h !! i = Some f → fileMutex f = rwFree) →
  exec w checkCacheFreshness (mkState m l size nf h ne log)
  = Done (tt, mkState m l size nf
                (sweepFiles w m (map_to_list m).*1 h) ne log).
Proof.
  intros Hptr Hq. unfold checkCacheFreshness.
  rewrite exec_CacheRLock, exec_MapKeys.
  rewrite exec_bind, forEach_checkEntry_exec; [done| |done].
  intros p Hp. apply list_elem_of_fmap in Hp as ([p' fe] & -> & Hp).
  apply elem_of_map_to_list in Hp. exists fe. split; [done|].
  by eapply Hptr.
Qed.
End Monitor.

(** C5: one iteration of the freshness monitor over a cache whose locks
    are free returns; it clears the fresh flag of an entry exactly when the
    path can be stat'ed, the entry was fresh and the modification time on
    disk in nanoseconds is strictly greater than the last-refresh timestamp
    of the entry, and touches nothing else of the file; the map, the list
    and the locks are as before (no entry is removed), load is never
    called, and an entry whose path cannot be stat'ed is left as it was. *)
Theorem checkCacheFreshness_flips_stale `{FileContents C} (w : World)
    (s : State C) :
  quiescent s →
  (∀ path fe, CacheMap (fc s) !! path = Some fe →
     is_Some (heap s !! FilePtr fe)) →
  filesDistinct s →
  ∃ s', exec w checkCacheFreshness s = Done (tt, s')
    ∧ fc s' = fc s
    ∧ loadLog s' = loadLog s
    ∧ length (heap s') = length (heap s)
    ∧ ∀ path fe f,
        CacheMap (fc s) !! path = Some fe → heap s !! FilePtr fe = Some f →
        heap s' !! FilePtr fe
        = Some (if staleOnDisk w path f then SetUnfresh f else f).
Proof.
  intros Hquiet Hptr Hdist. rewrite (quiescent_mkState s Hquiet).
  destruct Hquiet as (_ & _ & Hq).
  eexists. split.
  - apply checkCacheFreshness_exec; [|done].
    intros p fe Hp. by apply lookup_lt_is_Some, (Hptr p).
  - simpl. split; [done|]. split; [done|].
    split; [apply sweepFiles_length|].
    intros path fe f Hm Hf. apply sweepFiles_entry; [|done| |done..].
    + apply NoDup_fst_map_to_list.
    + apply list_elem_of_fmap. exists (path, fe). split; [done|].
      by apply elem_of_map_to_list.
Qed.

Lemma checkCacheFreshness_flips_stale_witness :
  quiescent oneEntryState
  ∧ filesDistinct oneEntryState
  ∧ ∃ s', exec staleWorld checkCacheFreshness oneEntryState = Done (tt, s')
    ∧ fc s' = fc oneEntryState
    ∧ loadLog s' = loadLog oneEntryState
    ∧ length (heap s') = length (heap oneEntryState)
    ∧ ∀ path fe f,
        CacheMap (fc oneEntryState) !! path = Some fe →
        heap oneEntryState !! FilePtr fe = Some f →
        heap s' !! FilePtr fe
        = Some (if staleOnDisk staleWorld path f then SetUnfresh f else f).
Proof.
  assert (cacheInv oneEntryState) as (Hquiet & _ & Hw1 & _ & _ & Hdist).
  { apply (cacheInv_insert ∅ [] 3 NewRegularFile [] 0 [] [0%nat] "/A"
             (RegularFileContents "/A" "a") true 5 (lookup_empty _)).
    apply (cacheInv_init 3 NewRegularFile). }
  split; [exact Hquiet|]. split; [exact Hdist|].
  apply (checkCacheFreshness_flips_stale staleWorld oneEntryState Hquiet);
    [|exact Hdist].
  intros path fe Hfe. apply lookup_lt_is_Some. by apply (Hw1 path fe).
Defined.

(** * Policy files *)

Lemma append_nil_r (s : string) : s +:+ EmptyString = s.
Proof.
  induction s as [|c s IH]; [done|].
  change (String c (s +:+ EmptyString) = String c s). by rewrite IH.
Qed.

Lemma append_assoc (a b c : string) : (a +:+ b) +:+ c = a +:+ b +:+ c.
Proof.
  induction a as [|x a IH]; [done|].
  change (String x ((a +:+ b) +:+ c) = String x (a +:+ b +:+ c)).
  by rewrite IH.
Qed.

Lemma generateCapsTxt_prefix (cfg : ServerConfig) :
  String.prefix ("CAPS" +:+ CrLf +:+ CrLf) (generateCapsTxt cfg) = true.
Proof. reflexivity. Qed.

Lemma generateCapsTxt_CapsVersion (cfg : ServerConfig) :
  ∃ pre post,
    generateCapsTxt cfg = pre +:+ CrLf +:+ "CapsVersion=1" +:+ CrLf +:+ post.
Proof.
  exists ("CAPS" +:+ CrLf +:+ CrLf +:+ "# This is an automatically generated"
          +:+ CrLf +:+ "# server policy file: caps.txt" +:+ CrLf).
  eexists. unfold generateCapsTxt. cbv [DOSLineEnd].
  rewrite !append_assoc. reflexivity.
Qed.

(** C9 (as amended): when [/caps.txt] cannot be stat'ed at start-up, the
    policy bootstrap of a freshly started server puts a generated,
    in-memory entry for it into the cache, marked fresh; a [Fetch] of
    [/caps.txt] afterwards returns the generated bytes from memory, without
    any load, and these begin with [CAPS] and an empty line and contain the
    line [CapsVersion=1]. *)
Theorem caps_txt_served_from_memory (cfg : ServerConfig) (w0 w : World)
    (size : Z) :
  statModTime w0 "/caps.txt" = None →
  let s0 := cachePolicyFiles cfg w0 (initState size NewRegularFile) in
  (∃ fe, CacheMap (fc s0) !! "/caps.txt" = Some fe
     ∧ heap s0 !! FilePtr fe
       = Some (mkFile (GeneratedFileContents (generateCapsTxt cfg)) true
                 (nowNano w0)))
  ∧ (∃ s', exec w (Fetch "/caps.txt") s0
           = Done ((generateCapsTxt cfg, None), s')
       ∧ loadLog s' = loadLog s0)
  ∧ String.prefix ("CAPS" +:+ CrLf +:+ CrLf) (generateCapsTxt cfg) = true
  ∧ ∃ pre post,
      generateCapsTxt cfg = pre +:+ CrLf +:+ "CapsVersion=1" +:+ CrLf +:+ post.
Proof.
  intros Hstat s0.
  assert (∃ m l h ne,
            s0 = mkState m l size NewRegularFile h ne []
            ∧ m !! "/caps.txt" = Some {| FilePtr := 0; ElementPtr := 0 |}
            ∧ h !! 0%nat
              = Some (mkFile (GeneratedFileContents (generateCapsTxt cfg)) true
                        (nowNano w0)))
    as (m & l & h & ne & Hs0 & Hm & Hh).
  { subst s0. unfold cachePolicyFiles, cachePolicyFile. rewrite Hstat.
    destruct (statModTime w0 "/robots.txt").
    - eexists _, _, _, _. split; [reflexivity|].
      split; [apply lookup_insert_eq|reflexivity].
    - eexists _, _, _, _. split; [reflexivity|].
      split; [|reflexivity].
      rewrite lookup_insert_ne by done. apply lookup_insert_eq. }
  rewrite Hs0. split; [|split; [|split]].
  - eexists. split; [exact Hm|exact Hh].
  - eexists. split.
    + rewrite (Fetch_hit_fresh w m l size NewRegularFile h ne [] "/caps.txt"
                 _ _ _ Hm Hh).
      reflexivity.
    + reflexivity.
  - apply generateCapsTxt_prefix.
  - apply generateCapsTxt_CapsVersion.
Qed.

Lemma caps_txt_served_from_memory_witness :
  statModTime emptyWorld "/caps.txt" = None
  ∧ let s0 := cachePolicyFiles exampleConfig emptyWorld
                (initState 10 NewRegularFile) in
    (∃ fe, CacheMap (fc s0) !! "/caps.txt" = Some fe
       ∧ heap s0 !! FilePtr fe
         = Some (mkFile (GeneratedFileContents (generateCapsTxt exampleConfig))
                   true (nowNano emptyWorld)))
    ∧ (∃ s', exec abcWorld (Fetch "/caps.txt") s0
             = Done ((generateCapsTxt exampleConfig, None), s')
         ∧ loadLog s' = loadLog s0)
    ∧ String.prefix ("CAPS" +:+ CrLf +:+ CrLf) (generateCapsTxt exampleConfig)
      = true
    ∧ ∃ pre post,
        generateCapsTxt exampleConfig
        = pre +:+ CrLf +:+ "CapsVersion=1" +:+ CrLf +:+ post.
Proof.
  split; [reflexivity|].
  apply (caps_txt_served_from_memory exampleConfig emptyWorld abcWorld 10).
  reflexivity.
Defined.

(** C9, as stated, fails when the server root has a [caps.txt] of its own:
    the bootstrap installs nothing for it, and [Fetch] loads the file from
    disk and returns its bytes, which need not begin with [CAPS]. *)
Lemma caps_txt_on_disk_served_from_disk :
  let s0 := cachePolicyFiles exampleConfig capsOnDiskWorld
              (initState 10 NewRegularFile) in
  CacheMap (fc s0) !! "/caps.txt" = None
  ∧ ∃ s', exec capsOnDiskWorld (Fetch "/caps.txt") s0
          = Done (("my own caps", None), s')
      ∧ heap s' !! 1%nat
        = Some (mkFile (RegularFileContents "/caps.txt" "my own caps") true 5)
      ∧ loadLog s' = [1%nat]
      ∧ String.prefix ("CAPS" +:+ CrLf +:+ CrLf) "my own caps" = false.
Proof.
  split; [vm_compute; reflexivity|].
  eexists. split; [vm_compute; reflexivity|].
  split; [vm_compute; reflexivity|].
  split; [vm_compute; reflexivity|].
  vm_compute. reflexivity.
Qed.

(** * Facts on strings *)

Lemma append_cons (c : ascii) (a b : string) :
  String c a +:+ b = String c (a +:+ b).
Proof. reflexivity. Qed.

Lemma append_nil_l (b : string) : EmptyString +:+ b = b.
Proof. reflexivity. Qed.

Lemma length_append (a b : string) :
  String.length (a +:+ b) = (String.length a + String.length b)%nat.
Proof.
  induction a as [|c a IH]; [done|].
  rewrite append_cons. simpl. by rewrite IH.
Qed.

Lemma strTake_append (a b : string) : strTake (String.length a) (a +:+ b) = a.
Proof.
  induction a as [|c a IH]; [by destruct b|].
  rewrite append_cons. simpl. by rewrite IH.
Qed.

Lemma strDrop_append (a b : string) : strDrop (String.length a) (a +:+ b) = b.
Proof.
  induction a as [|c a IH]; [done|].
  rewrite append_cons. simpl. by rewrite IH.
Qed.

Lemma strDrop_add (n k : nat) (s : string) :
  strDrop (n + k) s = strDrop k (strDrop n s).
Proof.
  revert s. induction n as [|n IH]; intros s; [done|].
  destruct s as [|c s]; simpl; [by destruct k|]. apply IH.
Qed.

Lemma bytesIndex_unfold (sep data : string) :
  bytesIndex sep data
  = if String.prefix sep data then Some O
    else match data with
         | EmptyString => None
         | String _ t => S <$> bytesIndex sep t
         end.
Proof. by destruct data. Qed.

Lemma prefix_cons (a b : ascii) (s1 s2 : string) :
  String.prefix (String a s1) (String b s2)
  = if ascii_dec a b then String.prefix s1 s2 else false.
Proof. reflexivity. Qed.

Lemma prefix_CrLf_cons (c : ascii) (t rest : string) :
  String.prefix CrLf (String c t) = false →
  String.prefix CrLf (String c (t +:+ CrLf +:+ rest)) = false.
Proof.
  unfold CrLf. rewrite !prefix_cons.
  destruct (ascii_dec "013" c) as [_|]; [|done].
  destruct t as [|d t].
  - intros _. rewrite append_nil_l, !append_cons. reflexivity.
  - rewrite append_cons, !prefix_cons.
    destruct (ascii_dec "010" d); [by destruct t|done].
Qed.

(** The first CR-LF of a line without one, followed by CR-LF, is at the end
    of the line. *)
Lemma bytesIndex_line (line rest : string) :
  bytesIndex CrLf line = None →
  bytesIndex CrLf (line +:+ CrLf +:+ rest) = Some (String.length line).
Proof.
  induction line as [|c t IH]; intros Hnone; [by destruct rest|].
  rewrite bytesIndex_unfold in Hnone.
  destruct (String.prefix CrLf (String c t)) eqn:Hpre; [done|].
  destruct (bytesIndex CrLf t) eqn:Ht; [done|].
  rewrite append_cons, bytesIndex_unfold, (prefix_CrLf_cons _ _ _ Hpre).
  by rewrite IH.
Qed.

Lemma splitCrLf_line (line rest : string) :
  bytesIndex CrLf line = None →
  splitCrLf (line +:+ CrLf +:+ rest) true
  = ((String.length line + 2)%nat, Some line).
Proof.
  intros Hnone. unfold splitCrLf.
  rewrite length_append, (bytesIndex_line _ _ Hnone), strTake_append.
  replace (String.length line + String.length (CrLf +:+ rest) =? 0)%nat
    with false; [done|].
  symmetry. apply Nat.eqb_neq. unfold CrLf. rewrite !append_cons. simpl. lia.
Qed.

Lemma splitCrLf_tail (tail : string) :
  bytesIndex CrLf tail = None → splitCrLf tail true = (O, None).
Proof.
  intros Hnone. unfold splitCrLf. rewrite Hnone. by case_match.
Qed.

Lemma joinCrLf_cons (line : string) (lines : list string) :
  joinCrLf (line :: lines) = line +:+ CrLf +:+ joinCrLf lines.
Proof. reflexivity. Qed.

Lemma length_joinCrLf (lines : list string) :
  (length lines ≤ String.length (joinCrLf lines))%nat.
Proof.
  induction lines as [|l lines IH]; [done|].
  rewrite joinCrLf_cons, !length_append. simpl. lia.
Qed.

(** The scanner on a source of CR-LF terminated lines calls the iterator
    on these lines and drops what follows the last CR-LF. *)
Lemma scanLoop_lines {St} (iterator : string → St → Res (St * bool))
    (lines : list string) (tail : string) (fuel : nat) (st : St) :
  Forall (λ l, bytesIndex CrLf l = None) lines →
  bytesIndex CrLf tail = None →
  (length lines < fuel)%nat →
  scanLoop fuel splitCrLf iterator (joinCrLf lines +:+ tail) st
  = runLines iterator lines st.
Proof.
  intros Hlines Htail. revert fuel st.
  induction Hlines as [|l lines Hl Hlines IH]; intros fuel st Hfuel.
  - destruct fuel as [|n]; [simpl in Hfuel; lia|].
    simpl. by rewrite splitCrLf_tail.
  - destruct fuel as [|n]; [simpl in Hfuel; lia|].
    rewrite joinCrLf_cons, !append_assoc. simpl.
    rewrite (splitCrLf_line _ _ Hl).
    destruct (iterator l st) as [[st' [|]]| |]; [|done..].
    rewrite strDrop_add, strDrop_append.
    change (strDrop 2 (CrLf +:+ ?x)) with x.
    apply IH. simpl in Hfuel. lia.
Qed.

Lemma bufferedScan_lines {St} (w : World) (path : string)
    (iterator : string → St → Res (St * bool))
    (lines : list string) (tail : string) (st : St) :
  readFile w path = Some (joinCrLf lines +:+ tail) →
  Forall (λ l, bytesIndex CrLf l = None) lines →
  bytesIndex CrLf tail = None →
  bufferedScan w path splitCrLf iterator st
  = match runLines iterator lines st with
    | Ok st' => Ok (st', None)
    | OutOfFuel => OutOfFuel
    | GoPanic => GoPanic
    end.
Proof.
  intros Hfile Hlines Htail. unfold bufferedScan. rewrite Hfile.
  rewrite scanLoop_lines; [done..|].
  rewrite length_append. pose proof (length_joinCrLf lines). lia.
Qed.

(** * Rendering *)

Lemma Render_fold (cfg : ServerConfig) (w : World)
    (l : list GophermapSection) (acc : string) :
  fold_left
    (λ returnContents line,
       let (content, gophorErr) := GophermapSection_Render w line in
       let content :=
         match gophorErr with
         | Some _ => buildInfoLine cfg (GophermapRenderErrorStr cfg)
         | None => content
         end in
       returnContents +:+ content) l acc
  = acc +:+ foldr (λ s rest, sectionBytes cfg w s +:+ rest) EmptyString l.
Proof.
  revert acc. induction l as [|a l IH]; intros acc.
  - simpl. by rewrite append_nil_r.
  - simpl. rewrite IH. unfold sectionBytes.
    destruct (GophermapSection_Render w a) as [content [e|]];
      by rewrite append_assoc.
Qed.

(** C6: rendering a parsed gophermap cannot fail, its result is bytes for
    every list of sections: the concatenation, in order, of what each
    section renders, with the one error info line in the place of every
    section whose render returns an error. *)
Theorem GophermapContents_Render_concat (cfg : ServerConfig) (w : World)
    (gc : GophermapContents) :
  GophermapContents_Render cfg w gc
  = foldr (λ s rest, sectionBytes cfg w s +:+ rest) EmptyString (gcSections gc)
  ∧ ∀ s, sectionBytes cfg w s
         = match GophermapSection_Render w s with
           | (_, Some _) => buildInfoLine cfg (GophermapRenderErrorStr cfg)
           | (content, None) => content
           end.
Proof.
  split; [|done]. unfold GophermapContents_Render. by rewrite Render_fold.
Qed.

(** * Parsing *)

Section ParserFacts.
Variable parseLineType : string → ItemType.
Variable cfg : ServerConfig.
Variable w : World.

Lemma gophermapLine_self recurse path line v :
  parseLineType line = TypeSubGophermap →
  sliceFrom1 line = Some path →
  HasSuffix path (GophermapFileStr cfg) = true →
  gophermapLine parseLineType cfg w recurse path line v = Ok (v, true).
Proof.
  intros Hty Hslice Hsuf. unfold gophermapLine.
  by rewrite Hty, Hslice, Hsuf, String.eqb_refl.
Qed.

Lemma gophermapLine_continues recurse path line v v' b :
  parseLineType line ≠ TypeEnd →
  parseLineType line ≠ TypeEndBeginList →
  gophermapLine parseLineType cfg w recurse path line v = Ok (v', b) →
  b = true ∧ dirListing v' = dirListing v.
Proof.
  intros Hend Hlist. unfold gophermapLine.
  destruct (parseLineType line); try done;
    repeat case_match; intros; simplify_eq; done.
Qed.

Lemma runLines_handleLines recurse path lines v :
  Forall (λ l, parseLineType l ≠ TypeEnd ∧ parseLineType l ≠ TypeEndBeginList)
    lines →
  runLines (gophermapLine parseLineType cfg w recurse path) lines v
  = handleLines parseLineType cfg w recurse path lines v
  ∧ ∀ v', handleLines parseLineType cfg w recurse path lines v = Ok v' →
          dirListing v' = dirListing v.
Proof.
  intros Hlines. revert v.
  induction Hlines as [|l lines [Hend Hlist] Hlines IH]; intros v.
  - simpl. split; [done|]. by intros v' [= <-].
  - simpl.
    destruct (gophermapLine parseLineType cfg w recurse path l v)
      as [[v1 b]| |] eqn:Hline; [|done..].
    destruct (gophermapLine_continues _ _ _ _ _ _ Hend Hlist Hline)
      as [-> Hdir].
    destruct (IH v1) as [Heq Hkeep]. split; [done|].
    intros v' Hv'. rewrite <- Hdir. by apply Hkeep.
Qed.

Lemma gophermapLine_total recurse path line v :
  parseLineType line ≠ TypeSubGophermap →
  (parseLineType line = TypeHiddenFile → line ≠ EmptyString) →
  ∃ r, gophermapLine parseLineType cfg w recurse path line v = Ok r.
Proof.
  intros Hsub Hhid. unfold gophermapLine.
  destruct (parseLineType line); try done; try by eexists.
  destruct line as [|c t]; [by destruct Hhid|]. by eexists.
Qed.

Lemma handleLines_total recurse path lines v :
  Forall (λ l, parseLineType l ≠ TypeSubGophermap
               ∧ (parseLineType l = TypeHiddenFile → l ≠ EmptyString)) lines →
  ∃ v', handleLines parseLineType cfg w recurse path lines v = Ok v'.
Proof.
  intros Hlines. revert v.
  induction Hlines as [|l lines [Hsub Hhid] Hlines IH]; intros v.
  - by exists v.
  - simpl.
    destruct (gophermapLine_total recurse path l v Hsub Hhid) as [[v1 b] ->].
    apply IH.
Qed.

Lemma runLines_self recurse path line k v :
  parseLineType line = TypeSubGophermap →
  sliceFrom1 line = Some path →
  HasSuffix path (GophermapFileStr cfg) = true →
  runLines (gophermapLine parseLineType cfg w recurse path)
    (replicate k line) v = Ok v.
Proof.
  intros Hty Hslice Hsuf. induction k as [|k IH]; [done|].
  simpl. by rewrite gophermapLine_self.
Qed.
End ParserFacts.

(** C7 (as amended): an include directive whose target ends in the
    gophermap suffix and equals the path being parsed is skipped: the
    iterator leaves the sections, the hidden names and the listing request
    as they are and goes on to the next line, whatever a recursive call
    would do, as none is made.  A gophermap that consists of such
    directives is parsed at recursion depth one, to no section and no
    error. *)
Theorem readGophermap_skips_self_include (parseLineType : string → ItemType)
    (cfg : ServerConfig) (w : World) (path line : string) :
  parseLineType line = TypeSubGophermap →
  sliceFrom1 line = Some path →
  HasSuffix path (GophermapFileStr cfg) = true →
  (∀ recurse v,
     gophermapLine parseLineType cfg w recurse path line v = Ok (v, true))
  ∧ (∀ k tail,
       bytesIndex CrLf line = None → bytesIndex CrLf tail = None →
       readFile w path = Some (joinCrLf (replicate k line) +:+ tail) →
       readGophermap parseLineType cfg w 1 path = Ok ([], None)).
Proof.
  intros Hty Hslice Hsuf. split.
  - intros recurse v. by apply gophermapLine_self.
  - intros k tail Hline Htail Hfile. simpl.
    rewrite (bufferedScan_lines w path _ (replicate k line) tail _ Hfile);
      [|by apply Forall_replicate|done].
    by rewrite runLines_self.
Qed.

Lemma readGophermap_skips_self_include_witness :
  parseLineTypeByFirstByte "=/dir/gophermap" = TypeSubGophermap
  ∧ sliceFrom1 "=/dir/gophermap" = Some "/dir/gophermap"
  ∧ HasSuffix "/dir/gophermap" (GophermapFileStr exampleConfig) = true
  ∧ gophermapLine parseLineTypeByFirstByte exampleConfig selfIncludeWorld
      (λ _, OutOfFuel) "/dir/gophermap" "=/dir/gophermap" emptyVars
    = Ok (emptyVars, true)
  ∧ readGophermap parseLineTypeByFirstByte exampleConfig selfIncludeWorld 1
      "/dir/gophermap" = Ok ([], None).
Proof.
  pose proof (readGophermap_skips_self_include parseLineTypeByFirstByte
                exampleConfig selfIncludeWorld "/dir/gophermap"
                "=/dir/gophermap" eq_refl eq_refl eq_refl) as [Hline Hfile].
  split; [reflexivity|]. split; [reflexivity|]. split; [reflexivity|].
  split; [apply Hline|].
  apply (Hfile 1%nat EmptyString); reflexivity.
Defined.

(** C7, as stated, fails for a path without the gophermap suffix: the
    directive that names the path being parsed is taken as the inclusion
    of a regular file, and contributes the bytes of the gophermap itself
    as an info line. *)
Lemma readGophermap_includes_self_as_file :
  parseLineTypeByFirstByte "=/menu" = TypeSubGophermap
  ∧ sliceFrom1 "=/menu" = Some "/menu"
  ∧ readFile selfIncludeWorld "/menu" = Some ("=/menu" +:+ CrLf)
  ∧ readGophermap parseLineTypeByFirstByte exampleConfig selfIncludeWorld 1
      "/menu"
    = Ok ([GophermapText
             (buildInfoLine exampleConfig ("=/menu" +:+ String "013" EmptyString))],
          None)
  ∧ gophermapLine parseLineTypeByFirstByte exampleConfig selfIncludeWorld
      (λ _, OutOfFuel) "/menu" "=/menu" emptyVars
    ≠ Ok (emptyVars, true).
Proof.
  split; [reflexivity|]. split; [reflexivity|]. split; [reflexivity|].
  split; [vm_compute; reflexivity|].
  vm_compute. intros Heq. discriminate Heq.
Qed.

(** * [Fetch] between calls: what it returns and what it keeps *)

(** Name the fields of a memory between calls. *)
Ltac between_calls s Hinv m l cap mk h ne log :=
  let cm := fresh "cm" in
  let lm := fresh "lm" in
  destruct s as [[m cm l lm cap mk] h ne log];
  assert (cm = rwFree ∧ lm = false) as [-> ->]
    by (destruct Hinv as ((? & ? & _) & _); by simpl in * );
  change (Build_State _ _ h ne log) with (mkState m l cap mk h ne log) in *.




Section FetchCases.
Context `{FileContents C}.
Implicit Types (m : gmap string FileElement) (l : list Element)
  (h : list (File C)) (w : World).

(** What a call of [Fetch] does between calls, branch by branch. *)
Lemma Fetch_cases w path m l size nf h ne log :
  cacheInv (mkState m l size nf h ne log) →
  (∃ fe c t,
      m !! path = Some fe ∧ h !! FilePtr fe = Some (mkFile c true t)
      ∧ {| elemId := ElementPtr fe; Value := path |} ∈ l
      ∧ exec w (Fetch path) (mkState m l size nf h ne log)
        = Done ((Render w c, None),
                mkState m (listMoveToFront (ElementPtr fe) l) size nf h ne log))
  ∨ (∃ fe c t c',
      m !! path = Some fe ∧ h !! FilePtr fe = Some (mkFile c false t)
      ∧ {| elemId := ElementPtr fe; Value := path |} ∈ l
      ∧ Load w c = (c', None)
      ∧ exec w (Fetch path) (mkState m l size nf h ne log)
        = Done ((Render w c', None),
                mkState m (listMoveToFront (ElementPtr fe) l) size nf
                  (<[FilePtr fe := mkFile c' true (nowNano w)]> h) ne
                  (FilePtr fe :: log)))
  ∨ (∃ fe c t c' e,
      m !! path = Some fe ∧ h !! FilePtr fe = Some (mkFile c false t)
      ∧ Load w c = (c', Some e)
      ∧ exec w (Fetch path) (mkState m l size nf h ne log)
        = Done ((EmptyString, Some e),
                mkState m l size nf (<[FilePtr fe := mkFile c' false t]> h) ne
                  (FilePtr fe :: log)))
  ∨ (∃ c' e,
      m !! path = None ∧ Load w (nf path) = (c', Some e)
      ∧ exec w (Fetch path) (mkState m l size nf h ne log)
        = Done ((EmptyString, Some e),
                mkState m l size nf (h ++ [mkFile c' false 0]) ne
                  (length h :: log)))
  ∨ (∃ c',
      m !! path = None ∧ Load w (nf path) = (c', None)
      ∧ Z.of_nat (S (length l)) ≠ size
      ∧ exec w (Fetch path) (mkState m l size nf h ne log)
        = Done ((Render w c', None),
                mkState (<[path := {| FilePtr := length h; ElementPtr := ne |}]> m)
                  ({| elemId := ne; Value := path |} :: l) size nf
                  (h ++ [mkFile c' true (nowNano w)]) (S ne)
                  (length h :: log)))
  ∨ (∃ c' re,
      m !! path = None ∧ Load w (nf path) = (c', None)
      ∧ Z.of_nat (S (length l)) = size
      ∧ last ({| elemId := ne; Value := path |} :: l) = Some re
      ∧ exec w (Fetch path) (mkState m l size nf h ne log)
        = Done ((Render w c', None),
                mkState
                  (delete (Value re)
                     (<[path := {| FilePtr := length h; ElementPtr := ne |}]> m))
                  (listMoveToFront ne
                     (listRemove (elemId re)
                        ({| elemId := ne; Value := path |} :: l)))
                  size nf (h ++ [mkFile c' true (nowNano w)]) (S ne)
                  (length h :: log))).
Proof.
  intros Hinv.
  pose proof Hinv as ((_ & _ & Hq) & [Hdom Hnd] & Hw1 & Hw2 & Hw3 & _).
  simpl in Hq, Hdom, Hnd, Hw1, Hw2, Hw3.
  destruct (m !! path) as [fe|] eqn:Hm.
  - destruct (Hw1 path fe Hm) as [Hin Hlt].
    destruct (lookup_lt_is_Some_2 h (FilePtr fe) Hlt) as [f Hf].
    pose proof (heap_file_free h _ f Hq Hf) as Hfile.
    rewrite Hfile in Hf.
    destruct (fresh f) eqn:Hfresh.
    + left. eexists fe, _, _. split; [done|]. split; [done|]. split; [done|].
      by eapply Fetch_hit_fresh.
    + destruct (Load w (contents f)) as [c' [e|]] eqn:HL.
      * right; right; left. eexists fe, _, _, _, _.
        split; [done|]. split; [done|]. split; [done|].
        by eapply Fetch_hit_stale_err.
      * right; left. eexists fe, _, _, _.
        split; [done|]. split; [done|]. split; [done|]. split; [done|].
        by eapply Fetch_hit_stale_ok.
  - destruct (Load w (nf path)) as [c' [e|]] eqn:HL.
    + right; right; right; left. eexists _, _.
      split; [done|]. split; [done|]. by eapply Fetch_miss_err.
    + pose proof (cacheInv_insert m l size nf h ne log (length h :: log)
                    path c' true (nowNano w) Hm Hinv) as Hinv1.
      assert (∀ x, x ∈ l → elemId x ≠ ne) as Hne.
      { intros x Hx. apply Hw3 in Hx. lia. }
      destruct (decide (Z.of_nat (S (length l)) = size)) as [Hlen|Hlen].
      * right; right; right; right; right.
        destruct (last ({| elemId := ne; Value := path |} :: l)) as [re|] eqn:Hback.
        2:{ apply last_None in Hback. done. }
        assert (re ∈ {| elemId := ne; Value := path |} :: l) as Hre
          by by apply last_Some_elem_of.
        pose proof Hinv1 as ((_ & _ & Hq1) & Ha1 & Hw1' & _).
        simpl in Hw1', Hq1.
        assert (is_Some (<[path:={| FilePtr := length h; ElementPtr := ne |}]> m
                           !! Value re)) as [x Hx].
        { apply (mapListAgree_lookup _ _ Ha1).
          by apply (list_elem_of_fmap_2 Value) in Hre. }
        destruct (Hw1' _ _ Hx) as [_ Hxlt].
        destruct (lookup_lt_is_Some_2 _ _ Hxlt) as [fx Hfx].
        pose proof (heap_file_free _ _ fx Hq1 Hfx) as Hfile.
        rewrite Hfile in Hfx.
        exists c', re. split; [done|]. split; [done|]. split; [done|].
        split; [done|]. by eapply Fetch_miss_evict.
      * right; right; right; right; left. exists c'.
        split; [done|]. split; [done|]. split; [done|].
        rewrite (Fetch_miss_insert w m l size nf h ne log path c' Hm HL Hlen).
        by rewrite listMoveToFront_head.
Qed.


End FetchCases.

Section MonitorFacts.
Context `{FileContents C}.
Implicit Types (m : gmap string FileElement) (l : list Element)
  (h : list (File C)) (w : World).

Lemma cacheInv_sweepFiles w m l size nf h ne log paths :
  cacheInv (mkState m l size nf h ne log) →
  cacheInv (mkState m l size nf (sweepFiles w m paths h) ne log).
Proof.
  intros ((Hc & Hl & Hq) & Ha & Hw1 & Hw2 & Hw3 & Hw4).
  split; [|split]; simpl in *.
  - split; [done|split; [done|]]. simpl. by apply sweepFiles_free.
  - exact Ha.
  - split; [|by repeat split]. simpl. intros path fe Hfe.
    rewrite sweepFiles_length. by apply Hw1.
Qed.

Lemma staleOnDisk_SetUnfresh w path (f : File C) :
  staleOnDisk w path (SetUnfresh f) = false.
Proof. unfold staleOnDisk. by destruct (statModTime w path). Qed.

Lemma sweepFiles_twice w m paths h :
  NoDup paths →
  (∀ p1 p2 fe1 fe2, m !! p1 = Some fe1 → m !! p2 = Some fe2 →
     FilePtr fe1 = FilePtr fe2 → p1 = p2) →
  (∀ p, p ∈ paths → is_Some (m !! p)) →
  sweepFiles w m paths (sweepFiles w m paths h) = sweepFiles w m paths h.
Proof.
  intros Hnd Hdist Hin. apply list_eq. intros i.
  destruct (decide (Exists (λ p, FilePtr <$> m !! p = Some i) paths))
    as [Hex|Hno].
  - apply Exists_exists in Hex as (p & Hp & Hfe).
    destruct (m !! p) as [fe|] eqn:Hm; [|done]. simpl in Hfe.
    injection Hfe as <-.
    destruct (h !! FilePtr fe) as [f|] eqn:Hf.
    + pose proof (sweepFiles_entry w m paths h p fe f Hnd Hdist Hp Hm Hf) as H1.
      rewrite (sweepFiles_entry w m paths _ p fe _ Hnd Hdist Hp Hm H1), H1.
      f_equal. destruct (staleOnDisk w p f) eqn:Hst.
      * by rewrite staleOnDisk_SetUnfresh.
      * by rewrite Hst.
    + apply lookup_ge_None in Hf.
      rewrite !(proj2 (lookup_ge_None _ _)); [done|..];
        by rewrite ?sweepFiles_length.
  - rewrite !sweepFiles_other; [done|..];
      intros p fe Hp Hm Heq; apply Hno, Exists_exists; exists p;
      (split; [done|]); by rewrite Hm, <- Heq.
Qed.
End MonitorFacts.

Lemma cacheInv_oneEntryState : cacheInv oneEntryState.
Proof.
  apply (cacheInv_insert ∅ [] 3 NewRegularFile [] 0 [] [0%nat] "/A"
           (RegularFileContents "/A" "a") true 5 (lookup_empty _)).
  apply (cacheInv_init 3 NewRegularFile).
Qed.



(** X2: a path whose entry is in the map and marked fresh is served from
    the entry: [Fetch] returns the rendering of the contents the entry
    holds, calls no load, and leaves the map and every file object as
    they were, whatever the file on disk is by then. *)
Theorem Fetch_serves_fresh_entry `{FileContents C} (w : World) (path : string)
    (s : State C) (fe : FileElement) (f : File C) :
  cacheInv s →
  CacheMap (fc s) !! path = Some fe →
  heap s !! FilePtr fe = Some f →
  fresh f = true →
  ∃ s', exec w (Fetch path) s = Done ((Render w (contents f), None), s')
    ∧ CacheMap (fc s') = CacheMap (fc s)
    ∧ heap s' = heap s
    ∧ loadLog s' = loadLog s.
Proof.
  intros Hinv Hm Hf Hfresh.
  between_calls s Hinv m l cap mk h ne log. simpl in Hm, Hf.
  destruct (Fetch_cases w path m l cap mk h ne log Hinv)
    as [(fe' & c & t & Hm' & Hf' & _ & Hex)
       |[(fe' & c & t & c' & Hm' & Hf' & _)
        |[(fe' & c & t & c' & e & Hm' & Hf' & _)
         |[(c' & e & Hm' & _)|[(c' & Hm' & _)|(c' & re & Hm' & _)]]]]];
    simplify_eq; try (simpl in Hfresh; done).
  eexists. split; [exact Hex|]. done.
Qed.

Lemma Fetch_serves_fresh_entry_witness :
  cacheInv oneEntryState
  ∧ ∃ s', exec staleWorld (Fetch "/A") oneEntryState = Done (("a", None), s')
      ∧ CacheMap (fc s') = CacheMap (fc oneEntryState)
      ∧ heap s' = heap oneEntryState
      ∧ loadLog s' = loadLog oneEntryState.
Proof.
  split; [apply cacheInv_oneEntryState|].
  exact (Fetch_serves_fresh_entry staleWorld "/A" oneEntryState
           {| FilePtr := 0; ElementPtr := 0 |}
           (mkFile (RegularFileContents "/A" "a") true 5)
           cacheInv_oneEntryState eq_refl eq_refl eq_refl).
Defined.

(** X3: when [Fetch] returns an error it returns no bytes, the error is
    the one load-contents gave, and the cache is as before: the map, the
    list and the size are unchanged and every lock is free.  An entry
    whose reload failed stays in the map and stays not fresh, so the next
    call tries to load again. *)
Theorem Fetch_error_leaves_cache `{FileContents C} (w : World) (path : string)
    (s s' : State C) (b : string) (e : GophorError) :
  cacheInv s →
  exec w (Fetch path) s = Done ((b, Some e), s') →
  b = EmptyString
  ∧ fc s' = fc s
  ∧ cacheInv s'
  ∧ loadLog s' ≠ loadLog s
  ∧ ∀ fe, CacheMap (fc s) !! path = Some fe →
          ∃ f', heap s' !! FilePtr fe = Some f' ∧ fresh f' = false.
Proof.
  intros Hinv Hex.
  destruct (Fetch_sequential w path s Hinv) as (r & s1 & Hex1 & Hinv1 & _).
  rewrite Hex in Hex1. injection Hex1 as <- <-.
  between_calls s Hinv m l cap mk h ne log.
  destruct (Fetch_cases w path m l cap mk h ne log Hinv)
    as [(fe' & c & t & Hm' & Hf' & _ & Hex')
       |[(fe' & c & t & c' & Hm' & Hf' & _ & _ & Hex')
        |[(fe' & c & t & c' & e' & Hm' & Hf' & HL & Hex')
         |[(c' & e' & Hm' & HL & Hex')
          |[(c' & Hm' & _ & _ & Hex')|(c' & re & Hm' & _ & _ & _ & Hex')]]]]];
    rewrite Hex in Hex'; simplify_eq.
  - split; [done|]. split; [done|]. split; [done|].
    split; [simpl; intros Heq; by apply (f_equal length) in Heq; simpl in Heq; lia|].
    simpl. intros fe Hfe. simplify_eq. eexists.
    split; [apply list_lookup_insert_eq; by eapply lookup_lt_Some|reflexivity].
  - split; [done|]. split; [done|]. split; [done|].
    split; [simpl; intros Heq; by apply (f_equal length) in Heq; simpl in Heq; lia|].
    simpl. intros fe Hfe. simplify_eq.
Qed.

Lemma Fetch_error_leaves_cache_witness :
  cacheInv (initState 3 NewRegularFile)
  ∧ ∃ s', exec abcWorld (Fetch "/Z") (initState 3 NewRegularFile)
          = Done ((EmptyString, Some FileReadErr), s')
      ∧ fc s' = fc (initState 3 NewRegularFile)
      ∧ cacheInv s'.
Proof.
  split; [apply cacheInv_init|].
  eexists. split; [vm_compute; reflexivity|].
  edestruct (Fetch_error_leaves_cache abcWorld "/Z" (initState 3 NewRegularFile))
    as (_ & Hfc & Hinv & _).
  - apply cacheInv_init.
  - vm_compute; reflexivity.
  - split; [exact Hfc|exact Hinv].
Defined.





(** X6: with a configured size of zero or less [Fetch] never evicts: every
    entry of the map stays where it is, and a path served without error
    is in the map afterwards. *)
Theorem Fetch_size_not_positive_keeps_all `{FileContents C} (w : World)
    (path : string) (s s' : State C) (r : string * option GophorError) :
  cacheInv s →
  Size (fc s) ≤ 0 →
  exec w (Fetch path) s = Done (r, s') →
  CacheMap (fc s) ⊆ CacheMap (fc s')
  ∧ (r.2 = None → is_Some (CacheMap (fc s') !! path)).
Proof.
  intros Hinv Hsz Hex.
  between_calls s Hinv m l cap mk h ne log. simpl in Hsz.
  destruct (Fetch_cases w path m l cap mk h ne log Hinv)
    as [(fe' & c & t & Hm' & Hf' & Hel & Hex')
       |[(fe' & c & t & c' & Hm' & Hf' & Hel & _ & Hex')
        |[(fe' & c & t & c' & e' & Hm' & Hf' & HL & Hex')
         |[(c' & e' & Hm' & HL & Hex')
          |[(c' & Hm' & _ & Hlen & Hex')|(c' & re & Hm' & _ & Hlen & Hlast & Hex')]]]]];
    rewrite Hex in Hex'; simplify_eq; simpl; try lia.
  - split; [done|]. by intros _.
  - split; [done|]. by intros _.
  - split; [done|]. intros; simplify_eq.
  - split; [done|]. intros; simplify_eq.
  - split; [by apply insert_subseteq|]. intros _.
    rewrite lookup_insert_eq. by eexists.
Qed.

Lemma Fetch_size_not_positive_keeps_all_witness :
  cacheInv (initState 0 NewRegularFile)
  ∧ Size (fc (initState 0 NewRegularFile)) ≤ 0
  ∧ ∃ s', exec abcWorld (Fetch "/A") (initState 0 NewRegularFile)
          = Done (("a", None), s')
      ∧ CacheMap (fc (initState 0 NewRegularFile)) ⊆ CacheMap (fc s')
      ∧ is_Some (CacheMap (fc s') !! "/A").
Proof.
  split; [apply cacheInv_init|]. split; [done|].
  eexists. split; [vm_compute; reflexivity|].
  edestruct (Fetch_size_not_positive_keeps_all abcWorld "/A"
               (initState 0 NewRegularFile)) as [Hsub Hin].
  - apply cacheInv_init.
  - done.
  - vm_compute; reflexivity.
  - split; [exact Hsub|]. by apply Hin.
Defined.



(** X8: a round of the monitor run between calls returns with every lock
    free and the map and the list as they were, and a second round with
    the same answers from the disk changes nothing at all. *)
Theorem checkCacheFreshness_idempotent `{FileContents C} (w : World)
    (s : State C) :
  cacheInv s →
  ∃ s1, exec w checkCacheFreshness s = Done (tt, s1)
    ∧ cacheInv s1
    ∧ fc s1 = fc s
    ∧ exec w checkCacheFreshness s1 = Done (tt, s1).
Proof.
  intros Hinv.
  between_calls s Hinv m l cap mk h ne log.
  pose proof Hinv as ((_ & _ & Hq) & _ & Hw1 & _ & _ & Hdist).
  simpl in Hq, Hw1.
  pose proof (cacheInv_sweepFiles w m l cap mk h ne log (map_to_list m).*1 Hinv)
    as Hinv1.
  assert (∀ p fe', m !! p = Some fe' → (FilePtr fe' < length h)%nat) as Hptr.
  { intros p fe' Hp. by apply (Hw1 p fe'). }
  eexists. split; [by apply checkCacheFreshness_exec|].
  split; [done|]. split; [done|].
  rewrite checkCacheFreshness_exec.
  - rewrite sweepFiles_twice; [done|apply NoDup_fst_map_to_list|done|].
    intros p Hp. apply list_elem_of_fmap in Hp as ([p' fe'] & -> & Hp).
    apply elem_of_map_to_list in Hp. by eexists.
  - intros p fe' Hp. rewrite sweepFiles_length. by eapply Hptr.
  - by apply sweepFiles_free.
Qed.

Lemma checkCacheFreshness_idempotent_witness :
  cacheInv oneEntryState
  ∧ ∃ s1, exec staleWorld checkCacheFreshness oneEntryState = Done (tt, s1)
      ∧ cacheInv s1
      ∧ fc s1 = fc oneEntryState
      ∧ exec staleWorld checkCacheFreshness s1 = Done (tt, s1).
Proof.
  split; [apply cacheInv_oneEntryState|].
  apply (checkCacheFreshness_idempotent staleWorld oneEntryState).
  apply cacheInv_oneEntryState.
Defined.

(** * Slices and the LF splitter *)

Lemma length_strDrop (n : nat) (s : string) :
  String.length (strDrop n s) = (String.length s - n)%nat.
Proof.
  revert s. induction n as [|n IH]; intros s.
  - simpl. lia.
  - destruct s as [|c s]; [done|]. simpl. apply IH.
Qed.

Lemma length_strTake (n : nat) (s : string) :
  (n ≤ String.length s)%nat → String.length (strTake n s) = n.
Proof.
  revert s. induction n as [|n IH]; intros s Hn; [done|].
  destruct s as [|c s]; simpl in *; [lia|]. rewrite IH; lia.
Qed.

Lemma strTake_strDrop (n : nat) (s : string) :
  strTake n s +:+ strDrop n s = s.
Proof.
  revert s. induction n as [|n IH]; intros s; [done|].
  destruct s as [|c s]; [done|]. simpl. rewrite append_cons. by rewrite IH.
Qed.

Lemma HasSuffix_append (s t : string) : HasSuffix (s +:+ t) t = true.
Proof.
  unfold HasSuffix. rewrite length_append.
  replace (String.length s + String.length t - String.length t)%nat
    with (String.length s) by lia.
  rewrite strDrop_append, String.eqb_refl, andb_true_r.
  apply Nat.leb_le. lia.
Qed.

Lemma prefix_nil (s : string) : String.prefix EmptyString s = true.
Proof. by destruct s. Qed.

Lemma bytesIndex_Lf_cons (c : ascii) (t : string) :
  bytesIndex Lf (String c t)
  = if ascii_dec "010" c then Some O else S <$> bytesIndex Lf t.
Proof.
  rewrite bytesIndex_unfold. unfold Lf. rewrite prefix_cons, prefix_nil.
  by destruct (ascii_dec "010" c).
Qed.

Lemma bytesIndex_Lf_lt (data : string) (i : nat) :
  bytesIndex Lf data = Some i → (i < String.length data)%nat.
Proof.
  revert i. induction data as [|c t IH]; intros i; [done|].
  rewrite bytesIndex_Lf_cons. destruct (ascii_dec "010" c).
  - intros [= <-]. simpl. lia.
  - destruct (bytesIndex Lf t) as [j|]; [|done].
    intros [= <-]. specialize (IH j eq_refl). simpl. lia.
Qed.

Lemma bytesIndex_Lf_line (line rest : string) :
  bytesIndex Lf line = None →
  bytesIndex Lf (line +:+ Lf +:+ rest) = Some (String.length line).
Proof.
  induction line as [|c t IH]; intros Hnone.
  - change (EmptyString +:+ Lf +:+ rest) with (String "010" rest).
    rewrite bytesIndex_Lf_cons. by destruct (ascii_dec "010" "010").
  - rewrite bytesIndex_Lf_cons in Hnone.
    rewrite append_cons, bytesIndex_Lf_cons.
    destruct (ascii_dec "010" c); [done|].
    destruct (bytesIndex Lf t); [done|]. by rewrite IH.
Qed.

Lemma splitLf_line (line rest : string) :
  bytesIndex Lf line = None →
  splitLf (line +:+ Lf +:+ rest) true
  = ((String.length line + 1)%nat, Some (line +:+ Lf)).
Proof.
  intros Hnone. unfold splitLf.
  rewrite length_append, (bytesIndex_Lf_line _ _ Hnone).
  replace (String.length line + String.length (Lf +:+ rest) =? 0)%nat
    with false.
  2:{ symmetry. apply Nat.eqb_neq. simpl. lia. }
  simpl. do 2 f_equal.
  rewrite <- append_assoc.
  replace (String.length line + 1)%nat with (String.length (line +:+ Lf))
    by (rewrite length_append; done).
  apply strTake_append.
Qed.

Lemma splitLf_tail (tail : string) :
  bytesIndex Lf tail = None → splitLf tail true = (O, None).
Proof.
  intros Hnone. unfold splitLf. rewrite Hnone. by case_match.
Qed.

Lemma joinLf_cons (line : string) (lines : list string) :
  joinLf (line :: lines) = line +:+ Lf +:+ joinLf lines.
Proof. reflexivity. Qed.

Lemma length_joinLf (lines : list string) :
  (length lines ≤ String.length (joinLf lines))%nat.
Proof.
  induction lines as [|l lines IH]; [done|].
  rewrite joinLf_cons, !length_append. simpl. lia.
Qed.

(** The scanner with the LF splitter on a source of LF terminated lines
    calls the iterator on these lines, each with its LF, and drops what
    follows the last LF. *)
Lemma scanLoop_Lf_lines {St} (iterator : string → St → Res (St * bool))
    (lines : list string) (tail : string) (fuel : nat) (st : St) :
  Forall (λ l, bytesIndex Lf l = None) lines →
  bytesIndex Lf tail = None →
  (length lines < fuel)%nat →
  scanLoop fuel splitLf iterator (joinLf lines +:+ tail) st
  = runLines iterator ((λ l, l +:+ Lf) <$> lines) st.
Proof.
  intros Hlines Htail. revert fuel st.
  induction Hlines as [|l lines Hl Hlines IH]; intros fuel st Hfuel.
  - destruct fuel as [|n]; [simpl in Hfuel; lia|].
    simpl. by rewrite splitLf_tail.
  - destruct fuel as [|n]; [simpl in Hfuel; lia|].
    rewrite joinLf_cons, !append_assoc. simpl.
    rewrite (splitLf_line _ _ Hl).
    destruct (iterator (l +:+ Lf) st) as [[st' [|]]| |]; [|done..].
    rewrite strDrop_add, strDrop_append.
    change (strDrop 1 (Lf +:+ ?x)) with x.
    apply IH. simpl in Hfuel. lia.
Qed.

Lemma bufferedScan_Lf_lines {St} (w : World) (path : string)
    (iterator : string → St → Res (St * bool))
    (lines : list string) (tail : string) (st : St) :
  readFile w path = Some (joinLf lines +:+ tail) →
  Forall (λ l, bytesIndex Lf l = None) lines →
  bytesIndex Lf tail = None →
  bufferedScan w path splitLf iterator st
  = match runLines iterator ((λ l, l +:+ Lf) <$> lines) st with
    | Ok st' => Ok (st', None)
    | OutOfFuel => OutOfFuel
    | GoPanic => GoPanic
    end.
Proof.
  intros Hfile Hlines Htail. unfold bufferedScan. rewrite Hfile.
  rewrite scanLoop_Lf_lines; [done..|].
  rewrite length_append. pose proof (length_joinLf lines). lia.
Qed.

(** The scanner with the LF splitter ends on every input when the
    iterator does and asks to go on. *)
Lemma scanLoop_splitLf_total {St} (iterator : string → St → Res (St * bool)) :
  (∀ token st, ∃ st', iterator token st = Ok (st', true)) →
  ∀ fuel data st, (String.length data < fuel)%nat →
    ∃ st', scanLoop fuel splitLf iterator data st = Ok st'.
Proof.
  intros Hit. induction fuel as [|n IH]; intros data st Hfuel; [lia|].
  simpl. unfold splitLf.
  destruct (String.length data =? 0)%nat eqn:Hlen; simpl; [by eexists|].
  destruct (bytesIndex Lf data) as [i|] eqn:Hi; [|by eexists].
  destruct (Hit (strTake (i + 1) data) st) as [st' ->].
  apply IH. rewrite length_strDrop. apply Nat.eqb_neq in Hlen. lia.
Qed.

(** * The loop that cuts a line to the page width *)

Section Reflow.
Variable cfg : ServerConfig.

Lemma reflow_pieces (fuel : nat) (line acc : string) :
  0 < PageWidth cfg →
  (String.length line ≤ fuel)%nat →
  ∃ pieces,
    reflow fuel cfg line acc
    = Ok (acc +:+ foldr (λ p rest, buildInfoLine cfg p +:+ rest) EmptyString pieces)
    ∧ foldr (λ p rest, p +:+ rest) EmptyString pieces = line
    ∧ Forall (λ p, (0 < String.length p)%nat
                   ∧ Z.of_nat (String.length p) ≤ PageWidth cfg) pieces.
Proof.
  intros Hpw. revert line acc.
  induction fuel as [|n IH]; intros line acc Hfuel.
  - destruct line; [|simpl in Hfuel; lia].
    exists []. simpl. by rewrite append_nil_r.
  - destruct (String.length line =? 0)%nat eqn:Hlen.
    + apply Nat.eqb_eq in Hlen. destruct line; [|done].
      exists []. simpl. by rewrite append_nil_r.
    + simpl. rewrite Hlen. apply Nat.eqb_neq in Hlen.
      set (k := minWidth cfg (Z.of_nat (String.length line))).
      assert (1 ≤ k ∧ k ≤ Z.of_nat (String.length line) ∧ k ≤ PageWidth cfg)
        as (Hk1 & Hk2 & Hk3).
      { unfold k, minWidth. case_bool_decide; lia. }
      rewrite bool_decide_eq_false_2 by lia.
      destruct (IH (strDrop (Z.to_nat k) line)
                  (acc +:+ buildInfoLine cfg (strTake (Z.to_nat k) line)))
        as (pieces & Hre & Hcat & Hall).
      { rewrite length_strDrop. lia. }
      exists (strTake (Z.to_nat k) line :: pieces).
      split; [|split].
      * rewrite Hre. simpl. by rewrite append_assoc.
      * simpl. rewrite Hcat. apply strTake_strDrop.
      * constructor; [|done]. rewrite length_strTake by lia. lia.
Qed.

Lemma reflow_width_zero (fuel : nat) (line acc : string) :
  PageWidth cfg = 0 → line ≠ EmptyString → reflow fuel cfg line acc = OutOfFuel.
Proof.
  intros Hpw Hline. revert acc.
  induction fuel as [|n IH]; intros acc.
  - destruct line; done.
  - destruct line as [|c t]; [done|].
    assert (minWidth cfg (Z.of_nat (String.length (String c t))) = 0) as Hk.
    { unfold minWidth. case_bool_decide; simpl in *; lia. }
    change (reflow (S n) cfg (String c t) acc)
      with (let length := minWidth cfg (Z.of_nat (String.length (String c t))) in
            if bool_decide (length < 0) then GoPanic
            else reflow n cfg (strDrop (Z.to_nat length) (String c t))
                   (acc +:+ buildInfoLine cfg
                              (strTake (Z.to_nat length) (String c t)))).
    cbv zeta. rewrite Hk.
    rewrite bool_decide_eq_false_2 by lia.
    change (strDrop (Z.to_nat 0) (String c t)) with (String c t). apply IH.
Qed.

Lemma reflow_width_negative (fuel : nat) (line acc : string) :
  PageWidth cfg < 0 → line ≠ EmptyString → reflow (S fuel) cfg line acc = GoPanic.
Proof.
  intros Hpw Hline. destruct line as [|c t]; [done|].
  change (reflow (S fuel) cfg (String c t) acc)
    with (let length := minWidth cfg (Z.of_nat (String.length (String c t))) in
          if bool_decide (length < 0) then GoPanic
          else reflow fuel cfg (strDrop (Z.to_nat length) (String c t))
                 (acc +:+ buildInfoLine cfg
                            (strTake (Z.to_nat length) (String c t)))).
  cbv zeta. rewrite bool_decide_eq_true_2; [done|].
  unfold minWidth. case_bool_decide; simpl in *; lia.
Qed.
End Reflow.

Lemma Replace_Lf_line (line : string) :
  bytesIndex Lf line = None → Replace (line +:+ Lf) Lf EmptyString = line.
Proof.
  unfold Replace. induction line as [|c t IH]; intros Hnone; [done|].
  rewrite bytesIndex_Lf_cons in Hnone.
  destruct (ascii_dec "010" c) as [|Hc]; [done|].
  destruct (bytesIndex Lf t) eqn:Ht; [done|].
  rewrite append_cons.
  change (replaceFrom (String.length (String c (t +:+ Lf))) Lf EmptyString (String c (t +:+ Lf)))
    with (if String.prefix Lf (String c (t +:+ Lf))
          then EmptyString +:+ replaceFrom (String.length (t +:+ Lf)) Lf EmptyString
                       (strDrop (String.length Lf) (String c (t +:+ Lf)))
          else String c (replaceFrom (String.length (t +:+ Lf)) Lf EmptyString (t +:+ Lf))).
  unfold Lf at 1. rewrite prefix_cons.
  destruct (ascii_dec "010" c); [done|]. by rewrite IH.
Qed.

(** [strings.Replace] leaves a string without the old text as it is. *)
Lemma Replace_absent (s old new : string) :
  bytesIndex old s = None → Replace s old new = s.
Proof.
  unfold Replace. induction s as [|c t IH]; intros Hnone; [done|].
  rewrite bytesIndex_unfold in Hnone.
  destruct (String.prefix old (String c t)) eqn:Hpre; [done|].
  destruct (bytesIndex old t) eqn:Ht; [done|].
  change (replaceFrom (String.length (String c t)) old new (String c t))
    with (if String.prefix old (String c t)
          then new +:+ replaceFrom (String.length t) old new
                         (strDrop (String.length old) (String c t))
          else String c (replaceFrom (String.length t) old new t)).
  rewrite Hpre. by rewrite IH.
Qed.

(** * More on the parser *)

Section ParserMore.
Variable parseLineType : string → ItemType.
Variable cfg : ServerConfig.
Variable w : World.

Lemma handleLines_app recurse path l1 l2 v :
  handleLines parseLineType cfg w recurse path (l1 ++ l2) v
  = match handleLines parseLineType cfg w recurse path l1 v with
    | Ok v1 => handleLines parseLineType cfg w recurse path l2 v1
    | OutOfFuel => OutOfFuel
    | GoPanic => GoPanic
    end.
Proof.
  revert v. induction l1 as [|l l1 IH]; intros v; [done|].
  simpl. destruct (gophermapLine parseLineType cfg w recurse path l v)
    as [[v' b]| |]; [|done..]. apply IH.
Qed.

Lemma runLines_app_continue recurse path l1 rest v v1 :
  Forall (λ l, parseLineType l ≠ TypeEnd ∧ parseLineType l ≠ TypeEndBeginList)
    l1 →
  handleLines parseLineType cfg w recurse path l1 v = Ok v1 →
  runLines (gophermapLine parseLineType cfg w recurse path) (l1 ++ rest) v
  = runLines (gophermapLine parseLineType cfg w recurse path) rest v1.
Proof.
  intros Hl. revert v.
  induction Hl as [|l l1 [He Hb] Hl IH]; intros v Hh.
  - simpl in Hh. by simplify_eq.
  - simpl in *.
    destruct (gophermapLine parseLineType cfg w recurse path l v)
      as [[v' b]| |] eqn:Hline; [|done..].
    destruct (gophermapLine_continues parseLineType cfg w recurse path l v v' b
                He Hb Hline) as [-> _].
    by apply IH.
Qed.

(** Only a hidden-file line touches the names to hide. *)
Lemma gophermapLine_hidden recurse path line v v' b :
  gophermapLine parseLineType cfg w recurse path line v = Ok (v', b) →
  hidden v'
  = match parseLineType line, sliceFrom1 line with
    | TypeHiddenFile, Some name => <[name := true]> (hidden v)
    | _, _ => hidden v
    end.
Proof.
  unfold gophermapLine.
  destruct (parseLineType line); repeat case_match; intros; by simplify_eq.
Qed.

Lemma handleLines_hidden recurse path lines v v' :
  handleLines parseLineType cfg w recurse path lines v = Ok v' →
  (∀ name, is_Some (hidden v' !! name)
           ↔ is_Some (hidden v !! name)
             ∨ Exists (λ l, parseLineType l = TypeHiddenFile
                            ∧ sliceFrom1 l = Some name) lines)
  ∧ ((∀ name b, hidden v !! name = Some b → b = true) →
     ∀ name b, hidden v' !! name = Some b → b = true).
Proof.
  revert v. induction lines as [|l lines IH]; intros v Hh.
  - simpl in Hh. simplify_eq. split; [|done].
    intros name. rewrite Exists_nil. tauto.
  - simpl in Hh.
    destruct (gophermapLine parseLineType cfg w recurse path l v)
      as [[v1 b1]| |] eqn:Hline; [|done..].
    apply gophermapLine_hidden in Hline.
    destruct (IH v1 Hh) as [Hiff Htrue]. split.
    + intros name. rewrite Hiff, Exists_cons, Hline.
      destruct (parseLineType l) eqn:Hty;
        try (split; [tauto|intros [?|[[? ?]|?]]; by eauto]).
      destruct (sliceFrom1 l) as [nm|] eqn:Hsl;
        [|split; [tauto|intros [?|[[? ?]|?]]; by eauto]].
      rewrite lookup_insert_is_Some. split.
      * intros [[<-|[_ ?]]|?]; eauto.
      * intros [?|[[_ [= <-]]|?]]; eauto.
        destruct (decide (nm = name)); eauto.
    + intros Hv. apply Htrue. intros name b. rewrite Hline.
      destruct (parseLineType l); try apply Hv.
      destruct (sliceFrom1 l) as [nm|]; [|apply Hv].
      intros Hl. apply lookup_insert_Some in Hl as [[_ <-]|[_ Hl]]; [done|].
      by eapply Hv.
Qed.

(** What a line adds to the sections does not depend on the sections
    read before it. *)
Lemma gophermapLine_sections recurse path line v1 v1' b :
  gophermapLine parseLineType cfg w recurse path line v1 = Ok (v1', b) →
  ∃ new, sections v1' = sections v1 ++ new
    ∧ ∀ v2, ∃ v2',
        gophermapLine parseLineType cfg w recurse path line v2 = Ok (v2', b)
        ∧ sections v2' = sections v2 ++ new.
Proof.
  unfold gophermapLine.
  destruct (parseLineType line); repeat case_match; intros Heq; simplify_eq;
    first
      [ by (exists []; split; [by rewrite app_nil_r|];
            intros v2; eexists; split; [reflexivity|by rewrite app_nil_r])
      | by (eexists; split; [reflexivity|];
            intros v2; eexists; split; reflexivity) ].
Qed.

Lemma handleLines_sections recurse path lines v1 v1' :
  handleLines parseLineType cfg w recurse path lines v1 = Ok v1' →
  ∃ new, sections v1' = sections v1 ++ new
    ∧ ∀ v2, ∃ v2',
        handleLines parseLineType cfg w recurse path lines v2 = Ok v2'
        ∧ sections v2' = sections v2 ++ new.
Proof.
  revert v1. induction lines as [|l lines IH]; intros v1 Hh.
  - simpl in Hh. simplify_eq. exists []. split; [by rewrite app_nil_r|].
    intros v2. exists v2. split; [done|by rewrite app_nil_r].
  - simpl in Hh.
    destruct (gophermapLine parseLineType cfg w recurse path l v1)
      as [[u1 b1]| |] eqn:Hline; [|done..].
    destruct (gophermapLine_sections _ _ _ _ _ _ Hline) as (new1 & Hs1 & Hany1).
    destruct (IH u1 Hh) as (new2 & Hs2 & Hany2).
    exists (new1 ++ new2). split; [by rewrite Hs2, Hs1, app_assoc|].
    intros v2. destruct (Hany1 v2) as (u2 & Hl2 & Hu2).
    destruct (Hany2 u2) as (v2' & Hh2 & Hv2').
    exists v2'. simpl. rewrite Hl2. split; [done|].
    by rewrite Hv2', Hu2, app_assoc.
Qed.

Lemma handleLines_plain recurse path lines v :
  Forall (λ l, parseLineType l = TypeOther
               ∧ bytesIndex (ReplaceStrHostname cfg) l = None) lines →
  handleLines parseLineType cfg w recurse path lines v
  = Ok (appendSections ((λ l, GophermapText (l +:+ CrLf)) <$> lines) v).
Proof.
  intros Hl. revert v. induction Hl as [|l lines [Hty Hrep] Hl IH]; intros v.
  - simpl. unfold appendSections. rewrite app_nil_r. by destruct v.
  - simpl. unfold gophermapLine. rewrite Hty, (Replace_absent _ _ _ Hrep).
    rewrite IH. unfold appendSections. simpl. by rewrite <- app_assoc.
Qed.

Lemma readGophermap_lines n path lines tail :
  readFile w path = Some (joinCrLf lines +:+ tail) →
  Forall (λ l, bytesIndex CrLf l = None) lines →
  bytesIndex CrLf tail = None →
  readGophermap parseLineType cfg w (S n) path
  = match
      runLines (gophermapLine parseLineType cfg w
                  (readGophermap parseLineType cfg w n) path) lines emptyVars
    with
    | Ok v =>
        match dirListing v with
        | Some dir => Ok (sections v ++ [GophermapDirListing dir (hidden v)], None)
        | None => Ok (sections v, None)
        end
    | OutOfFuel => OutOfFuel
    | GoPanic => GoPanic
    end.
Proof.
  intros Hfile Hlines Htail. simpl.
  rewrite (bufferedScan_lines w path _ lines tail _ Hfile Hlines Htail).
  by destruct (runLines _ lines emptyVars).
Qed.
End ParserMore.

(** * When the parser returns *)

(** [readIntoGophermap] returns when the page width is above zero, and on
    a file that cannot be opened whatever the page width. *)
Lemma readIntoGophermap_returns (cfg : ServerConfig) (w : World)
    (target : string) :
  0 < PageWidth cfg ∨ readFile w target = None →
  ∃ r, readIntoGophermap cfg w target = Ok r.
Proof.
  intros Hcond. unfold readIntoGophermap, bufferedScan.
  destruct (readFile w target) as [data|] eqn:Hfile; [|by eexists].
  destruct Hcond as [Hpw|?]; [|done].
  match goal with
  | |- context [scanLoop ?f splitLf ?it ?d ?s] =>
      destruct (scanLoop_splitLf_total it) with (fuel := f) (data := d) (st := s)
        as [st' ->]
  end.
  - intros token st. simpl. destruct (String.eqb token Lf); [by eexists|].
    destruct (reflow_pieces cfg (String.length (Replace token Lf EmptyString))
                (Replace token Lf EmptyString) st Hpw) as (pieces & -> & _); [done|].
    by eexists.
  - lia.
  - destruct (HasSuffix st' CrLf); simpl; by eexists.
Qed.

Section ParserReturns.
Variable parseLineType : string → ItemType.
Variable cfg : ServerConfig.
Variable w : World.

Lemma gophermapLine_returns recurse path line v :
  (parseLineType line = TypeHiddenFile → line ≠ EmptyString) →
  (parseLineType line = TypeSubGophermap →
   ∃ target, sliceFrom1 line = Some target
     ∧ if HasSuffix target (GophermapFileStr cfg)
       then target = path ∨ ∃ r, recurse target = Ok r
       else 0 < PageWidth cfg ∨ readFile w target = None) →
  ∃ r, gophermapLine parseLineType cfg w recurse path line v = Ok r.
Proof.
  intros Hhid Hsub. unfold gophermapLine.
  destruct (parseLineType line); try by eexists.
  - destruct line as [|c t]; [by destruct Hhid|]. by eexists.
  - destruct (Hsub eq_refl) as (target & -> & Hcond).
    destruct (HasSuffix target (GophermapFileStr cfg)).
    + destruct (String.eqb target path) eqn:Heq; [by eexists|].
      destruct Hcond as [->|[[secs [e|]] ->]]; [|by eexists..].
      by rewrite String.eqb_refl in Heq.
    + destruct (readIntoGophermap_returns cfg w target Hcond)
        as [[fileContents [e|]] ->]; by eexists.
Qed.

Lemma handleLines_returns recurse path lines v :
  Forall (λ l, parseLineType l = TypeHiddenFile → l ≠ EmptyString) lines →
  Forall (λ l, parseLineType l = TypeSubGophermap →
               ∃ target, sliceFrom1 l = Some target
                 ∧ if HasSuffix target (GophermapFileStr cfg)
                   then target = path ∨ ∃ r, recurse target = Ok r
                   else 0 < PageWidth cfg ∨ readFile w target = None) lines →
  ∃ v', handleLines parseLineType cfg w recurse path lines v = Ok v'.
Proof.
  intros Hhid Hsub. revert v.
  induction lines as [|l lines IH]; intros v; [by exists v|].
  apply Forall_cons in Hhid as [Hh Hhid]. apply Forall_cons in Hsub as [Hs Hsub].
  simpl.
  destruct (gophermapLine_returns recurse path l v Hh Hs) as [[v1 b] ->].
  by apply IH.
Qed.
End ParserReturns.

(** * Text files included in a gophermap *)

(** X9: with a page width above zero [readIntoGophermap] returns for
    every file that can be read, without error, and what it returns ends
    in CR-LF; whenever it returns bytes they end in CR-LF.  An empty file
    gives CR-LF alone, and a file that cannot be opened gives the error
    and no bytes. *)
Theorem readIntoGophermap_ends_in_CrLf (cfg : ServerConfig) (w : World)
    (path : string) :
  (0 < PageWidth cfg →
   ∀ data, readFile w path = Some data →
     ∃ out, readIntoGophermap cfg w path = Ok (out, None)
       ∧ HasSuffix out CrLf = true)
  ∧ (∀ out, readIntoGophermap cfg w path = Ok (out, None) →
       HasSuffix out CrLf = true)
  ∧ (readFile w path = Some EmptyString → readIntoGophermap cfg w path = Ok (CrLf, None))
  ∧ (readFile w path = None →
     ∃ e, readIntoGophermap cfg w path = Ok (EmptyString, Some e)).
Proof.
  assert (∀ out, readIntoGophermap cfg w path = Ok (out, None) →
            HasSuffix out CrLf = true) as Hends.
  { intros out. unfold readIntoGophermap.
    destruct (bufferedScan _ _ _ _ _) as [[fileContents [e|]]| |]; [done| |done..].
    destruct (HasSuffix fileContents CrLf) eqn:Hsuf; simpl; intros; simplify_eq.
    - done.
    - apply HasSuffix_append. }
  split; [|split; [exact Hends|split]].
  - intros Hpw data Hfile.
    assert (∃ out, readIntoGophermap cfg w path = Ok (out, None)) as [out Hout].
    { unfold readIntoGophermap, bufferedScan. rewrite Hfile.
      match goal with
      | |- context [scanLoop ?f splitLf ?it ?d ?s] =>
          destruct (scanLoop_splitLf_total it) with (fuel := f) (data := d) (st := s)
            as [st' ->]
      end.
      - intros token st. simpl. destruct (String.eqb token Lf); [by eexists|].
        destruct (reflow_pieces cfg (String.length (Replace token Lf EmptyString))
                    (Replace token Lf EmptyString) st Hpw) as (pieces & -> & _); [done|].
        by eexists.
      - lia.
      - destruct (HasSuffix st' CrLf); simpl; by eexists. }
    exists out. split; [done|]. by apply Hends.
  - intros Hfile. unfold readIntoGophermap, bufferedScan. by rewrite Hfile.
  - intros Hfile. unfold readIntoGophermap, bufferedScan. rewrite Hfile.
    by eexists.
Qed.

Lemma readIntoGophermap_ends_in_CrLf_witness :
  0 < PageWidth exampleConfig
  ∧ readFile textFilesWorld "/b.txt" = Some ("one" +:+ Lf)
  ∧ ∃ out, readIntoGophermap exampleConfig textFilesWorld "/b.txt" = Ok (out, None)
      ∧ HasSuffix out CrLf = true.
Proof.
  split; [done|]. split; [reflexivity|].
  destruct (readIntoGophermap_ends_in_CrLf exampleConfig textFilesWorld "/b.txt")
    as [Hret _].
  apply (Hret ltac:(done) ("one" +:+ Lf)). reflexivity.
Defined.

(** X10: with a page width above zero the loop that reflows one line ends
    within as many rounds as the line has bytes.  It appends one info line
    for each piece, in order; the pieces put together are the line, no
    piece is empty and none is longer than the page width. *)
Theorem reflow_cuts_to_page_width (cfg : ServerConfig) (fuel : nat)
    (line fileContents : string) :
  0 < PageWidth cfg →
  (String.length line ≤ fuel)%nat →
  ∃ pieces,
    reflow fuel cfg line fileContents
    = Ok (fileContents
            +:+ foldr (λ p rest, buildInfoLine cfg p +:+ rest) EmptyString pieces)
    ∧ foldr (λ p rest, p +:+ rest) EmptyString pieces = line
    ∧ Forall (λ p, (0 < String.length p)%nat
                   ∧ Z.of_nat (String.length p) ≤ PageWidth cfg) pieces.
Proof. apply reflow_pieces. Qed.

Lemma reflow_cuts_to_page_width_witness :
  0 < PageWidth (configWithPageWidth 2)
  ∧ (String.length "hello" ≤ 5)%nat
  ∧ ∃ pieces,
      reflow 5 (configWithPageWidth 2) "hello" EmptyString
      = Ok (EmptyString +:+ foldr (λ p rest, buildInfoLine (configWithPageWidth 2) p +:+ rest)
                     EmptyString pieces)
      ∧ foldr (λ p rest, p +:+ rest) EmptyString pieces = "hello"
      ∧ Forall (λ p, (0 < String.length p)%nat
                     ∧ Z.of_nat (String.length p)
                       ≤ PageWidth (configWithPageWidth 2)) pieces.
Proof.
  split; [done|]. split; [done|].
  apply (reflow_cuts_to_page_width (configWithPageWidth 2) 5 "hello" EmptyString);
    [done|simpl; lia].
Defined.

(** X11: with a page width of zero the loop that reflows a line that is
    not empty gives no result however many rounds it is allowed: every
    round cuts off nothing.  With a page width below zero the first round
    slices with a negative bound, which is a runtime panic.  So does the
    whole of [readIntoGophermap] on a file whose first line is not
    empty. *)
Theorem reflow_page_width_not_positive (cfg : ServerConfig) (w : World)
    (path line : string) (lines : list string) (tail : string) :
  line ≠ EmptyString →
  (PageWidth cfg = 0 →
   ∀ fuel fileContents, reflow fuel cfg line fileContents = OutOfFuel)
  ∧ (PageWidth cfg < 0 →
     ∀ fuel fileContents, reflow (S fuel) cfg line fileContents = GoPanic)
  ∧ (PageWidth cfg < 0 →
     readFile w path = Some (joinLf (line :: lines) +:+ tail) →
     Forall (λ l, bytesIndex Lf l = None) (line :: lines) →
     bytesIndex Lf tail = None →
     readIntoGophermap cfg w path = GoPanic).
Proof.
  intros Hline. split; [|split].
  - intros Hpw fuel acc. by apply reflow_width_zero.
  - intros Hpw fuel acc. by apply reflow_width_negative.
  - intros Hpw Hfile Hlines Htail. unfold readIntoGophermap.
    rewrite (bufferedScan_Lf_lines w path _ (line :: lines) tail _ Hfile Hlines Htail).
    apply Forall_cons in Hlines as [Hl _].
    rewrite fmap_cons. simpl.
    replace (String.eqb (line +:+ Lf) Lf) with false.
    2:{ symmetry. apply String.eqb_neq. intros Heq.
        apply (f_equal String.length) in Heq. rewrite length_append in Heq.
        destruct line; [done|]. simpl in Heq. lia. }
    rewrite (Replace_Lf_line _ Hl).
    destruct line as [|c t]; [done|].
    change (String.length (String c t)) with (S (String.length t)).
    by rewrite (reflow_width_negative cfg (String.length t) (String c t) EmptyString Hpw).
Qed.

Lemma reflow_page_width_not_positive_witness :
  "one" ≠ EmptyString
  ∧ PageWidth (configWithPageWidth 0) = 0
  ∧ PageWidth (configWithPageWidth (-1)) < 0
  ∧ reflow 1000 (configWithPageWidth 0) "one" EmptyString = OutOfFuel
  ∧ readIntoGophermap (configWithPageWidth (-1)) textFilesWorld "/a.txt" = GoPanic.
Proof.
  split; [done|]. split; [done|]. split; [done|]. split.
  - destruct (reflow_page_width_not_positive (configWithPageWidth 0)
                textFilesWorld "/a.txt" "one" [] "two") as [Hzero _]; [done|].
    apply Hzero. reflexivity.
  - destruct (reflow_page_width_not_positive (configWithPageWidth (-1))
                textFilesWorld "/a.txt" "one" [] "two") as (_ & _ & Hneg); [done|].
    apply Hneg.
    + done.
    + reflexivity.
    + repeat constructor.
    + reflexivity.
Defined.

(** X12: the bytes of a text file after its last LF never reach the
    page: [readIntoGophermap] returns for a file what it returns for the
    same file cut after its last LF. *)
Theorem readIntoGophermap_drops_unterminated_line (cfg : ServerConfig)
    (w : World) (path1 path2 : string) (lines : list string) (tail : string) :
  readFile w path1 = Some (joinLf lines +:+ tail) →
  readFile w path2 = Some (joinLf lines) →
  Forall (λ l, bytesIndex Lf l = None) lines →
  bytesIndex Lf tail = None →
  readIntoGophermap cfg w path1 = readIntoGophermap cfg w path2.
Proof.
  intros Hfile1 Hfile2 Hlines Htail. unfold readIntoGophermap.
  rewrite (bufferedScan_Lf_lines w path1 _ lines tail _ Hfile1 Hlines Htail).
  rewrite <- (append_nil_r (joinLf lines)) in Hfile2.
  by rewrite (bufferedScan_Lf_lines w path2 _ lines EmptyString _ Hfile2 Hlines eq_refl).
Qed.

Lemma readIntoGophermap_drops_unterminated_line_witness :
  readFile textFilesWorld "/a.txt" = Some (joinLf ["one"] +:+ "two")
  ∧ readFile textFilesWorld "/b.txt" = Some (joinLf ["one"])
  ∧ readIntoGophermap exampleConfig textFilesWorld "/a.txt"
    = readIntoGophermap exampleConfig textFilesWorld "/b.txt".
Proof.
  split; [reflexivity|]. split; [reflexivity|].
  apply (readIntoGophermap_drops_unterminated_line exampleConfig textFilesWorld
           "/a.txt" "/b.txt" ["one"] "two").
  - reflexivity.
  - reflexivity.
  - repeat constructor.
  - reflexivity.
Defined.

(** * Directives of a gophermap *)

(** X13: the parser stops at a last-line directive.  The result is the
    sections of the lines before it; the lines after it are not read,
    whatever they are, and no listing is appended. *)
Theorem readGophermap_stops_at_end (parseLineType : string → ItemType)
    (cfg : ServerConfig) (w : World) (path : string)
    (before : list string) (directive : string) (after : list string)
    (tail : string) (n : nat) (v : ScanVars) :
  readFile w path = Some (joinCrLf (before ++ directive :: after) +:+ tail) →
  Forall (λ l, bytesIndex CrLf l = None) (before ++ directive :: after) →
  bytesIndex CrLf tail = None →
  Forall (λ l, parseLineType l ≠ TypeEnd ∧ parseLineType l ≠ TypeEndBeginList)
    before →
  parseLineType directive = TypeEnd →
  handleLines parseLineType cfg w (readGophermap parseLineType cfg w n) path
    before emptyVars = Ok v →
  readGophermap parseLineType cfg w (S n) path = Ok (sections v, None).
Proof.
  intros Hfile Hlines Htail Hbefore Hend Hv.
  rewrite (readGophermap_lines _ _ _ _ _ _ _ Hfile Hlines Htail).
  rewrite (runLines_app_continue _ _ _ _ _ _ _ _ _ Hbefore Hv).
  destruct (runLines_handleLines parseLineType cfg w
              (readGophermap parseLineType cfg w n) path before emptyVars Hbefore)
    as [_ Hdir].
  simpl. unfold gophermapLine. rewrite Hend. by rewrite (Hdir v Hv).
Qed.

Lemma readGophermap_stops_at_end_witness :
  readFile menusWorld "/end/gophermap"
  = Some (joinCrLf (["iOne"] ++ "." :: ["iTwo"]) +:+ EmptyString)
  ∧ readGophermap parseLineTypeByFirstByte exampleConfig menusWorld 1
      "/end/gophermap"
    = Ok ([GophermapText (buildInfoLine exampleConfig "iOne")], None).
Proof.
  split; [reflexivity|].
  apply (readGophermap_stops_at_end parseLineTypeByFirstByte exampleConfig
           menusWorld "/end/gophermap" ["iOne"] "." ["iTwo"] EmptyString 0
           (appendSections [GophermapText (buildInfoLine exampleConfig "iOne")]
              emptyVars)).
  - reflexivity.
  - repeat constructor.
  - reflexivity.
  - repeat constructor; discriminate.
  - reflexivity.
  - reflexivity.
Defined.

(** X14: at a listing directive the parser stops and appends one
    directory listing after the sections of the lines before it.  The
    listing is of the path being parsed without the gophermap suffix, and
    it hides exactly the names of the hidden-file lines before the
    directive; lines after the directive are not read. *)
Theorem readGophermap_list_directive (parseLineType : string → ItemType)
    (cfg : ServerConfig) (w : World) (path : string)
    (before : list string) (directive : string) (after : list string)
    (tail : string) (n : nat) (v : ScanVars) :
  readFile w path = Some (joinCrLf (before ++ directive :: after) +:+ tail) →
  Forall (λ l, bytesIndex CrLf l = None) (before ++ directive :: after) →
  bytesIndex CrLf tail = None →
  Forall (λ l, parseLineType l ≠ TypeEnd ∧ parseLineType l ≠ TypeEndBeginList)
    before →
  parseLineType directive = TypeEndBeginList →
  handleLines parseLineType cfg w (readGophermap parseLineType cfg w n) path
    before emptyVars = Ok v →
  readGophermap parseLineType cfg w (S n) path
  = Ok (sections v
          ++ [GophermapDirListing (TrimSuffix path (GophermapFileStr cfg))
                (hidden v)], None)
  ∧ (∀ name, is_Some (hidden v !! name)
             ↔ Exists (λ l, parseLineType l = TypeHiddenFile
                            ∧ sliceFrom1 l = Some name) before)
  ∧ (∀ name b, hidden v !! name = Some b → b = true).
Proof.
  intros Hfile Hlines Htail Hbefore Hend Hv.
  split; [|split].
  - rewrite (readGophermap_lines _ _ _ _ _ _ _ Hfile Hlines Htail).
    rewrite (runLines_app_continue _ _ _ _ _ _ _ _ _ Hbefore Hv).
    simpl. unfold gophermapLine. by rewrite Hend.
  - intros name.
    destruct (handleLines_hidden _ _ _ _ _ _ _ _ Hv) as [Hiff _].
    rewrite Hiff. simpl. rewrite lookup_empty. split; [|by right].
    intros [[? ?]|?]; done.
  - destruct (handleLines_hidden _ _ _ _ _ _ _ _ Hv) as [_ Htrue].
    apply Htrue. simpl. intros name b. by rewrite lookup_empty.
Qed.

Lemma readGophermap_list_directive_witness :
  readFile menusWorld "/list/gophermap"
  = Some (joinCrLf (["-secret"; "iOne"] ++ "*" :: ["-late"]) +:+ EmptyString)
  ∧ readGophermap parseLineTypeByFirstByte exampleConfig menusWorld 1
      "/list/gophermap"
    = Ok ([GophermapText (buildInfoLine exampleConfig "iOne");
           GophermapDirListing "/list/" (<["secret" := true]> ∅)], None).
Proof.
  split; [reflexivity|].
  destruct (readGophermap_list_directive parseLineTypeByFirstByte exampleConfig
           menusWorld "/list/gophermap" ["-secret"; "iOne"] "*" ["-late"] EmptyString 0
           {| sections := [GophermapText (buildInfoLine exampleConfig "iOne")];
              hidden := <["secret" := true]> ∅;
              dirListing := None |}) as [Hread _].
  - reflexivity.
  - repeat constructor.
  - reflexivity.
  - repeat constructor; discriminate.
  - reflexivity.
  - reflexivity.
  - exact Hread.
Defined.

(** X15: a gophermap of menu lines alone, none of which holds the host
    name placeholder, is stored and rendered byte for byte: after [Load]
    without error, [Render] returns the lines of the file, each with its
    CR-LF. *)
Theorem GophermapContents_plain_round_trip (parseLineType : string → ItemType)
    (cfg : ServerConfig) (w : World) (path : string) (lines : list string)
    (tail : string) :
  readFile w path = Some (joinCrLf lines +:+ tail) →
  Forall (λ l, bytesIndex CrLf l = None) lines →
  bytesIndex CrLf tail = None →
  Forall (λ l, parseLineType l = TypeOther
               ∧ bytesIndex (ReplaceStrHostname cfg) l = None) lines →
  ∃ gc,
    GophermapContents_Load parseLineType cfg w 1
      {| gcPath := path; gcSections := [] |} = Ok (gc, None)
    ∧ gcPath gc = path
    ∧ GophermapContents_Render cfg w gc = joinCrLf lines.
Proof.
  intros Hfile Hlines Htail Hplain.
  assert (Forall (λ l, parseLineType l ≠ TypeEnd
                       ∧ parseLineType l ≠ TypeEndBeginList) lines) as Hnoend.
  { eapply Forall_impl; [exact Hplain|]. intros l [-> _]. done. }
  unfold GophermapContents_Load. simpl gcPath.
  rewrite (readGophermap_lines _ _ _ _ _ _ _ Hfile Hlines Htail).
  destruct (runLines_handleLines parseLineType cfg w
              (readGophermap parseLineType cfg w 0) path lines emptyVars Hnoend)
    as [-> _].
  rewrite (handleLines_plain _ _ _ _ _ _ _ Hplain). simpl.
  eexists. split; [reflexivity|]. split; [done|].
  unfold GophermapContents_Render. simpl. rewrite Render_fold, append_nil_l.
  clear. induction lines as [|l lines IH]; [done|].
  rewrite fmap_cons, joinCrLf_cons. simpl. rewrite IH.
  unfold sectionBytes. simpl. by rewrite append_assoc.
Qed.

Lemma GophermapContents_plain_round_trip_witness :
  readFile menusWorld "/plain/gophermap"
  = Some (joinCrLf ["1Docs" +:+ Tab +:+ "/docs" +:+ Tab +:+ "example.org"
                      +:+ Tab +:+ "70"] +:+ EmptyString)
  ∧ ∃ gc,
      GophermapContents_Load parseLineTypeByFirstByte exampleConfig menusWorld 1
        {| gcPath := "/plain/gophermap"; gcSections := [] |} = Ok (gc, None)
      ∧ gcPath gc = "/plain/gophermap"
      ∧ GophermapContents_Render exampleConfig menusWorld gc
        = joinCrLf ["1Docs" +:+ Tab +:+ "/docs" +:+ Tab +:+ "example.org"
                      +:+ Tab +:+ "70"].
Proof.
  split; [reflexivity|].
  apply (GophermapContents_plain_round_trip parseLineTypeByFirstByte
           exampleConfig menusWorld "/plain/gophermap"
           ["1Docs" +:+ Tab +:+ "/docs" +:+ Tab +:+ "example.org" +:+ Tab +:+ "70"]
           EmptyString).
  - reflexivity.
  - repeat constructor.
  - reflexivity.
  - repeat constructor.
Defined.

(** X16: an include whose target cannot be opened does not fail the
    parse.  Whether the target is a gophermap or a regular file, the line
    adds one info line with the text [Error reading subgophermap: ] and
    the target, and the parser goes on with the next line. *)
Theorem gophermapLine_include_not_readable (parseLineType : string → ItemType)
    (cfg : ServerConfig) (w : World) (path line target : string) (n : nat)
    (v : ScanVars) :
  parseLineType line = TypeSubGophermap →
  sliceFrom1 line = Some target →
  readFile w target = None →
  target ≠ path →
  gophermapLine parseLineType cfg w (readGophermap parseLineType cfg w (S n))
    path line v
  = Ok (appendSections
          [NewGophermapText
             (buildInfoLine cfg ("Error reading subgophermap: " +:+ target))]
          v, true).
Proof.
  intros Hty Hslice Hfile Hne. unfold gophermapLine. rewrite Hty, Hslice.
  destruct (HasSuffix target (GophermapFileStr cfg)).
  - rewrite (proj2 (String.eqb_neq target path) Hne).
    simpl. unfold bufferedScan. by rewrite Hfile.
  - unfold readIntoGophermap, bufferedScan. by rewrite Hfile.
Qed.

Lemma gophermapLine_include_not_readable_witness :
  readFile menusWorld "/gone/gophermap" = None
  ∧ gophermapLine parseLineTypeByFirstByte exampleConfig menusWorld
      (readGophermap parseLineTypeByFirstByte exampleConfig menusWorld 1)
      "/top/gophermap" "=/gone/gophermap" emptyVars
    = Ok (appendSections
            [NewGophermapText
               (buildInfoLine exampleConfig
                  ("Error reading subgophermap: " +:+ "/gone/gophermap"))]
            emptyVars, true).
Proof.
  split; [reflexivity|].
  apply (gophermapLine_include_not_readable parseLineTypeByFirstByte
           exampleConfig menusWorld "/top/gophermap" "=/gone/gophermap"
           "/gone/gophermap" 0 emptyVars).
  - reflexivity.
  - reflexivity.
  - reflexivity.
  - done.
Defined.

(** X17: the sections of an included gophermap take the place of the
    include line: the result is the sections of the lines before the
    include, then the sections the included gophermap was parsed to, then
    the sections of the lines after it. *)
Theorem readGophermap_splices_include (parseLineType : string → ItemType)
    (cfg : ServerConfig) (w : World) (path : string)
    (before : list string) (include : string) (after : list string)
    (tail target : string) (n : nat) (v1 v2 : ScanVars)
    (submapSections : list GophermapSection) :
  readFile w path = Some (joinCrLf (before ++ include :: after) +:+ tail) →
  Forall (λ l, bytesIndex CrLf l = None) (before ++ include :: after) →
  bytesIndex CrLf tail = None →
  Forall (λ l, parseLineType l ≠ TypeEnd ∧ parseLineType l ≠ TypeEndBeginList)
    (before ++ after) →
  parseLineType include = TypeSubGophermap →
  sliceFrom1 include = Some target →
  HasSuffix target (GophermapFileStr cfg) = true →
  target ≠ path →
  readGophermap parseLineType cfg w n target = Ok (submapSections, None) →
  handleLines parseLineType cfg w (readGophermap parseLineType cfg w n) path
    before emptyVars = Ok v1 →
  handleLines parseLineType cfg w (readGophermap parseLineType cfg w n) path
    after emptyVars = Ok v2 →
  readGophermap parseLineType cfg w (S n) path
  = Ok (sections v1 ++ submapSections ++ sections v2, None).
Proof.
  intros Hfile Hlines Htail Hnoend Hty Hslice Hsuf Hne Hsub Hv1 Hv2.
  apply Forall_app in Hnoend as [Hbefore Hafter].
  assert (Forall (λ l, parseLineType l ≠ TypeEnd
                       ∧ parseLineType l ≠ TypeEndBeginList)
            (before ++ include :: after)) as Hall.
  { apply Forall_app. split; [done|]. constructor; [|done]. by rewrite Hty. }
  rewrite (readGophermap_lines _ _ _ _ _ _ _ Hfile Hlines Htail).
  destruct (runLines_handleLines parseLineType cfg w
              (readGophermap parseLineType cfg w n) path _ emptyVars Hall)
    as [-> Hdir].
  destruct (handleLines_sections _ _ _ _ _ _ _ _ Hv2) as (new & Hnew & Hany).
  simpl in Hnew. subst new.
  destruct (Hany (appendSections submapSections v1)) as (v' & Hv' & Hsec).
  assert (handleLines parseLineType cfg w (readGophermap parseLineType cfg w n)
            path (before ++ include :: after) emptyVars = Ok v') as Hwhole.
  { rewrite handleLines_app, Hv1. simpl. unfold gophermapLine at 1.
    rewrite Hty, Hslice, Hsuf, (proj2 (String.eqb_neq target path) Hne), Hsub.
    exact Hv'. }
  rewrite Hwhole, (Hdir v' Hwhole). simpl.
  rewrite Hsec. simpl. by rewrite <- app_assoc.
Qed.

Lemma readGophermap_splices_include_witness :
  readFile menusWorld "/top/gophermap"
  = Some (joinCrLf (["iHead"] ++ "=/sub/gophermap" :: ["iTail"]) +:+ EmptyString)
  ∧ readGophermap parseLineTypeByFirstByte exampleConfig menusWorld 2
      "/top/gophermap"
    = Ok ([GophermapText (buildInfoLine exampleConfig "iHead")]
            ++ [GophermapText (buildInfoLine exampleConfig "iSub")]
            ++ [GophermapText (buildInfoLine exampleConfig "iTail")], None).
Proof.
  split; [reflexivity|].
  apply (readGophermap_splices_include parseLineTypeByFirstByte exampleConfig
           menusWorld "/top/gophermap" ["iHead"] "=/sub/gophermap" ["iTail"] EmptyString
           "/sub/gophermap" 1
           (appendSections [GophermapText (buildInfoLine exampleConfig "iHead")]
              emptyVars)
           (appendSections [GophermapText (buildInfoLine exampleConfig "iTail")]
              emptyVars)
           [GophermapText (buildInfoLine exampleConfig "iSub")]).
  - reflexivity.
  - repeat constructor.
  - reflexivity.
  - repeat constructor; discriminate.
  - reflexivity.
  - reflexivity.
  - reflexivity.
  - done.
  - reflexivity.
  - reflexivity.
  - reflexivity.
Defined.

(** * The locks a goroutine holds *)

Lemma lockDiscipline_bind {A B} (h h1 h2 : HeldLocks) (p : Prog A)
    (k : A → Prog B) :
  lockDiscipline h h1 p →
  (∀ a, lockDiscipline h1 h2 (k a)) →
  lockDiscipline h h2 (bind p k).
Proof.
  intros Hp Hk. revert h Hp.
  induction p as [a| |R o k' IH]; intros h Hp; simpl in *.
  - by subst.
  - done.
  - destruct (lockStep o h) as [h'|]; [|done].
    intros r. by apply IH.
Qed.

Lemma lockDiscipline_forEach (h : HeldLocks) (l : list string)
    (body : string → Prog unit) :
  (∀ x, lockDiscipline h h (body x)) → lockDiscipline h h (forEach l body).
Proof.
  intros Hbody. induction l as [|x l IH]; [done|].
  simpl. eapply lockDiscipline_bind; [apply Hbody|]. by intros _.
Qed.

Ltac lock_paths :=
  repeat first
    [ progress simpl
    | done
    | match goal with
      | |- ∀ _ : option _, _ => intros [?|]
      | |- ∀ _ : bool, _ => intros [|]
      | |- ∀ _, _ => intros ?
      | |- context [bool_decide ?P] => destruct (bool_decide P)
      end ].

Lemma Fetch_lockDiscipline (path : string) :
  lockDiscipline noLocks noLocks (Fetch path).
Proof. unfold Fetch, fetchReload, fetchEvict, fetchServe. lock_paths. Qed.

Lemma checkCacheFreshness_lockDiscipline :
  lockDiscipline noLocks noLocks checkCacheFreshness.
Proof.
  unfold checkCacheFreshness. simpl. intros _ paths.
  eapply (lockDiscipline_bind _ {| heldRead := 1; heldWrite := false;
                                   heldList := false |}).
  - apply lockDiscipline_forEach. intros x. unfold checkEntry. lock_paths.
  - intros _. lock_paths.
Qed.

(** X20: the locks of the cache are used in pairs on every path through
    [Fetch] and through a round of the monitor, whatever the commands
    return and so whatever other goroutines do in between.  The map is
    read under one of its locks only, written under its write lock only;
    elements are pushed on and removed from the list under the write lock
    of the map and moved under the list lock and the read lock of the
    map; no lock is released that
    is not held or taken in a way that blocks the goroutine on itself;
    and at every return, the error returns included, the goroutine holds
    neither a lock of the map nor the list lock. *)
Theorem Fetch_lock_discipline :
  (∀ path, lockDiscipline noLocks noLocks (Fetch path))
  ∧ lockDiscipline noLocks noLocks checkCacheFreshness.
Proof.
  split; [apply Fetch_lockDiscipline|apply checkCacheFreshness_lockDiscipline].
Qed.

(** * Policy files across rounds of the monitor *)

Lemma cacheInv_cachePolicyFile (w : World) (path content : string)
    (s : State RegularCacheContents) :
  cacheInv s → CacheMap (fc s) !! path = None →
  cacheInv (cachePolicyFile w path content s).
Proof.
  intros Hinv Hm. unfold cachePolicyFile.
  destruct (statModTime w path); [done|].
  between_calls s Hinv m l cap mk h ne log. simpl in Hm.
  apply (cacheInv_insert m l cap mk h ne log log path
           (GeneratedFileContents content) true (nowNano w) Hm Hinv).
Qed.

(** X19: when [/robots.txt] cannot be stat'ed at start-up the bootstrap
    puts the generated text into the cache, whether or not [/caps.txt] is
    on disk, and leaves the cache with every lock free and the map and
    the list in agreement.  As long as the path cannot be stat'ed the
    monitor leaves the entry fresh, so a [Fetch] of [/robots.txt] after a
    round of the monitor returns the generated text and calls no load. *)
Theorem robots_txt_stays_in_memory (cfg : ServerConfig) (w0 w1 w : World)
    (size : Z) :
  statModTime w0 "/robots.txt" = None →
  statModTime w1 "/robots.txt" = None →
  let s0 := cachePolicyFiles cfg w0 (initState size NewRegularFile) in
  cacheInv s0
  ∧ ∃ s1 s2,
      exec w1 checkCacheFreshness s0 = Done (tt, s1)
      ∧ exec w (Fetch "/robots.txt") s1 = Done ((generateRobotsTxt, None), s2)
      ∧ loadLog s2 = loadLog s0.
Proof.
  intros Hstat0 Hstat1 s0.
  assert (cacheInv s0) as Hinv.
  { subst s0. unfold cachePolicyFiles.
    apply cacheInv_cachePolicyFile.
    - apply cacheInv_cachePolicyFile; [apply cacheInv_init|done].
    - unfold cachePolicyFile. destruct (statModTime w0 "/caps.txt"); [done|].
      simpl. by rewrite lookup_insert_ne. }
  split; [exact Hinv|].
  assert (∃ fe, CacheMap (fc s0) !! "/robots.txt" = Some fe
            ∧ heap s0 !! FilePtr fe
              = Some (mkFile (GeneratedFileContents generateRobotsTxt) true
                        (nowNano w0))) as (fe & Hm & Hf).
  { subst s0. unfold cachePolicyFiles.
    generalize (cachePolicyFile w0 "/caps.txt" (generateCapsTxt cfg)
                  (initState size NewRegularFile)).
    intros s. unfold cachePolicyFile. rewrite Hstat0.
    eexists. split; [apply lookup_insert_eq|]. simpl. apply heap_new_lookup. }
  clearbody s0.
  between_calls s0 Hinv m l cap mk h ne log. simpl in Hm, Hf.
  pose proof Hinv as ((_ & _ & Hq) & _ & Hw1 & _ & _ & Hdist).
  simpl in Hq, Hw1.
  assert (sweepFiles w1 m (map_to_list m).*1 h !! FilePtr fe
          = Some (mkFile (GeneratedFileContents generateRobotsTxt) true
                    (nowNano w0))) as Hf1.
  { rewrite (sweepFiles_entry w1 m _ h "/robots.txt" fe
               (mkFile (GeneratedFileContents generateRobotsTxt) true (nowNano w0)));
      [| |done| |done..].
    - unfold staleOnDisk. by rewrite Hstat1.
    - apply NoDup_fst_map_to_list.
    - apply list_elem_of_fmap. exists ("/robots.txt", fe). split; [done|].
      by apply elem_of_map_to_list. }
  eexists _, _. split.
  { apply checkCacheFreshness_exec; [|done].
    intros p fe' Hp. by apply (Hw1 p fe'). }
  split.
  - rewrite (Fetch_hit_fresh w m l cap mk _ ne log "/robots.txt" fe _ _ Hm Hf1).
    reflexivity.
  - reflexivity.
Qed.

Lemma robots_txt_stays_in_memory_witness :
  statModTime capsOnDiskWorld "/robots.txt" = None
  ∧ statModTime emptyWorld "/robots.txt" = None
  ∧ let s0 := cachePolicyFiles exampleConfig capsOnDiskWorld
                (initState 10 NewRegularFile) in
    cacheInv s0
    ∧ ∃ s1 s2,
        exec emptyWorld checkCacheFreshness s0 = Done (tt, s1)
        ∧ exec abcWorld (Fetch "/robots.txt") s1
          = Done ((generateRobotsTxt, None), s2)
        ∧ loadLog s2 = loadLog s0.
Proof.
  split; [reflexivity|]. split; [reflexivity|].
  apply (robots_txt_stays_in_memory exampleConfig capsOnDiskWorld emptyWorld
           abcWorld 10); reflexivity.
Defined.

(** * Goroutines on one cache *)

Lemma monitorRounds_lockDiscipline (rounds : nat) :
  lockDiscipline noLocks noLocks (monitorRounds rounds).
Proof.
  induction rounds as [|n IH]; [done|].
  change (monitorRounds (S n))
    with (bind checkCacheFreshness (λ _, monitorRounds n)).
  eapply lockDiscipline_bind; [apply checkCacheFreshness_lockDiscipline|].
  by intros _.
Qed.

Lemma goroutine_lockDiscipline (g : Goroutine) :
  lockDiscipline noLocks noLocks (goroutine g).
Proof.
  destruct g as [path|rounds]; unfold goroutine.
  - eapply lockDiscipline_bind; [apply Fetch_lockDiscipline|]. by intros _.
  - apply monitorRounds_lockDiscipline.
Qed.

Lemma sum_list_lookup_le (l : list nat) (i : nat) (x : nat) :
  l !! i = Some x → (x ≤ sum_list l)%nat.
Proof.
  revert i. induction l as [|a l IH]; intros [|i] Hi; simpl in *;
    simplify_eq; [lia|].
  specialize (IH i Hi). lia.
Qed.

Lemma sum_list_lookup2_le (l : list nat) (i j : nat) (x y : nat) :
  i ≠ j → l !! i = Some x → l !! j = Some y → (x + y ≤ sum_list l)%nat.
Proof.
  revert i j. induction l as [|a l IH]; intros [|i] [|j] Hne Hi Hj; simpl in *;
    simplify_eq.
  - pose proof (sum_list_lookup_le l j y Hj). lia.
  - pose proof (sum_list_lookup_le l i x Hi). lia.
  - assert (i ≠ j) as Hne' by congruence.
    specialize (IH i j Hne' Hi Hj). lia.
Qed.

Lemma sum_list_noLocks {A} (f : HeldLocks → nat) (gs : list A) :
  f noLocks = 0%nat → sum_list (f <$> ((λ _ : A, noLocks) <$> gs)) = 0%nat.
Proof.
  intros Hf. induction gs as [|g gs IH]; [done|].
  rewrite !fmap_cons.
  change (f noLocks + sum_list (f <$> ((λ _ : A, noLocks) <$> gs)) = 0)%nat.
  by rewrite Hf, IH.
Qed.

Section Pool.
Context `{FileContents C}.

(** A command changes the locks of the cache as it changes the locks its
    goroutine holds. *)
Lemma handle_locks {R} (w : World) (o : Op R) (s s' : State C) (r : R)
    (h h' : HeldLocks) :
  handle w o s = Done (r, s') →
  lockStep o h = Some h' →
  (writer (CacheMutex (fc s)) = true → readers (CacheMutex (fc s)) = 0%nat) →
  (readers (CacheMutex (fc s')) + heldRead h
   = readers (CacheMutex (fc s)) + heldRead h')%nat
  ∧ (boolToNat (writer (CacheMutex (fc s'))) + boolToNat (heldWrite h)
     = boolToNat (writer (CacheMutex (fc s))) + boolToNat (heldWrite h'))%nat
  ∧ (boolToNat (ListMutex (fc s')) + boolToNat (heldList h)
     = boolToNat (ListMutex (fc s)) + boolToNat (heldList h'))%nat
  ∧ (writer (CacheMutex (fc s')) = true → readers (CacheMutex (fc s')) = 0%nat).
Proof.
  destruct s as [[m [rd wr] l lm size nf] hp ne log].
  destruct h as [hr hw hl].
  destruct o; simpl;
    unfold onCacheMutex, onFileMutex, withFile, acquire, release,
      rwRLock, rwRUnlock, rwLock, rwUnlock; simpl;
    intros Hh Hstep Hwr; repeat case_match; simplify_eq; simpl in *;
    repeat split; try done; try lia; intros; try done;
    try (specialize (Hwr eq_refl); simplify_eq);
    try (match goal with Hw : ?b = true → _, Hb : ?b = true |- _ =>
           specialize (Hw Hb) end; lia).
Qed.

Lemma poolStep_locks {A} (w : World) (i : nat) (pool pool' : list (Prog A))
    (s s' : State C) (hs : list HeldLocks) :
  poolStep w i pool s = Running pool' s' →
  Forall2 (λ h p, lockDiscipline h noLocks p) hs pool →
  locksAgree hs s →
  ∃ hs', Forall2 (λ h p, lockDiscipline h noLocks p) hs' pool'
    ∧ locksAgree hs' s'.
Proof.
  unfold poolStep. intros Hstep Hall (Hrd & Hwr & Hls & Hex).
  destruct (pool !! i) as [[a| |R o k]|] eqn:Hi; try done.
  destruct (handle w o s) as [[r s1]| |] eqn:Hh; try done.
  simplify_eq.
  destruct (Forall2_lookup_r _ _ _ _ _ Hall Hi) as (h & Hhs & Hdisc).
  simpl in Hdisc.
  destruct (lockStep o h) as [h'|] eqn:Hls'; [|done].
  destruct (handle_locks w o s s' r h h' Hh Hls' Hex) as (H1 & H2 & H3 & H4).
  exists (<[i := h']> hs). split; [by apply Forall2_insert|].
  unfold locksAgree. rewrite !list_fmap_insert.
  pose proof (sum_list_insert (heldRead <$> hs) i (heldRead h) (heldRead h')
                ltac:(by rewrite list_lookup_fmap, Hhs)).
  pose proof (sum_list_insert ((λ h, boolToNat (heldWrite h)) <$> hs) i
                (boolToNat (heldWrite h)) (boolToNat (heldWrite h'))
                ltac:(by rewrite list_lookup_fmap, Hhs)).
  pose proof (sum_list_insert ((λ h, boolToNat (heldList h)) <$> hs) i
                (boolToNat (heldList h)) (boolToNat (heldList h'))
                ltac:(by rewrite list_lookup_fmap, Hhs)).
  repeat split; [lia..|done].
Qed.

Lemma sched_locks {A} (w : World) (schedule : list nat)
    (pool pool' : list (Prog A)) (s s' : State C) (hs : list HeldLocks) :
  sched w schedule pool s = Running pool' s' →
  Forall2 (λ h p, lockDiscipline h noLocks p) hs pool →
  locksAgree hs s →
  ∃ hs', Forall2 (λ h p, lockDiscipline h noLocks p) hs' pool'
    ∧ locksAgree hs' s'.
Proof.
  revert pool s hs. induction schedule as [|i rest IH]; intros pool s hs.
  - simpl. intros ? ? ?. simplify_eq. by exists hs.
  - simpl. destruct (poolStep w i pool s) as [pool1 s1| |] eqn:Hstep; try done.
    intros Hrest Hall Hagree.
    destruct (poolStep_locks w i pool pool1 s s1 hs Hstep Hall Hagree)
      as (hs1 & Hall1 & Hagree1).
    by apply (IH pool1 s1 hs1).
Qed.

(** Goroutines that hold the locks their next commands need are not
    about to race. *)
Lemma locksAgree_no_race (hs : list HeldLocks) (s : State C) (i j : nat)
    (h1 h2 : HeldLocks) {R1 R2} (o1 : Op R1) (o2 : Op R2) :
  locksAgree hs s → i ≠ j →
  hs !! i = Some h1 → hs !! j = Some h2 →
  is_Some (lockStep o1 h1) → is_Some (lockStep o2 h2) →
  races o1 o2 = false.
Proof.
  intros (Hrd & Hwr & Hls & Hex) Hne Hi Hj [h1' Hs1] [h2' Hs2].
  pose proof (sum_list_lookup2_le (heldRead <$> hs) i j (heldRead h1)
                (heldRead h2) Hne ltac:(by rewrite list_lookup_fmap, Hi)
                ltac:(by rewrite list_lookup_fmap, Hj)) as Hr.
  pose proof (sum_list_lookup2_le ((λ h, boolToNat (heldWrite h)) <$> hs) i j
                _ _ Hne ltac:(by rewrite list_lookup_fmap, Hi)
                ltac:(by rewrite list_lookup_fmap, Hj)) as Hw.
  pose proof (sum_list_lookup2_le ((λ h, boolToNat (heldList h)) <$> hs) i j
                _ _ Hne ltac:(by rewrite list_lookup_fmap, Hi)
                ltac:(by rewrite list_lookup_fmap, Hj)) as Hl.
  simpl in Hw, Hl. rewrite <- Hrd in Hr. rewrite <- Hwr in Hw.
  rewrite <- Hls in Hl.
  destruct h1 as [r1 w1 l1], h2 as [r2 w2 l2].
  destruct (writer (CacheMutex (fc s))) eqn:Hwriter;
    [rewrite (Hex eq_refl) in Hr|];
    destruct (ListMutex (fc s));
    destruct o1; try done; destruct o2; try done;
    simpl in *; repeat case_match; simplify_eq; simpl in *;
    try done; try lia;
    repeat match goal with
           | Hb : (_ =? _)%nat = false |- _ => apply Nat.eqb_neq in Hb
           | Hb : _ && _ = true |- _ => apply andb_true_iff in Hb as [? ?]
           | Hb : _ || _ = true |- _ => apply orb_true_iff in Hb as [?|?]
           | Hb : negb _ = true |- _ => apply negb_true_iff in Hb
           end; simplify_eq; simpl in *; try done; try lia.
Qed.
End Pool.

(** X21: workers in [Fetch] and monitors in [checkCacheFreshness] that
    share one cache never race on the map or on the list, whatever the
    schedule: when the locks of the map and of the list were free at the
    start, at no moment are two goroutines about to touch the map, or the
    list, with one of them about to write it. *)
Theorem goroutines_never_race `{FileContents C} (w : World)
    (schedule : list nat) (gs : list Goroutine) (pool' : list (Prog unit))
    (s s' : State C) :
  CacheMutex (fc s) = rwFree →
  ListMutex (fc s) = false →
  sched w schedule (goroutine <$> gs) s = Running pool' s' →
  ∀ (i j : nat) R1 R2 (o1 : Op R1) (o2 : Op R2) k1 k2,
    i ≠ j →
    pool' !! i = Some (Vis o1 k1) →
    pool' !! j = Some (Vis o2 k2) →
    races o1 o2 = false.
Proof.
  intros Hcm Hlm Hsched i j R1 R2 o1 o2 k1 k2 Hne Hi Hj.
  destruct (sched_locks w schedule (goroutine <$> gs) pool' s s'
              ((λ _, noLocks) <$> gs) Hsched) as (hs & Hall & Hagree).
  - apply Forall2_fmap, Forall_Forall2_diag, Forall_forall.
    intros g _. apply goroutine_lockDiscipline.
  - unfold locksAgree. rewrite Hcm, Hlm. simpl.
    rewrite !sum_list_noLocks by done. done.
  - destruct (Forall2_lookup_r _ _ _ _ _ Hall Hi) as (h1 & Hh1 & Hd1).
    destruct (Forall2_lookup_r _ _ _ _ _ Hall Hj) as (h2 & Hh2 & Hd2).
    simpl in Hd1, Hd2.
    apply (locksAgree_no_race hs s' i j h1 h2 o1 o2 Hagree Hne Hh1 Hh2).
    + destruct (lockStep o1 h1); [by eexists|done].
    + destruct (lockStep o2 h2); [by eexists|done].
Qed.

Lemma goroutines_never_race_witness :
  CacheMutex (fc (initState 3 NewRegularFile)) = rwFree
  ∧ ListMutex (fc (initState 3 NewRegularFile)) = false
  ∧ ∃ pool' s',
      sched abcWorld [0; 1; 2; 0; 2]%nat
        (goroutine <$> [Worker "/A"; Worker "/B"; Monitor 1])
        (initState 3 NewRegularFile) = Running pool' s'
      ∧ ∀ (i j : nat) R1 R2 (o1 : Op R1) (o2 : Op R2) k1 k2,
          i ≠ j →
          pool' !! i = Some (Vis o1 k1) →
          pool' !! j = Some (Vis o2 k2) →
          races o1 o2 = false.
Proof.
  split; [reflexivity|]. split; [reflexivity|].
  eexists _, _. split; [vm_compute; reflexivity|].
  eapply goroutines_never_race
    with (w := abcWorld) (schedule := [0; 1; 2; 0; 2]%nat)
         (gs := [Worker "/A"; Worker "/B"; Monitor 1])
         (s := initState 3 NewRegularFile).
  - reflexivity.
  - reflexivity.
  - vm_compute; reflexivity.
Defined.

(** * The lines the parser reads *)

(** C8 (as amended): for a source without a last-line directive the parser
    returns, and without error: it handles every line that ends in CR-LF,
    in order and up to the end of the file, and returns the sections of
    all of them.  This is so when the page width is above zero or no text
    file that can be opened is included, when the parse of every included
    gophermap other than the source itself returns, and when no
    hidden-file or include line is empty (the slice [line[1:]] of an empty
    line is a runtime panic).  The bytes after the last CR-LF are not a
    line for the scanner: they are dropped. *)
Theorem readGophermap_reads_terminated_lines
    (parseLineType : string → ItemType) (cfg : ServerConfig) (w : World)
    (path : string) (lines : list string) (tail : string) (n : nat) :
  readFile w path = Some (joinCrLf lines +:+ tail) →
  Forall (λ l, bytesIndex CrLf l = None) lines →
  bytesIndex CrLf tail = None →
  Forall (λ l, parseLineType l ≠ TypeEnd ∧ parseLineType l ≠ TypeEndBeginList)
    lines →
  Forall (λ l, parseLineType l = TypeHiddenFile → l ≠ EmptyString) lines →
  Forall (λ l, parseLineType l = TypeSubGophermap →
               ∃ target, sliceFrom1 l = Some target
                 ∧ if HasSuffix target (GophermapFileStr cfg)
                   then target = path
                        ∨ ∃ r, readGophermap parseLineType cfg w n target = Ok r
                   else 0 < PageWidth cfg ∨ readFile w target = None) lines →
  ∃ v,
    handleLines parseLineType cfg w (readGophermap parseLineType cfg w n) path
      lines emptyVars = Ok v
    ∧ readGophermap parseLineType cfg w (S n) path = Ok (sections v, None).
Proof.
  intros Hfile Hlines Htail Hnoend Hhid Hsub.
  destruct (handleLines_returns parseLineType cfg w
              (readGophermap parseLineType cfg w n) path lines emptyVars
              Hhid Hsub) as [v Hv].
  exists v. split; [exact Hv|]. simpl.
  rewrite (bufferedScan_lines w path _ lines tail _ Hfile Hlines Htail).
  destruct (runLines_handleLines parseLineType cfg w
              (readGophermap parseLineType cfg w n) path lines emptyVars Hnoend)
    as [-> Hdir].
  rewrite Hv. by rewrite (Hdir v Hv).
Qed.

Lemma readGophermap_reads_terminated_lines_witness :
  readFile includesWorld "/gophermap"
  = Some (joinCrLf ["iHead"; "=/sub/gophermap"; "=/notes.txt"] +:+ "iLast")
  ∧ ∃ v,
      handleLines parseLineTypeByFirstByte exampleConfig includesWorld
        (readGophermap parseLineTypeByFirstByte exampleConfig includesWorld 1)
        "/gophermap" ["iHead"; "=/sub/gophermap"; "=/notes.txt"] emptyVars
      = Ok v
      ∧ readGophermap parseLineTypeByFirstByte exampleConfig includesWorld 2
          "/gophermap" = Ok (sections v, None).
Proof.
  split; [reflexivity|].
  apply (readGophermap_reads_terminated_lines parseLineTypeByFirstByte
           exampleConfig includesWorld "/gophermap"
           ["iHead"; "=/sub/gophermap"; "=/notes.txt"] "iLast" 1).
  - reflexivity.
  - repeat constructor.
  - reflexivity.
  - repeat constructor; discriminate.
  - repeat constructor; discriminate.
  - constructor; [discriminate|].
    constructor.
    { intros _. exists "/sub/gophermap". split; [reflexivity|].
      right. eexists. reflexivity. }
    constructor; [|constructor].
    intros _. exists "/notes.txt". split; [reflexivity|].
    left. reflexivity.
Defined.

(** C8, as stated, fails for a source whose last line has no CR-LF: the
    source has the lines [iHello] and [iWorld] and no last-line directive,
    and the parser returns the section of the first line only. *)
Lemma readGophermap_drops_unterminated_line :
  readFile unterminatedWorld "/gophermap"
  = Some ("iHello" +:+ CrLf +:+ "iWorld")
  ∧ sourceLines ("iHello" +:+ CrLf +:+ "iWorld") = ["iHello"; "iWorld"]
  ∧ parseLineTypeByFirstByte "iHello" = TypeInfoNotStated
  ∧ parseLineTypeByFirstByte "iWorld" = TypeInfoNotStated
  ∧ handleLines parseLineTypeByFirstByte exampleConfig unterminatedWorld
      (λ _, OutOfFuel) "/gophermap" ["iHello"; "iWorld"] emptyVars
    = Ok (appendSections
            [GophermapText (buildInfoLine exampleConfig "iHello");
             GophermapText (buildInfoLine exampleConfig "iWorld")] emptyVars)
  ∧ readGophermap parseLineTypeByFirstByte exampleConfig unterminatedWorld 1
      "/gophermap"
    = Ok ([GophermapText (buildInfoLine exampleConfig "iHello")], None).
Proof.
  repeat split; vm_compute; reflexivity.
Qed.
